(** * Multi-Threaded-Go: a shallow embedding of the port scanner

    The development follows the Go sources:
    - [scanner.go]: [Scanner], the functional options, [NewScanner],
      [Scan], [isPortOpen];
    - the detection helpers: [commonPorts], [getServiceName], [grabBanner],
      [expandIPRange], [guessOS];
    - the interactive front end: the argument checks of
      [handleUIScanCommand];
    - the report helpers: [formatDuration], [formatResultSummary],
      [saveToCSV];
    - the service detectors and [isHostAlive];
    - the web front end: the handler of [/scan] and the two variables it
      shares with the goroutine of a scan.

    Go's [int] is a 64-bit signed integer: it is modelled as [Z], and the
    places where the code does arithmetic on it go through [wrap64].  A Go
    [string] is a sequence of bytes: it is modelled as Stdlib's [string],
    whose characters are 8-bit. *)

From Stdlib Require Import ZArith Lia Ascii String DecimalString Sorted.
From stdpp Require Import base list strings gmap.

Local Open Scope Z_scope.

(** ** Machine integers *)

Module GoInt.

Definition min_int : Z := - 2 ^ 63.
Definition max_int : Z := 2 ^ 63 - 1.

(** Two's complement wrap-around of a 64-bit signed integer. *)
Definition wrap64 (z : Z) : Z := (z + 2 ^ 63) mod 2 ^ 64 - 2 ^ 63.

Definition in_range (z : Z) : Prop := min_int <= z <= max_int.

(** [func min(a, b int) int] of scanner.go. *)
Definition min (a b : Z) : Z := if a <? b then a else b.

End GoInt.

(** ** Byte strings and the functions of package [strings] the code calls *)

Module GoString.

Definition LF : ascii := "010"%char. (* line feed *)
Definition CR : ascii := "013"%char. (* carriage return *)
Definition CRLF : string := String CR (String LF EmptyString).

(** [len(s)] *)
Definition len (s : string) : Z := Z.of_nat (String.length s).

(** [s[:n]], for [n] at most [len(s)]. *)
Fixpoint take (n : nat) (s : string) : string :=
  match n, s with
  | S k, String c t => String c (take k t)
  | _, _ => EmptyString
  end.

(** [strings.ReplaceAll(s, old, new)] for a non-empty [old]: the
    occurrences of [old] are found from left to right and do not
    overlap.  [skip] counts the bytes of a matched [old] still to drop. *)
Fixpoint replaceFrom (old new : string) (skip : nat) (s : string) : string :=
  match s with
  | EmptyString => EmptyString
  | String c t =>
      match skip with
      | S k => replaceFrom old new k t
      | O =>
          if String.prefix old s
          then new +:+ replaceFrom old new (String.length old - 1) t
          else String c (replaceFrom old new 0 t)
      end
  end.

Definition ReplaceAll (s old new : string) : string := replaceFrom old new 0 s.

(** [strings.Split(s, sep)] for a non-empty [sep]; [cur] is the piece
    being read. *)
Fixpoint splitFrom (sep : string) (skip : nat) (cur s : string) : list string :=
  match s with
  | EmptyString => [cur]
  | String c t =>
      match skip with
      | S k => splitFrom sep k cur t
      | O =>
          if String.prefix sep s
          then cur :: splitFrom sep (String.length sep - 1) EmptyString t
          else splitFrom sep 0 (cur +:+ String c EmptyString) t
      end
  end.

Definition Split (s sep : string) : list string := splitFrom sep 0 EmptyString s.

(** A byte occurs in a string. *)
Fixpoint occurs (c : ascii) (s : string) : Prop :=
  match s with
  | EmptyString => False
  | String d t => c = d \/ occurs c t
  end.

(** The clean-up of a banner in the spec's words: every line break, the
    pair CR LF or a lone LF, becomes one space.  It is compared below with
    the two calls of [ReplaceAll] the code makes. *)
Fixpoint lineBreaksToSpaces (s : string) : string :=
  match s with
  | EmptyString => EmptyString
  | String c t =>
      if Ascii.eqb c LF then String " " (lineBreaksToSpaces t)
      else
        match t with
        | String d t' =>
            if Ascii.eqb c CR && Ascii.eqb d LF
            then String " " (lineBreaksToSpaces t')
            else String c (lineBreaksToSpaces t)
        | EmptyString => String c EmptyString
        end
  end.

End GoString.

(** ** Package [strconv] *)

Module Strconv.

Definition is_digit (c : ascii) : bool :=
  let n := nat_of_ascii c in ((48 <=? n) && (n <=? 57))%nat.

Definition digit_val (c : ascii) : Z := Z.of_nat (nat_of_ascii c) - 48.

(** The value of a run of decimal digits, [None] on any other byte. *)
Fixpoint digits (acc : Z) (s : string) : option Z :=
  match s with
  | EmptyString => Some acc
  | String c t => if is_digit c then digits (10 * acc + digit_val c) t else None
  end.

(** [strconv.Atoi]: an optional sign, then at least one decimal digit and
    nothing else; a value outside the 64-bit range is an error. *)
Definition Atoi (s : string) : option Z :=
  let signed (neg : bool) (body : string) : option Z :=
    match body with
    | EmptyString => None
    | _ =>
        match digits 0 body with
        | Some n =>
            let v := if neg then - n else n in
            if (GoInt.min_int <=? v) && (v <=? GoInt.max_int) then Some v else None
        | None => None
        end
    end in
  match s with
  | EmptyString => None
  | String c t =>
      if Ascii.eqb c "-"%char then signed true t
      else if Ascii.eqb c "+"%char then signed false t
      else signed false s
  end.

(** [strconv.Itoa]: the decimal form, with a leading minus sign for a
    negative value. *)
Definition Itoa (i : Z) : string := NilZero.string_of_int (Z.to_int i).

End Strconv.

(** ** The detection helpers *)

(** [var commonPorts = map[int]string{...}] *)
Definition commonPorts : gmap Z string :=
  list_to_map
    [ (20, "FTP Data"); (21, "FTP Control"); (22, "SSH"); (23, "Telnet");
      (25, "SMTP"); (53, "DNS"); (80, "HTTP"); (110, "POP3"); (115, "SFTP");
      (143, "IMAP"); (194, "IRC"); (443, "HTTPS"); (445, "SMB");
      (1433, "MSSQL"); (3306, "MySQL"); (3389, "RDP"); (5432, "PostgreSQL");
      (5900, "VNC"); (8080, "HTTP-Alt"); (27017, "MongoDB") ].

Definition getServiceName (port : Z) : string :=
  match commonPorts !! port with
  | Some service => service
  | None => "Unknown"
  end.

(** The closure [contains] of [guessOS]. *)
Fixpoint contains (ports : list Z) (port : Z) : bool :=
  match ports with
  | [] => false
  | p :: rest => if p =? port then true else contains rest port
  end.

Definition guessOS (openPorts : list Z) : string :=
  let hasPort445 := contains openPorts 445 in
  let hasPort3389 := contains openPorts 3389 in
  let hasPort135 := contains openPorts 135 in
  let hasPort22 := contains openPorts 22 in
  let hasPort111 := contains openPorts 111 in
  let hasPort80 := contains openPorts 80 in
  let hasPort443 := contains openPorts 443 in
  if hasPort445 || hasPort3389 || hasPort135 then "Likely Windows"
  else if hasPort22 && hasPort111 then "Likely Linux/Unix"
  else if hasPort22 && negb hasPort445 then "Likely Linux/Unix or Network Device"
  else if (hasPort80 || hasPort443) && negb hasPort22 && negb hasPort445
       then "Likely Network Device or Appliance"
  else "Unknown OS".


(** ** [grabBanner] and the connectivity probe *)

(** What the code observes of an [error] returned by the network: whether
    the type assertion [err.(net.Error)] succeeds, what [Timeout()] answers,
    and what [errors.Is] answers for the two context errors. *)
Record NetError := mkNetError {
  is_net_error : bool;
  net_timeout : bool;
  is_canceled : bool;
  is_deadline_exceeded : bool
}.

(** The result of [d.DialContext(ctx, "tcp", address)]. *)
Inductive DialResult :=
| DialOK
| DialFail (err : NetError).

(** [isPortOpen(ctx, host, port, timeout)].  The four arguments only feed
    the dial, whose result [dial] is the network's choice. *)
Definition isPortOpen (dial : DialResult) : bool * option NetError :=
  match dial with
  | DialFail err =>
      if is_net_error err && net_timeout err then (false, None)
      else if is_canceled err || is_deadline_exceeded err then (false, Some err)
      else (false, None)
  | DialOK => (true, None)
  end.

(** [isHostAlive]: the four probed ports, in order, with the network's
    answer for each. *)
Definition isHostAlive (dial : Z -> DialResult) : bool :=
  existsb (fun port => fst (isPortOpen (dial port))) [80; 443; 22; 3389].

(** What the network does during one call of [grabBanner]: the dial, the
    call of [SetDeadline], the write of the request (made for ports 80 and
    8080 only) and the single [Read]. *)
Record BannerIO := mkBannerIO {
  bio_dial : DialResult;
  bio_deadline : option NetError;
  bio_write : option NetError;
  bio_read : NetError + string
}.

Definition grabBanner (io : BannerIO) (port : Z) : string * option NetError :=
  match bio_dial io with
  | DialFail err => ("", Some err)
  | DialOK =>
      match bio_deadline io with
      | Some err => ("", Some err)
      | None =>
          match (if (port =? 80) || (port =? 8080) then bio_write io else None) with
          | Some err => ("", Some err)
          | None =>
              match bio_read io with
              | inl err => ("", Some err)
              | inr received =>
                  (* buffer := make([]byte, 1024); banner := string(buffer[:n]) *)
                  let banner := GoString.take 1024 received in
                  let banner := GoString.ReplaceAll banner GoString.CRLF " " in
                  let banner :=
                    GoString.ReplaceAll banner (String GoString.LF EmptyString) " " in
                  let banner :=
                    if 100 <? GoString.len banner
                    then GoString.take 100 banner +:+ "..."
                    else banner in
                  (banner, None)
              end
          end
      end
  end.

(** ** [expandIPRange] *)

(** The loop [for i := startOctet; i <= endOctet; i++]. *)
Fixpoint ipLoop (fuel : nat) (baseIP : string) (i endOctet : Z) (ips : list string)
  : option (list string) :=
  match fuel with
  | O => None
  | S fuel' =>
      if i <=? endOctet
      then ipLoop fuel' baseIP (GoInt.wrap64 (i + 1)) endOctet
                  (ips ++ [baseIP +:+ Strconv.Itoa i])
      else Some ips
  end.

Section ExpandIPRange.

(** [strings.TrimSpace] is left open: nothing proved below depends on which
    bytes it removes. *)
Variable TrimSpace : string -> string.

(** The result is [None] when the loop has not finished within [fuel]
    iterations, and the pair [(ips, err)] the Go function returns
    otherwise. *)
Definition expandIPRange (fuel : nat) (ipRange : string)
  : option (list string * option string) :=
  match GoString.Split ipRange "-" with
  | [part0; part1] =>
      let startIP := TrimSpace part0 in
      let endIP := TrimSpace part1 in
      match GoString.Split startIP "." with
      | [s0; s1; s2; s3] =>
          match GoString.Split endIP "." with
          | [e0; e1; e2; e3] =>
              match Strconv.Atoi s3 with
              | None => Some ([], Some "invalid start IP address")
              | Some startOctet =>
                  match Strconv.Atoi e3 with
                  | None => Some ([], Some "invalid end IP address")
                  | Some endOctet =>
                      if negb (String.eqb s0 e0) || negb (String.eqb s1 e1)
                         || negb (String.eqb s2 e2)
                      then Some ([], Some "IP range must be in the same /24 subnet")
                      else if endOctet <? startOctet
                      then Some ([], Some "start IP must be less than or equal to end IP")
                      else
                        let baseIP := s0 +:+ "." +:+ s1 +:+ "." +:+ s2 +:+ "." in
                        match ipLoop fuel baseIP startOctet endOctet [] with
                        | Some ips => Some (ips, None)
                        | None => None
                        end
                  end
              end
          | _ => Some ([], Some "invalid end IP address")
          end
      | _ => Some ([], Some "invalid start IP address")
      end
  | _ => Some ([], Some "invalid IP range format (use: 192.168.1.1-192.168.1.10)")
  end.

End ExpandIPRange.

(** A [TrimSpace] for running examples: it removes the ASCII white space
    (tab, line feed, vertical tab, form feed, carriage return, space). *)
Definition is_ascii_space (c : ascii) : bool :=
  let n := nat_of_ascii c in (((9 <=? n) && (n <=? 13)) || (n =? 32))%nat.

Fixpoint trimLeft (s : string) : string :=
  match s with
  | String c t => if is_ascii_space c then trimLeft t else s
  | EmptyString => EmptyString
  end.

Fixpoint trimRight (s : string) : string :=
  match s with
  | String c t =>
      match trimRight t with
      | EmptyString => if is_ascii_space c then EmptyString else String c EmptyString
      | t' => String c t'
      end
  | EmptyString => EmptyString
  end.

Definition asciiTrimSpace (s : string) : string := trimRight (trimLeft s).

(** ** The scanner and its options *)

(** [context.Context]: the background context, or a context derived from it
    that its owner can cancel or that carries a deadline. *)
Inductive Context :=
| Background
| Derived (id : nat).

(** [ctx.Err()] once the context is done. *)
Inductive CtxErr :=
| Canceled
| DeadlineExceeded.

Module Time.
(** [time.Duration] counts nanoseconds in an [int64]. *)
Definition Nanosecond : Z := 1.
Definition Millisecond : Z := 1000000.
Definition Second : Z := 1000000000.
End Time.

Record Scanner := mkScanner {
  target : string;
  startPort : Z;
  endPort : Z;
  threads : Z;
  timeout : Z;
  showProgress : bool;
  ctx : Context
}.

(** [ScannerOption], a function on a pointer to the scanner: the update of
    the scanner the option is applied to. *)
Definition ScannerOption : Type := Scanner -> Scanner.

Definition WithTarget (target' : string) : ScannerOption := fun s =>
  mkScanner target' (startPort s) (endPort s) (threads s) (timeout s)
            (showProgress s) (ctx s).

Definition WithPortRange (start end_ : Z) : ScannerOption := fun s =>
  mkScanner (target s) start end_ (threads s) (timeout s) (showProgress s) (ctx s).

Definition WithThreads (n : Z) : ScannerOption := fun s =>
  mkScanner (target s) (startPort s) (endPort s) n (timeout s) (showProgress s) (ctx s).

Definition WithTimeout (d : Z) : ScannerOption := fun s =>
  mkScanner (target s) (startPort s) (endPort s) (threads s) d (showProgress s) (ctx s).

Definition WithProgress (show : bool) : ScannerOption := fun s =>
  mkScanner (target s) (startPort s) (endPort s) (threads s) (timeout s) show (ctx s).

Definition WithContext (ctx' : Context) : ScannerOption := fun s =>
  mkScanner (target s) (startPort s) (endPort s) (threads s) (timeout s)
            (showProgress s) ctx'.

Definition defaultScanner : Scanner :=
  {| target := "localhost";
     startPort := 1;
     endPort := 1024;
     threads := 100;
     timeout := Time.Second;
     showProgress := true;
     ctx := Background |}.

Definition NewScanner (options : list ScannerOption) : Scanner :=
  foldl (fun s option => option s) defaultScanner options.

(** ** The argument checks of [handleUIScanCommand] *)

(** How the command ends before the scan: the usage line, a rejected
    argument, or the scanner on which [Scan] is then called. *)
Inductive UIOutcome :=
| UIUsage
| UIRejected (message : string)
| UIScan (scanner : Scanner).

Definition argOr (args : list string) (position : nat) (default : Z) : Z :=
  if (S position <=? length args)%nat
  then match Strconv.Atoi (nth position args EmptyString) with
       | Some v => v
       | None => default
       end
  else default.

(** The part of [handleUIScanCommand] under [// Validate inputs], down to
    the call of [NewScanner]; the context is the one [context.WithCancel]
    makes. *)
Definition validateAndScan (host : string) (startPort endPort threads timeout : Z)
  : UIOutcome :=
  if (startPort <? 1) || (65535 <? startPort)
  then UIRejected "Start port must be between 1 and 65535"
  else if (endPort <? 1) || (65535 <? endPort) || (endPort <? startPort)
  then UIRejected "End port must be between start port and 65535"
  else UIScan (NewScanner
                 [ WithTarget host;
                   WithPortRange startPort endPort;
                   WithThreads threads;
                   WithTimeout (GoInt.wrap64 (timeout * Time.Millisecond));
                   WithProgress true;
                   WithContext (Derived 0) ]).

Definition handleUIScanCommand (args : list string) : UIOutcome :=
  if (length args <? 2)%nat then UIUsage
  else
    let host := nth 1 args EmptyString in
    let startPort := argOr args 2 1 in
    let endPort := argOr args 3 1000 in
    let threads := argOr args 4 100 in
    let timeout := argOr args 5 500 in
    validateAndScan host startPort endPort threads timeout.

(** [handleUIRangeCommand]: the scanner it makes for a host of the range
    that is alive.  The ports and the thread count are parsed as above and
    passed on as they are. *)
Definition rangeCommandScanner (args : list string) (host : string) : Scanner :=
  NewScanner
    [ WithTarget host;
      WithPortRange (argOr args 2 1) (argOr args 3 100);
      WithThreads (argOr args 4 100);
      WithTimeout (GoInt.wrap64 (500 * Time.Millisecond));
      WithProgress true;
      WithContext (Derived 0) ].

(** ** [Scan]: the pipeline as a transition system

    [Scan] starts [threads] workers, a goroutine that closes [results] and
    [done] once the wait group is at zero, and a feeder; the calling
    goroutine then collects the results.  Each goroutine is a program
    counter; a step of the system is a step of one goroutine, chosen by a
    [Label], which also carries what the network answers.  A [select] with
    several ready cases may take any of them: each case has its label. *)

(** A channel of [int]: what its buffer holds, its capacity, and whether
    it is closed. *)
Record Chan := mkChan {
  buf : list Z;
  cap : Z;
  closed : bool
}.

(** [ch <- v] into the buffer: possible when the buffer has room.  A channel
    of capacity zero has no buffer: a send on it is a hand-over to a
    goroutine waiting to receive, a step of its own below. *)
Definition chan_send (ch : Chan) (v : Z) : option Chan :=
  if Z.of_nat (length (buf ch)) <? cap ch
  then Some (mkChan (buf ch ++ [v]) (cap ch) (closed ch))
  else None.

Inductive Recv :=
| RecvValue (v : Z) (ch' : Chan)
| RecvClosed
| RecvBlocked.

(** [v, ok := <-ch]: buffered values first, then [ok = false] once closed. *)
Definition chan_recv (ch : Chan) : Recv :=
  match buf ch with
  | v :: rest => RecvValue v (mkChan rest (cap ch) (closed ch))
  | [] => if closed ch then RecvClosed else RecvBlocked
  end.

Definition chan_close (ch : Chan) : Chan := mkChan (buf ch) (cap ch) true.

(** A worker: at the outer [select], holding a port it is about to probe,
    holding an open port at the inner [select], or returned (its deferred
    [wg.Done()] has run). *)
Inductive WorkerPC :=
| WSelect
| WProbe (port : Z)
| WSend (port : Z)
| WExited.

(** The feeder: at the head of its loop with the loop variable [port], or
    returned (its deferred [close(ports)] has run). *)
Inductive FeederPC :=
| FNotStarted
| FLoop (port : Z)
| FExited.

(** The goroutine [wg.Wait(); close(results); close(done)]. *)
Inductive BarrierPC :=
| BNotStarted
| BWait
| BCloseDone
| BExited.

(** [displayProgress]: only its receive on [progressDone] matters here. *)
Inductive ProgressPC :=
| PNotStarted
| PRunning
| PExited.

(** The error [Scan] returns: ["scan cancelled: %w"] around [ctx.Err()]. *)
Inductive ScanErr :=
| ScanCancelled (cause : CtxErr).

(** The goroutine that called [Scan]. *)
Inductive MainPC :=
| MStart
| MSpawnWorkers (i : Z)
| MSpawnBarrier
| MSpawnFeeder
| MCollect
| MBanner (port : Z)
| MWaitDone
| MStopProgress
| MFinalSelect
| MReturned (result : list Z) (err : option ScanErr)
| MPanicked.

(** A line printed by the collecting loop. *)
Inductive Output :=
| PortIsOpen (port : Z) (service banner : string).

Record State := mkState {
  mainpc : MainPC;
  workers : list WorkerPC;
  feeder : FeederPC;
  barrier : BarrierPC;
  progress : ProgressPC;
  wg : Z;
  portsCh : Chan;
  resultsCh : Chan;
  doneClosed : bool;
  ctxDone : option CtxErr;
  openPorts : list Z;
  (* history, not read by the code: *)
  probed : list Z;     (* the ports passed to isPortOpen *)
  bannerCalls : list Z; (* the ports passed to grabBanner by Scan *)
  stdout : list Output
}.

Definition init : State :=
  {| mainpc := MStart; workers := []; feeder := FNotStarted;
     barrier := BNotStarted; progress := PNotStarted; wg := 0;
     portsCh := mkChan [] 0 false; resultsCh := mkChan [] 0 false;
     doneClosed := false; ctxDone := None; openPorts := [];
     probed := []; bannerCalls := []; stdout := [] |}.

Definition set_mainpc (pc : MainPC) (s : State) : State :=
  mkState pc (workers s) (feeder s) (barrier s) (progress s) (wg s) (portsCh s)
          (resultsCh s) (doneClosed s) (ctxDone s) (openPorts s) (probed s)
          (bannerCalls s) (stdout s).

Definition set_worker (i : nat) (pc : WorkerPC) (s : State) : State :=
  mkState (mainpc s) (<[i:=pc]> (workers s)) (feeder s) (barrier s) (progress s)
          (wg s) (portsCh s) (resultsCh s) (doneClosed s) (ctxDone s)
          (openPorts s) (probed s) (bannerCalls s) (stdout s).

Definition set_wg (n : Z) (s : State) : State :=
  mkState (mainpc s) (workers s) (feeder s) (barrier s) (progress s) n (portsCh s)
          (resultsCh s) (doneClosed s) (ctxDone s) (openPorts s) (probed s)
          (bannerCalls s) (stdout s).

Definition set_portsCh (ch : Chan) (s : State) : State :=
  mkState (mainpc s) (workers s) (feeder s) (barrier s) (progress s) (wg s) ch
          (resultsCh s) (doneClosed s) (ctxDone s) (openPorts s) (probed s)
          (bannerCalls s) (stdout s).

Definition set_resultsCh (ch : Chan) (s : State) : State :=
  mkState (mainpc s) (workers s) (feeder s) (barrier s) (progress s) (wg s)
          (portsCh s) ch (doneClosed s) (ctxDone s) (openPorts s) (probed s)
          (bannerCalls s) (stdout s).

Definition set_feeder (pc : FeederPC) (s : State) : State :=
  mkState (mainpc s) (workers s) pc (barrier s) (progress s) (wg s) (portsCh s)
          (resultsCh s) (doneClosed s) (ctxDone s) (openPorts s) (probed s)
          (bannerCalls s) (stdout s).

Definition set_barrier (pc : BarrierPC) (s : State) : State :=
  mkState (mainpc s) (workers s) (feeder s) pc (progress s) (wg s) (portsCh s)
          (resultsCh s) (doneClosed s) (ctxDone s) (openPorts s) (probed s)
          (bannerCalls s) (stdout s).

Definition set_progress (pc : ProgressPC) (s : State) : State :=
  mkState (mainpc s) (workers s) (feeder s) (barrier s) pc (wg s) (portsCh s)
          (resultsCh s) (doneClosed s) (ctxDone s) (openPorts s) (probed s)
          (bannerCalls s) (stdout s).

Definition set_doneClosed (b : bool) (s : State) : State :=
  mkState (mainpc s) (workers s) (feeder s) (barrier s) (progress s) (wg s)
          (portsCh s) (resultsCh s) b (ctxDone s) (openPorts s) (probed s)
          (bannerCalls s) (stdout s).

Definition set_ctxDone (e : option CtxErr) (s : State) : State :=
  mkState (mainpc s) (workers s) (feeder s) (barrier s) (progress s) (wg s)
          (portsCh s) (resultsCh s) (doneClosed s) e (openPorts s) (probed s)
          (bannerCalls s) (stdout s).

(** [portCount := s.endPort - s.startPort + 1] and the size
    [min(portCount, 1000)] of both channels. *)
Definition portCount (sc : Scanner) : Z := GoInt.wrap64 (endPort sc - startPort sc + 1).
Definition chanSize (sc : Scanner) : Z := GoInt.min (portCount sc) 1000.

(** The channels are made and, when asked for, [displayProgress] is
    started. *)
Definition start_step (sc : Scanner) (s : State) : State :=
  set_mainpc (MSpawnWorkers 0)
    (set_progress (if showProgress sc then PRunning else progress s)
       (set_portsCh (mkChan [] (chanSize sc) false)
          (set_resultsCh (mkChan [] (chanSize sc) false) s))).

(** One turn of the loop that starts the workers:
    [wg.Add(1); go func() {...}(); i++]. *)
Definition spawn_worker_step (i : Z) (s : State) : State :=
  mkState (MSpawnWorkers (GoInt.wrap64 (i + 1))) (workers s ++ [WSelect])
          (feeder s) (barrier s) (progress s) (wg s + 1) (portsCh s)
          (resultsCh s) (doneClosed s) (ctxDone s) (openPorts s) (probed s)
          (bannerCalls s) (stdout s).

(** [for port := range results { openPorts = append(openPorts, port) ...] *)
Definition collect_step (port : Z) (ch' : Chan) (s : State) : State :=
  mkState (MBanner port) (workers s) (feeder s) (barrier s) (progress s) (wg s)
          (portsCh s) ch' (doneClosed s) (ctxDone s) (openPorts s ++ [port])
          (probed s) (bannerCalls s) (stdout s).

(** The rest of the body of the collecting loop: [getServiceName],
    [grabBanner] and the [Printf]. *)
Definition banner_step (io : BannerIO) (port : Z) (s : State) : State :=
  let service := getServiceName port in
  let banner := fst (grabBanner io port) in
  mkState MCollect (workers s) (feeder s) (barrier s) (progress s) (wg s)
          (portsCh s) (resultsCh s) (doneClosed s) (ctxDone s) (openPorts s)
          (probed s) (bannerCalls s ++ [port])
          (stdout s ++ [PortIsOpen port service banner]).

(** [return openPorts, err] *)
Definition return_step (err : option ScanErr) (s : State) : State :=
  set_mainpc (MReturned (openPorts s) err) s.

(** A worker returns: [defer wg.Done()]. *)
Definition worker_exit (i : nat) (s : State) : State :=
  set_wg (wg s - 1) (set_worker i WExited s).

(** A worker calls [isPortOpen] on the port it holds: where it goes next. *)
Definition probe_next (dial : DialResult) (port : Z) : WorkerPC :=
  let '(isOpen, err) := isPortOpen dial in
  match err with
  | Some _ => WSelect (* continue *)
  | None => if isOpen then WSend port else WSelect
  end.

Definition probe_step (i : nat) (dial : DialResult) (port : Z) (s : State) : State :=
  mkState (mainpc s) (<[i:=probe_next dial port]> (workers s)) (feeder s) (barrier s)
          (progress s) (wg s) (portsCh s) (resultsCh s) (doneClosed s) (ctxDone s)
          (openPorts s) (probed s ++ [port]) (bannerCalls s) (stdout s).

(** The feeder returns: [defer close(ports)]. *)
Definition feeder_exit (s : State) : State :=
  set_portsCh (chan_close (portsCh s)) (set_feeder FExited s).

(** One step of the goroutine that called [Scan], but for the call of
    [grabBanner]. *)
Definition main_step (sc : Scanner) (s : State) : option State :=
  match mainpc s with
  | MStart =>
      if chanSize sc <? 0
      then Some (set_mainpc MPanicked s) (* makechan: size out of range *)
      else Some (start_step sc s)
  | MSpawnWorkers i =>
      if i <? threads sc
      then Some (spawn_worker_step i s)
      else Some (set_mainpc MSpawnBarrier s)
  | MSpawnBarrier => Some (set_mainpc MSpawnFeeder (set_barrier BWait s))
  | MSpawnFeeder => Some (set_mainpc MCollect (set_feeder (FLoop (startPort sc)) s))
  | MCollect =>
      match chan_recv (resultsCh s) with
      | RecvValue port ch' => Some (collect_step port ch' s)
      | RecvClosed => Some (set_mainpc MWaitDone s)
      | RecvBlocked => None
      end
  | MBanner _ => None
  | MWaitDone => if doneClosed s then Some (set_mainpc MStopProgress s) else None
  | MStopProgress =>
      if showProgress sc
      then
        (* progressDone <- true, received by displayProgress *)
        match progress s with
        | PRunning => Some (set_mainpc MFinalSelect (set_progress PExited s))
        | _ => None
        end
      else Some (set_mainpc MFinalSelect s)
  | MFinalSelect =>
      match ctxDone s with
      | Some cause => Some (return_step (Some (ScanCancelled cause)) s)
      | None => Some (return_step None s)
      end
  | MReturned _ _ => None
  | MPanicked => None
  end.

Inductive Label :=
| LMain                                   (* the caller of Scan, but for grabBanner *)
| LGrabBanner (io : BannerIO)             (* the caller of Scan calls grabBanner *)
| LWorkerCancel (i : nat)                 (* worker i takes a case <-s.ctx.Done() *)
| LWorkerRecv (i : nat)                   (* worker i takes the case <-ports *)
| LWorkerProbe (i : nat) (dial : DialResult)
| LWorkerSend (i : nat)                   (* worker i takes the case results <- port *)
| LFeederCancel                           (* the feeder takes the case <-s.ctx.Done() *)
| LFeederNext                             (* the feeder sends, or leaves its loop *)
| LFeederHandOver (i : nat)               (* unbuffered ports: feeder to worker i *)
| LWorkerHandOver (i : nat)               (* unbuffered results: worker i to the caller *)
| LBarrier
| LCancel (cause : CtxErr).               (* the owner of the context ends it *)

(** One step of the system.  [None]: the goroutine cannot take that step in
    that state.  After a panic of the calling goroutine nothing runs. *)
Definition exec (sc : Scanner) (l : Label) (s : State) : option State :=
  match mainpc s with
  | MPanicked => None
  | _ =>
      match l with
      | LMain => main_step sc s
      | LGrabBanner io =>
          match mainpc s with
          | MBanner port => Some (banner_step io port s)
          | _ => None
          end
      | LWorkerCancel i =>
          match ctxDone s, workers s !! i with
          | Some _, Some WSelect => Some (worker_exit i s)
          | Some _, Some (WSend _) => Some (worker_exit i s)
          | _, _ => None
          end
      | LWorkerRecv i =>
          match workers s !! i with
          | Some WSelect =>
              match chan_recv (portsCh s) with
              | RecvValue port ch' => Some (set_portsCh ch' (set_worker i (WProbe port) s))
              | RecvClosed => Some (worker_exit i s)
              | RecvBlocked => None
              end
          | _ => None
          end
      | LWorkerProbe i dial =>
          match workers s !! i with
          | Some (WProbe port) => Some (probe_step i dial port s)
          | _ => None
          end
      | LWorkerSend i =>
          match workers s !! i with
          | Some (WSend port) =>
              match chan_send (resultsCh s) port with
              | Some ch' => Some (set_resultsCh ch' (set_worker i WSelect s))
              | None => None
              end
          | _ => None
          end
      | LFeederCancel =>
          match feeder s, ctxDone s with
          | FLoop port, Some _ => if port <=? endPort sc then Some (feeder_exit s) else None
          | _, _ => None
          end
      | LFeederNext =>
          match feeder s with
          | FLoop port =>
              if port <=? endPort sc
              then
                match chan_send (portsCh s) port with
                | Some ch' =>
                    Some (set_portsCh ch' (set_feeder (FLoop (GoInt.wrap64 (port + 1))) s))
                | None => None
                end
              else Some (feeder_exit s)
          | _ => None
          end
      | LFeederHandOver i =>
          match feeder s, workers s !! i with
          | FLoop port, Some WSelect =>
              if (port <=? endPort sc) && (cap (portsCh s) =? 0)
              then Some (set_feeder (FLoop (GoInt.wrap64 (port + 1)))
                           (set_worker i (WProbe port) s))
              else None
          | _, _ => None
          end
      | LWorkerHandOver i =>
          match workers s !! i, mainpc s with
          | Some (WSend port), MCollect =>
              if cap (resultsCh s) =? 0
              then Some (collect_step port (resultsCh s) (set_worker i WSelect s))
              else None
          | _, _ => None
          end
      | LBarrier =>
          match barrier s with
          | BWait =>
              if wg s =? 0
              then Some (set_resultsCh (chan_close (resultsCh s)) (set_barrier BCloseDone s))
              else None
          | BCloseDone => Some (set_doneClosed true (set_barrier BExited s))
          | _ => None
          end
      | LCancel cause =>
          match ctx sc, ctxDone s with
          | Derived _, None => Some (set_ctxDone (Some cause) s)
          | _, _ => None
          end
      end
  end.

(** A run: the labels of a schedule taken one after the other. *)
Fixpoint run (sc : Scanner) (schedule : list Label) (s : State) : option State :=
  match schedule with
  | [] => Some s
  | l :: rest =>
      match exec sc l s with
      | Some s' => run sc rest s'
      | None => None
      end
  end.

Inductive reachable (sc : Scanner) : State -> Prop :=
| reachable_init : reachable sc init
| reachable_step s l s' : reachable sc s -> exec sc l s = Some s' -> reachable sc s'.

(** [Scan] has returned. *)
Definition returned (s : State) : Prop :=
  match mainpc s with
  | MReturned _ _ => True
  | _ => False
  end.

(** [Scan] can return [(result, err)]: some run of the system from its
    initial state ends with the caller returning this pair. *)
Definition Scan (sc : Scanner) (result : list Z) (err : option ScanErr) : Prop :=
  exists schedule s,
    run sc schedule init = Some s /\ mainpc s = MReturned result err.

(** ** The caller in the web front end

    After [Scan] has returned without error the handler calls [grabBanner]
    for each returned port and stores the port with its service name and
    banner; after a cancelled scan it stores no port. *)
Record PortInfo := mkPortInfo {
  Port : Z;
  Service : string;
  Banner : string
}.

Definition webPortInfos (io : Z -> BannerIO) (openPorts : list Z) (err : option ScanErr)
  : list PortInfo :=
  match err with
  | None =>
      (fun port => mkPortInfo port (getServiceName port) (fst (grabBanner (io port) port)))
        <$> openPorts
  | Some _ => []
  end.

(** The same steps as a relation, one constructor per transition. *)
Inductive step (sc : Scanner) (s : State) : State -> Prop :=
| step_panic :
    mainpc s = MStart -> chanSize sc < 0 ->
    step sc s (set_mainpc MPanicked s)
| step_start :
    mainpc s = MStart -> 0 <= chanSize sc ->
    step sc s (start_step sc s)
| step_spawn_worker i :
    mainpc s = MSpawnWorkers i -> i < threads sc ->
    step sc s (spawn_worker_step i s)
| step_spawn_end i :
    mainpc s = MSpawnWorkers i -> threads sc <= i ->
    step sc s (set_mainpc MSpawnBarrier s)
| step_spawn_barrier :
    mainpc s = MSpawnBarrier ->
    step sc s (set_mainpc MSpawnFeeder (set_barrier BWait s))
| step_spawn_feeder :
    mainpc s = MSpawnFeeder ->
    step sc s (set_mainpc MCollect (set_feeder (FLoop (startPort sc)) s))
| step_collect port rest :
    mainpc s = MCollect -> buf (resultsCh s) = port :: rest ->
    step sc s (collect_step port (mkChan rest (cap (resultsCh s)) (closed (resultsCh s))) s)
| step_collect_end :
    mainpc s = MCollect -> buf (resultsCh s) = [] -> closed (resultsCh s) = true ->
    step sc s (set_mainpc MWaitDone s)
| step_banner io port :
    mainpc s = MBanner port ->
    step sc s (banner_step io port s)
| step_wait_done :
    mainpc s = MWaitDone -> doneClosed s = true ->
    step sc s (set_mainpc MStopProgress s)
| step_stop_progress :
    mainpc s = MStopProgress -> showProgress sc = true -> progress s = PRunning ->
    step sc s (set_mainpc MFinalSelect (set_progress PExited s))
| step_no_progress :
    mainpc s = MStopProgress -> showProgress sc = false ->
    step sc s (set_mainpc MFinalSelect s)
| step_return_cancelled cause :
    mainpc s = MFinalSelect -> ctxDone s = Some cause ->
    step sc s (return_step (Some (ScanCancelled cause)) s)
| step_return :
    mainpc s = MFinalSelect -> ctxDone s = None ->
    step sc s (return_step None s)
| step_worker_cancel i w cause :
    mainpc s <> MPanicked ->
    workers s !! i = Some w -> w = WSelect \/ (exists port, w = WSend port) ->
    ctxDone s = Some cause ->
    step sc s (worker_exit i s)
| step_worker_recv i port rest :
    mainpc s <> MPanicked ->
    workers s !! i = Some WSelect -> buf (portsCh s) = port :: rest ->
    step sc s (set_portsCh (mkChan rest (cap (portsCh s)) (closed (portsCh s)))
                 (set_worker i (WProbe port) s))
| step_worker_end i :
    mainpc s <> MPanicked ->
    workers s !! i = Some WSelect -> buf (portsCh s) = [] -> closed (portsCh s) = true ->
    step sc s (worker_exit i s)
| step_worker_probe i dial port :
    mainpc s <> MPanicked ->
    workers s !! i = Some (WProbe port) ->
    step sc s (probe_step i dial port s)
| step_worker_send i port :
    mainpc s <> MPanicked ->
    workers s !! i = Some (WSend port) ->
    Z.of_nat (length (buf (resultsCh s))) < cap (resultsCh s) ->
    step sc s (set_resultsCh
                 (mkChan (buf (resultsCh s) ++ [port]) (cap (resultsCh s))
                         (closed (resultsCh s)))
                 (set_worker i WSelect s))
| step_feeder_cancel port cause :
    mainpc s <> MPanicked ->
    feeder s = FLoop port -> port <= endPort sc -> ctxDone s = Some cause ->
    step sc s (feeder_exit s)
| step_feeder_send port :
    mainpc s <> MPanicked ->
    feeder s = FLoop port -> port <= endPort sc ->
    Z.of_nat (length (buf (portsCh s))) < cap (portsCh s) ->
    step sc s (set_portsCh
                 (mkChan (buf (portsCh s) ++ [port]) (cap (portsCh s))
                         (closed (portsCh s)))
                 (set_feeder (FLoop (GoInt.wrap64 (port + 1))) s))
| step_feeder_hand_over i port :
    mainpc s <> MPanicked ->
    feeder s = FLoop port -> port <= endPort sc -> cap (portsCh s) = 0 ->
    workers s !! i = Some WSelect ->
    step sc s (set_feeder (FLoop (GoInt.wrap64 (port + 1)))
                 (set_worker i (WProbe port) s))
| step_worker_hand_over i port :
    mainpc s = MCollect -> cap (resultsCh s) = 0 ->
    workers s !! i = Some (WSend port) ->
    step sc s (collect_step port (resultsCh s) (set_worker i WSelect s))
| step_feeder_end port :
    mainpc s <> MPanicked ->
    feeder s = FLoop port -> endPort sc < port ->
    step sc s (feeder_exit s)
| step_barrier_close_results :
    mainpc s <> MPanicked ->
    barrier s = BWait -> wg s = 0 ->
    step sc s (set_resultsCh (chan_close (resultsCh s)) (set_barrier BCloseDone s))
| step_barrier_close_done :
    mainpc s <> MPanicked ->
    barrier s = BCloseDone ->
    step sc s (set_doneClosed true (set_barrier BExited s))
| step_cancel cause id :
    mainpc s <> MPanicked ->
    ctx sc = Derived id -> ctxDone s = None ->
    step sc s (set_ctxDone (Some cause) s).

(** ** [time.Duration] *)

Module Duration.

Definition Minute : Z := 60 * Time.Second.
Definition Hour : Z := 60 * Minute.

(** [lessThanHalf(x, y)] of package [time]:
    [uint64(x)+uint64(x) < uint64(y)]. *)
Definition lessThanHalf (x y : Z) : bool :=
  (x mod 2 ^ 64 + x mod 2 ^ 64) mod 2 ^ 64 <? y mod 2 ^ 64.

(** [d.Round(m)], as package [time] computes it: the multiple of [m]
    nearest to [d], a halfway value going away from zero, and the largest
    or smallest duration when the result does not fit.  The sums are taken
    in 64 bits; wrapping once gives what wrapping at each step gives. *)
Definition Round (d m : Z) : Z :=
  if m <=? 0 then d
  else
    let r := Z.rem d m in
    if d <? 0
    then
      let r := GoInt.wrap64 (- r) in
      if lessThanHalf r m then GoInt.wrap64 (d + r)
      else
        let d1 := GoInt.wrap64 (d - m + r) in
        if d1 <? d then d1 else GoInt.min_int
    else
      if lessThanHalf r m then GoInt.wrap64 (d - r)
      else
        let d1 := GoInt.wrap64 (d + m - r) in
        if d <? d1 then d1 else GoInt.max_int.

End Duration.

(** ** The report helpers *)

(** [formatDuration]: [%d] prints a duration as its count. *)
Definition formatDuration (d : Z) : string :=
  let d := Duration.Round d Time.Second in
  let h := Z.quot d Duration.Hour in
  let d := GoInt.wrap64 (d - GoInt.wrap64 (h * Duration.Hour)) in
  let m := Z.quot d Duration.Minute in
  let d := GoInt.wrap64 (d - GoInt.wrap64 (m * Duration.Minute)) in
  let s := Z.quot d Time.Second in
  if 0 <? h
  then Strconv.Itoa h +:+ "h " +:+ Strconv.Itoa m +:+ "m " +:+ Strconv.Itoa s +:+ "s"
  else if 0 <? m
  then Strconv.Itoa m +:+ "m " +:+ Strconv.Itoa s +:+ "s"
  else Strconv.Itoa s +:+ "s".

(** [fmt.Sprintf("%d (%s)", port, service)] *)
Definition portEntry (port : Z) : string :=
  Strconv.Itoa port +:+ " (" +:+ getServiceName port +:+ ")".

(** The loop [for i, port := range openPorts] of [formatResultSummary]. *)
Fixpoint summaryAll (i : nat) (openPorts : list Z) (summary : string) : string :=
  match openPorts with
  | [] => summary
  | port :: rest =>
      let summary := if (0 <? i)%nat then summary +:+ ", " else summary in
      summaryAll (S i) rest (summary +:+ portEntry port)
  end.

(** The loop [for i := 0; i < 5; i++] with [n] turns to go; [None] is the
    panic of [openPorts[i]] on an index out of range. *)
Fixpoint summaryFirst (n i : nat) (openPorts : list Z) (summary : string)
  : option string :=
  match n with
  | O => Some summary
  | S n' =>
      match openPorts !! i with
      | Some port =>
          let summary := if (0 <? i)%nat then summary +:+ ", " else summary in
          summaryFirst n' (S i) openPorts (summary +:+ portEntry port)
      | None => None
      end
  end.

Definition formatResultSummary (host : string) (openPorts : list Z) : option string :=
  let n := length openPorts in
  if (n =? 0)%nat then Some ("No open ports found on " +:+ host)
  else if (n <=? 10)%nat
  then Some (summaryAll 0 openPorts
               (Strconv.Itoa (Z.of_nat n) +:+ " open ports on " +:+ host +:+ ": "))
  else
    match summaryFirst 5 0 openPorts
            (Strconv.Itoa (Z.of_nat n) +:+ " open ports on " +:+ host +:+ " including: ")
    with
    | Some summary => Some (summary +:+ ", ...")
    | None => None
    end.

(** ** [saveToCSV]

    What the file system does during the call: whether [os.Create] fails,
    and whether the call number [n] of [writer.Write] fails, the header
    being call 0. *)
Record CSVIO := mkCSVIO {
  createFails : bool;
  writeFails : nat -> bool
}.

Definition csvHeader : list string := ["Host"; "Port"; "Service"; "Timestamp"].

Definition csvRow (host timestamp : string) (port : Z) : list string :=
  [host; Strconv.Itoa port; getServiceName port; timestamp].

(** [for _, port := range ports]; [written] holds the records written so
    far, so the next call of [Write] is call number [length written]. *)
Fixpoint writePorts (io : CSVIO) (host timestamp : string) (ports : list Z)
    (written : list (list string)) : list (list string) * option string :=
  match ports with
  | [] => (written, None)
  | port :: rest =>
      if writeFails io (length written)
      then (written, Some "error writing CSV row")
      else writePorts io host timestamp rest (written ++ [csvRow host timestamp port])
  end.

(** [for host, ports := range results], the entries of the map in the
    order the iteration visits them. *)
Fixpoint writeHosts (io : CSVIO) (timestamp : string) (results : list (string * list Z))
    (written : list (list string)) : list (list string) * option string :=
  match results with
  | [] => (written, None)
  | (host, ports) :: rest =>
      match writePorts io host timestamp ports written with
      | (written', None) => writeHosts io timestamp rest written'
      | failed => failed
      end
  end.

(** The records passed to the writer with success, and the error
    returned, given by its message before the wrapped error. *)
Definition saveToCSV (io : CSVIO) (timestamp : string) (results : list (string * list Z))
  : list (list string) * option string :=
  if createFails io then ([], Some "error creating CSV file")
  else if writeFails io 0 then ([], Some "error writing CSV header")
  else writeHosts io timestamp results [csvHeader].

(** ** [generateScanReport]

    The map [results] is gone through twice, and Go fixes no order for
    that: [counted] is the order of the loop that counts the ports,
    [listed] the order of the loop that writes the details. [now] is the
    time of the report as [time.RFC1123] formats it, [duration] the time
    since the start. *)
Definition newline : string := String GoString.LF EmptyString.
Definition tab : string := String "009"%char EmptyString.

(** [for _, port := range ports]: a line for each port. *)
Definition portLines (ports : list Z) (report : string) : string :=
  foldl (fun report port =>
           report +:+ (Strconv.Itoa port +:+ tab +:+ getServiceName port +:+ newline))
        report ports.

(** The body of the loop over the hosts. *)
Definition hostBlock (report : string) (entry : string * list Z) : string :=
  let '(host, ports) := entry in
  let report := report +:+ ("Host: " +:+ host +:+ newline) in
  let report :=
    report +:+ ("Open ports: " +:+ Strconv.Itoa (Z.of_nat (length ports)) +:+ newline) in
  let report :=
    if (0 <? length ports)%nat
    then report +:+ ("OS Detection: " +:+ guessOS ports +:+ newline)
    else report in
  let report :=
    if (0 <? length ports)%nat
    then
      let report := report +:+ ("PORT" +:+ tab +:+ "SERVICE" +:+ newline) in
      let report := report +:+ ("----" +:+ tab +:+ "-------" +:+ newline) in
      portLines ports report
    else report +:+ ("No open ports found" +:+ newline) in
  report +:+ newline.

Definition generateScanReport (now : string) (duration : Z)
    (counted listed : list (string * list Z)) : string :=
  let hostCount := Z.of_nat (length counted) in
  let portCount :=
    foldl (fun portCount entry =>
             GoInt.wrap64 (portCount + Z.of_nat (length entry.2))) 0 counted in
  let report := "PORT SCANNER REPORT" +:+ newline in
  let report := report +:+ ("=================" +:+ newline +:+ newline) in
  let report := report +:+ ("Scan completed at: " +:+ now +:+ newline) in
  let report := report +:+ ("Duration: " +:+ formatDuration duration +:+ newline) in
  let report := report +:+ ("Hosts scanned: " +:+ Strconv.Itoa hostCount +:+ newline) in
  let report :=
    report +:+ ("Open ports found: " +:+ Strconv.Itoa portCount +:+ newline +:+ newline) in
  let report := report +:+ ("DETAILED RESULTS" +:+ newline) in
  let report := report +:+ ("----------------" +:+ newline +:+ newline) in
  let report := foldl hostBlock report listed in
  report +:+ ("Scan completed successfully" +:+ newline).

(** ** The service detectors *)

(** [strings.Contains(s, substr)] *)
Fixpoint stringsContains (s substr : string) : bool :=
  String.prefix substr s ||
  match s with
  | EmptyString => false
  | String _ t => stringsContains t substr
  end.

(** [HTTPDetector.Detect] and [SSHDetector.Detect]; [io] is what the network
    does during the call of [grabBanner], made with the background context
    and a timeout of two seconds. *)
Definition HTTPDetector_Detect (io : BannerIO) (port : Z) : string * bool :=
  if port =? 80 then ("HTTP", true)
  else if port =? 443 then ("HTTPS", true)
  else
    match grabBanner io port with
    | (_, Some _) => ("", false)
    | (banner, None) =>
        if stringsContains banner "HTTP" then ("HTTP", true) else ("", false)
    end.

Definition SSHDetector_Detect (io : BannerIO) (port : Z) : string * bool :=
  if port =? 22 then ("SSH", true)
  else
    match grabBanner io port with
    | (_, Some _) => ("", false)
    | (banner, None) =>
        if stringsContains banner "SSH" then ("SSH", true) else ("", false)
    end.

(** ** The web front end: the handler of [/scan]

    What the handler reads of a request: its method, whether [ParseForm]
    fails, and the form, where [FormValue] finds the first value of a key
    and the empty string for a key that is absent. *)
Record Request := mkRequest {
  Method : string;
  parseFails : bool;
  Form : gmap string string
}.

Definition FormValue (r : Request) (key : string) : string :=
  match Form r !! key with
  | Some v => v
  | None => ""
  end.

(** The four numbers of the form, each replaced by a default when it does
    not parse or is out of bounds. *)
Definition webStartPort (r : Request) : Z :=
  match Strconv.Atoi (FormValue r "start") with
  | Some startPort => if (startPort <? 1) || (65535 <? startPort) then 1 else startPort
  | None => 1
  end.

Definition webEndPort (r : Request) : Z :=
  let startPort := webStartPort r in
  let fallback :=
    let endPort := GoInt.wrap64 (startPort + 1000) in
    if 65535 <? endPort then 65535 else endPort in
  match Strconv.Atoi (FormValue r "end") with
  | Some endPort =>
      if (endPort <? 1) || (65535 <? endPort) || (endPort <? startPort)
      then fallback else endPort
  | None => fallback
  end.

Definition webTimeout (r : Request) : Z :=
  match Strconv.Atoi (FormValue r "timeout") with
  | Some timeout => if (timeout <? 100) || (10000 <? timeout) then 500 else timeout
  | None => 500
  end.

Definition webThreads (r : Request) : Z :=
  match Strconv.Atoi (FormValue r "threads") with
  | Some threads => if (threads <? 10) || (500 <? threads) then 100 else threads
  | None => 100
  end.

(** The scanner the goroutine of the handler makes; its context is the one
    [context.WithTimeout] makes, done after two minutes at the latest. *)
Definition webScanner (r : Request) : Scanner :=
  NewScanner
    [ WithTarget (FormValue r "host");
      WithPortRange (webStartPort r) (webEndPort r);
      WithThreads (webThreads r);
      WithTimeout (GoInt.wrap64 (webTimeout r * Time.Millisecond));
      WithProgress false;
      WithContext (Derived 0) ].

(** [ScanResult]; the two times are read from the clock. *)
Record ScanResult := mkScanResult {
  Host : string;
  Ports : list PortInfo;
  Timestamp : Z;
  Duration : Z
}.

(** The goroutines of the server that touch [scanInProgress] and
    [scanResults]: a handler of [/scan] before it locks [scanMutex], the
    handler once it has set [scanInProgress], the goroutine it starts for
    the scan, first running [Scan], then about to run its deferred reset
    of [scanInProgress]; and a goroutine that is done, with the status of
    the response for a handler. *)
Inductive WebPC :=
| HStart (r : Request)
| HParse (r : Request)
| HResponded (status : Z)
| GScan (r : Request)
| GReset
| GDone.

Record Server := mkServer {
  scanInProgress : bool;
  scanResults : list ScanResult;
  goroutines : list WebPC
}.

Definition server0 : Server := mkServer false [] [].

Definition StatusAccepted : Z := 202.
Definition StatusBadRequest : Z := 400.
Definition StatusMethodNotAllowed : Z := 405.
Definition StatusConflict : Z := 409.

(** What happens in the server: a request for [/scan] arrives; goroutine [i]
    takes its next step, which for the goroutine of a scan is the whole
    scan, given by a run of [Scan], the banners the network then gives and
    the two clock readings; a [POST] to [/clear] is served. *)
Inductive WebLabel :=
| WArrive (r : Request)
| WHandler (i : nat)
| WScanned (i : nat) (schedule : list Label) (io : Z -> BannerIO) (now elapsed : Z)
| WReset (i : nat)
| WClear.

Definition set_goroutine (i : nat) (pc : WebPC) (sv : Server) : Server :=
  mkServer (scanInProgress sv) (scanResults sv) (<[i:=pc]> (goroutines sv)).

Definition set_flag (b : bool) (sv : Server) : Server :=
  mkServer b (scanResults sv) (goroutines sv).

Definition webExec (l : WebLabel) (sv : Server) : option Server :=
  match l with
  | WArrive r => Some (mkServer (scanInProgress sv) (scanResults sv)
                                (goroutines sv ++ [HStart r]))
  | WHandler i =>
      match goroutines sv !! i with
      | Some (HStart r) =>
          if negb (String.eqb (Method r) "POST")
          then Some (set_goroutine i (HResponded StatusMethodNotAllowed) sv)
          else if scanInProgress sv
          then Some (set_goroutine i (HResponded StatusConflict) sv)
          else Some (set_flag true (set_goroutine i (HParse r) sv))
      | Some (HParse r) =>
          if parseFails r
          then Some (set_flag false (set_goroutine i (HResponded StatusBadRequest) sv))
          else if String.eqb (FormValue r "host") ""
          then Some (set_flag false (set_goroutine i (HResponded StatusBadRequest) sv))
          else
            Some (mkServer (scanInProgress sv) (scanResults sv)
                           (<[i:=HResponded StatusAccepted]> (goroutines sv) ++ [GScan r]))
      | _ => None
      end
  | WScanned i schedule io now elapsed =>
      match goroutines sv !! i with
      | Some (GScan r) =>
          match run (webScanner r) schedule init with
          | Some s =>
              match mainpc s with
              | MReturned openPorts err =>
                  let result :=
                    mkScanResult (FormValue r "host") (webPortInfos io openPorts err)
                                 now elapsed in
                  Some (mkServer (scanInProgress sv) (result :: scanResults sv)
                                 (<[i:=GReset]> (goroutines sv)))
              | _ => None
              end
          | None => None
          end
      | _ => None
      end
  | WReset i =>
      match goroutines sv !! i with
      | Some GReset => Some (set_flag false (set_goroutine i GDone sv))
      | _ => None
      end
  | WClear => Some (mkServer (scanInProgress sv) [] (goroutines sv))
  end.

Inductive webReachable : Server -> Prop :=
| webReachable_init : webReachable server0
| webReachable_step sv l sv' :
    webReachable sv -> webExec l sv = Some sv' -> webReachable sv'.

(** * Properties *)

(** ** Machine integers *)

Lemma wrap64_id z : GoInt.in_range z -> GoInt.wrap64 z = z.
Proof.
  unfold GoInt.in_range, GoInt.min_int, GoInt.max_int, GoInt.wrap64. intros H.
  rewrite Z.mod_small by lia. lia.
Qed.

Lemma wrap64_in_range z : GoInt.in_range (GoInt.wrap64 z).
Proof.
  unfold GoInt.in_range, GoInt.min_int, GoInt.max_int, GoInt.wrap64.
  pose proof (Z.mod_pos_bound (z + 2 ^ 63) (2 ^ 64) ltac:(lia)). lia.
Qed.

Lemma min_spec a b : GoInt.min a b = Z.min a b.
Proof. unfold GoInt.min. destruct (Z.ltb_spec a b); lia. Qed.

Lemma in_range_small z : - 2 ^ 32 <= z <= 2 ^ 32 -> GoInt.in_range z.
Proof.
  unfold GoInt.in_range, GoInt.min_int, GoInt.max_int.
  change (2 ^ 32) with 4294967296. change (2 ^ 63) with 9223372036854775808. lia.
Qed.

(** ** [guessOS] *)

Lemma contains_elem_of ports port : contains ports port = true <-> port ∈ ports.
Proof.
  induction ports as [|p rest IH]; simpl.
  - split; [discriminate | intros H; inversion H].
  - destruct (Z.eqb_spec p port) as [->|Hne].
    + split; [intros _; left | reflexivity].
    + rewrite IH. split; [intros H; by right | intros H].
      inversion H; subst; [congruence | assumption].
Qed.

Lemma contains_false ports port : contains ports port = false <-> port ∉ ports.
Proof.
  rewrite <- contains_elem_of. destruct (contains ports port); split; congruence.
Qed.

(** C8. [guessOS] answers ["Likely Windows"] as soon as one of 445, 3389,
    135 is in the list, whatever else is there, and ["Unknown OS"] exactly
    when none of 445, 3389, 135, 22, 80, 443 is. *)
Theorem guessOS_windows_first_unknown_last :
  (forall openPorts : list Z,
      445 ∈ openPorts \/ 3389 ∈ openPorts \/ 135 ∈ openPorts ->
      guessOS openPorts = "Likely Windows")
  /\ (forall openPorts : list Z,
        guessOS openPorts = "Unknown OS" <->
        (445 ∉ openPorts) /\ (3389 ∉ openPorts) /\ (135 ∉ openPorts) /\
        (22 ∉ openPorts) /\ (80 ∉ openPorts) /\ (443 ∉ openPorts)).
Proof.
  split.
  - intros openPorts H. unfold guessOS.
    rewrite <- !contains_elem_of in H.
    destruct H as [-> | [-> | ->]]; simpl;
      repeat match goal with |- context [contains ?l ?p] => destruct (contains l p) end;
      reflexivity.
  - intros openPorts. rewrite <- !contains_false. unfold guessOS.
    destruct (contains openPorts 445), (contains openPorts 3389),
      (contains openPorts 135), (contains openPorts 22),
      (contains openPorts 111), (contains openPorts 80),
      (contains openPorts 443); simpl; split;
      intros H; try discriminate H; try tauto;
      destruct H as (? & ? & ? & ? & ? & ?); try discriminate; reflexivity.
Qed.

Lemma guessOS_windows_first_unknown_last_witness :
  guessOS [22; 111; 3389] = "Likely Windows" /\
  (guessOS [111; 8080] = "Unknown OS" <->
   (445 ∉ [111; 8080]) /\ (3389 ∉ [111; 8080]) /\ (135 ∉ [111; 8080]) /\
   (22 ∉ [111; 8080]) /\ (80 ∉ [111; 8080]) /\ (443 ∉ [111; 8080])).
Proof.
  split.
  - apply (proj1 guessOS_windows_first_unknown_last [22; 111; 3389]).
    right; left. apply list_elem_of_In. simpl. tauto.
  - apply (proj2 guessOS_windows_first_unknown_last [111; 8080]).
Defined.

(** ** The transition system *)

(** Every step [exec] takes is a step of the relation, and conversely
    ([step_exec]). *)
Lemma exec_step sc l s s' : exec sc l s = Some s' -> step sc s s'.
Proof.
  unfold exec, main_step, chan_recv, chan_send. intros H.
  assert (Hlive : mainpc s <> MPanicked) by (intros E; rewrite E in H; discriminate).
  assert (H' : match l with
               | LMain => main_step sc s
               | _ => exec sc l s
               end = Some s').
  { unfold exec, main_step, chan_recv, chan_send.
    destruct l; try exact H; destruct (mainpc s); try exact H; congruence. }
  clear H. destruct l.
  - unfold main_step, chan_recv in H'.
    destruct (mainpc s) eqn:Hpc; try discriminate; repeat case_match;
      simplify_eq; econstructor; eauto; lia.
  - unfold exec in H'. destruct (mainpc s) eqn:Hpc; try discriminate; simplify_eq.
    by constructor.
  - assert (H : match ctxDone s, workers s !! i with
                | Some _, Some WSelect | Some _, Some (WSend _) => Some (worker_exit i s)
                | _, _ => None
                end = Some s')
      by (unfold exec in H'; destruct (mainpc s); congruence).
    destruct (ctxDone s) eqn:?; try discriminate;
      destruct (workers s !! i) as [[]|] eqn:?; simplify_eq;
      eapply step_worker_cancel; eauto.
  - assert (H : match workers s !! i with
                | Some WSelect =>
                    match chan_recv (portsCh s) with
                    | RecvValue port ch' =>
                        Some (set_portsCh ch' (set_worker i (WProbe port) s))
                    | RecvClosed => Some (worker_exit i s)
                    | RecvBlocked => None
                    end
                | _ => None
                end = Some s')
      by (unfold exec in H'; destruct (mainpc s); congruence).
    unfold chan_recv in H.
    destruct (workers s !! i) as [[]|] eqn:?; try discriminate;
      destruct (buf (portsCh s)) eqn:?; [destruct (closed (portsCh s)) eqn:?|];
      simplify_eq; solve [by eapply step_worker_end | by eapply step_worker_recv].
  - assert (H : match workers s !! i with
                | Some (WProbe port) => Some (probe_step i dial port s)
                | _ => None
                end = Some s')
      by (unfold exec in H'; destruct (mainpc s); congruence).
    destruct (workers s !! i) as [[]|] eqn:?; simplify_eq;
      by eapply step_worker_probe.
  - assert (H : match workers s !! i with
                | Some (WSend port) =>
                    match chan_send (resultsCh s) port with
                    | Some ch' => Some (set_resultsCh ch' (set_worker i WSelect s))
                    | None => None
                    end
                | _ => None
                end = Some s')
      by (unfold exec in H'; destruct (mainpc s); congruence).
    unfold chan_send in H.
    destruct (workers s !! i) as [[]|] eqn:?; try discriminate;
      repeat case_match; simplify_eq; eapply step_worker_send; eauto; lia.
  - assert (H : match feeder s, ctxDone s with
                | FLoop port, Some _ =>
                    if port <=? endPort sc then Some (feeder_exit s) else None
                | _, _ => None
                end = Some s')
      by (unfold exec in H'; destruct (mainpc s); congruence).
    destruct (feeder s) eqn:?; try discriminate;
      destruct (ctxDone s) eqn:?; try discriminate;
      case_match; simplify_eq; eapply step_feeder_cancel; eauto; lia.
  - assert (H : match feeder s with
                | FLoop port =>
                    if port <=? endPort sc
                    then
                      match chan_send (portsCh s) port with
                      | Some ch' =>
                          Some (set_portsCh ch'
                                  (set_feeder (FLoop (GoInt.wrap64 (port + 1))) s))
                      | None => None
                      end
                    else Some (feeder_exit s)
                | _ => None
                end = Some s')
      by (unfold exec in H'; destruct (mainpc s); congruence).
    unfold chan_send in H.
    destruct (feeder s) eqn:?; try discriminate;
      repeat case_match; simplify_eq;
      solve [ eapply step_feeder_send; eauto; lia
            | eapply step_feeder_end; eauto; lia ].
  - assert (H : match feeder s, workers s !! i with
                | FLoop port, Some WSelect =>
                    if (port <=? endPort sc) && (cap (portsCh s) =? 0)
                    then Some (set_feeder (FLoop (GoInt.wrap64 (port + 1)))
                                 (set_worker i (WProbe port) s))
                    else None
                | _, _ => None
                end = Some s')
      by (unfold exec in H'; destruct (mainpc s); congruence).
    destruct (feeder s) eqn:?; try discriminate;
      destruct (workers s !! i) as [[]|] eqn:?; try discriminate.
    destruct (Z.leb_spec port (endPort sc)); [|discriminate].
    destruct (Z.eqb_spec (cap (portsCh s)) 0); [|discriminate].
    simpl in H. simplify_eq. by eapply step_feeder_hand_over.
  - unfold exec in H'.
    destruct (workers s !! i) as [[]|] eqn:?; destruct (mainpc s) eqn:?;
      try discriminate.
    destruct (Z.eqb_spec (cap (resultsCh s)) 0); [|discriminate].
    simpl in H'. simplify_eq. by eapply step_worker_hand_over.
  - assert (H : match barrier s with
                | BWait =>
                    if wg s =? 0
                    then Some (set_resultsCh (chan_close (resultsCh s))
                                 (set_barrier BCloseDone s))
                    else None
                | BCloseDone => Some (set_doneClosed true (set_barrier BExited s))
                | _ => None
                end = Some s')
      by (unfold exec in H'; destruct (mainpc s); congruence).
    destruct (barrier s) eqn:?; try discriminate;
      repeat case_match; simplify_eq;
      solve [ eapply step_barrier_close_results; eauto; lia
            | eapply step_barrier_close_done; eauto ].
  - assert (H : match ctx sc, ctxDone s with
                | Derived _, None => Some (set_ctxDone (Some cause) s)
                | _, _ => None
                end = Some s')
      by (unfold exec in H'; destruct (mainpc s); congruence).
    destruct (ctx sc) eqn:?; try discriminate;
      destruct (ctxDone s) eqn:?; simplify_eq;
      eapply step_cancel; eauto.
Qed.

Lemma step_exec sc s s' : step sc s s' -> exists l, exec sc l s = Some s'.
Proof.
  assert (Hmain : forall s s', mainpc s <> MPanicked ->
                               main_step sc s = Some s' -> exec sc LMain s = Some s').
  { intros t t' Hl E. unfold exec. destruct (mainpc t); congruence. }
  intros Hstep. destruct Hstep.
  all: try (exists LMain; apply Hmain; [congruence|]; unfold main_step, chan_recv;
            repeat match goal with H : _ = _ |- _ => rewrite H end;
            try match goal with
              | |- context [?a <? ?b] => destruct (Z.ltb_spec a b); try lia
              end;
            reflexivity).
  - exists (LGrabBanner io). unfold exec. by rewrite H.
  - exists (LWorkerCancel i). unfold exec. rewrite H0, H2.
    destruct H1 as [->|[port ->]]; by destruct (mainpc s).
  - exists (LWorkerRecv i). unfold exec, chan_recv. rewrite H0, H1.
    by destruct (mainpc s).
  - exists (LWorkerRecv i). unfold exec, chan_recv. rewrite H0, H1, H2.
    by destruct (mainpc s).
  - exists (LWorkerProbe i dial). unfold exec. rewrite H0. by destruct (mainpc s).
  - exists (LWorkerSend i). unfold exec, chan_send. rewrite H0.
    destruct (Z.ltb_spec (Z.of_nat (length (buf (resultsCh s)))) (cap (resultsCh s)));
      [|lia].
    by destruct (mainpc s).
  - exists LFeederCancel. unfold exec. rewrite H0, H2.
    destruct (Z.leb_spec port (endPort sc)); [|lia]. by destruct (mainpc s).
  - exists LFeederNext. unfold exec, chan_send. rewrite H0.
    destruct (Z.leb_spec port (endPort sc)); [|lia].
    destruct (Z.ltb_spec (Z.of_nat (length (buf (portsCh s)))) (cap (portsCh s)));
      [|lia].
    by destruct (mainpc s).
  - exists (LFeederHandOver i). unfold exec. rewrite H0, H2, H3.
    destruct (Z.leb_spec port (endPort sc)); [|lia]. simpl.
    by destruct (mainpc s).
  - exists (LWorkerHandOver i). unfold exec. rewrite H, H0, H1. reflexivity.
  - exists LFeederNext. unfold exec. rewrite H0.
    destruct (Z.leb_spec port (endPort sc)); [lia|]. by destruct (mainpc s).
  - exists LBarrier. unfold exec. rewrite H0, H1. by destruct (mainpc s).
  - exists LBarrier. unfold exec. rewrite H0. by destruct (mainpc s).
  - exists (LCancel cause). unfold exec. rewrite H0, H1. by destruct (mainpc s).
Qed.

Lemma reachable_ind_step sc (P : State -> Prop) :
  P init ->
  (forall s s', reachable sc s -> P s -> step sc s s' -> P s') ->
  forall s, reachable sc s -> P s.
Proof.
  intros Hinit Hstep s Hr. induction Hr as [|s l s' Hr IH Hex]; [assumption|].
  eapply Hstep; eauto using exec_step.
Qed.

Lemma run_app sc l1 l2 s :
  run sc (l1 ++ l2) s = match run sc l1 s with Some s' => run sc l2 s' | None => None end.
Proof.
  revert s. induction l1 as [|l l1 IH]; intros s; simpl; [reflexivity|].
  destruct (exec sc l s); [apply IH | reflexivity].
Qed.

Lemma run_reachable sc schedule s s' :
  reachable sc s -> run sc schedule s = Some s' -> reachable sc s'.
Proof.
  revert s. induction schedule as [|l rest IH]; intros s Hr H; simpl in H.
  - by simplify_eq.
  - destruct (exec sc l s) eqn:He; [|discriminate].
    eapply IH; [|exact H]. by eapply reachable_step.
Qed.

Lemma Scan_reachable sc result err :
  Scan sc result err -> exists s, reachable sc s /\ mainpc s = MReturned result err.
Proof.
  intros (schedule & s & Hrun & Hm). exists s. split; [|exact Hm].
  eapply run_reachable; [apply reachable_init | exact Hrun].
Qed.

(** ** The shape of the reachable states *)

(** The port range the front ends accept. *)
Definition valid_range (sc : Scanner) : Prop :=
  1 <= startPort sc /\ startPort sc <= endPort sc /\ endPort sc <= 65535.

Definition live (w : WorkerPC) : bool :=
  match w with
  | WExited => false
  | _ => true
  end.

(** The workers that have not returned. *)
Definition live_count (ws : list WorkerPC) : nat :=
  sum_list_with (fun w => if live w then 1%nat else 0%nat) ws.

Definition pre_barrier (m : MainPC) : bool :=
  match m with
  | MStart | MSpawnWorkers _ | MSpawnBarrier => true
  | _ => false
  end.

Definition pre_feeder (m : MainPC) : bool :=
  match m with
  | MStart | MSpawnWorkers _ | MSpawnBarrier | MSpawnFeeder => true
  | _ => false
  end.

Definition post_collect (m : MainPC) : bool :=
  match m with
  | MWaitDone | MStopProgress | MFinalSelect | MReturned _ _ => true
  | _ => false
  end.

Definition progress_on (m : MainPC) : bool :=
  match m with
  | MStart | MFinalSelect | MReturned _ _ | MPanicked => false
  | _ => true
  end.

(** How the goroutines, the wait group and the channels stand to one
    another in every reachable state of a scan over a valid range. *)
Record Inv (sc : Scanner) (s : State) : Prop := mkInv {
  inv_alive : mainpc s <> MPanicked;
  inv_spawn : forall i, mainpc s = MSpawnWorkers i -> 0 <= i;
  inv_barrier : pre_barrier (mainpc s) = true <-> barrier s = BNotStarted;
  inv_feeder : pre_feeder (mainpc s) = true <-> feeder s = FNotStarted;
  inv_feeder_pos : forall p, feeder s = FLoop p -> startPort sc <= p <= endPort sc + 1;
  inv_ports_closed : closed (portsCh s) = true <-> feeder s = FExited;
  inv_results_closed :
    closed (resultsCh s) = true <-> barrier s = BCloseDone \/ barrier s = BExited;
  inv_done : doneClosed s = true <-> barrier s = BExited;
  inv_wg : wg s = Z.of_nat (live_count (workers s));
  inv_closed_wg : closed (resultsCh s) = true -> wg s = 0;
  inv_post :
    post_collect (mainpc s) = true ->
    closed (resultsCh s) = true /\ buf (resultsCh s) = [];
  inv_progress :
    showProgress sc = true -> progress_on (mainpc s) = true -> progress s = PRunning;
  inv_cap : mainpc s <> MStart -> 1 <= cap (portsCh s) /\ 1 <= cap (resultsCh s)
}.

Lemma sum_list_with_insert {A} (f : A -> nat) (l : list A) i x y :
  l !! i = Some x ->
  (sum_list_with f (<[i:=y]> l) + f x = sum_list_with f l + f y)%nat.
Proof.
  revert i. induction l as [|a l IH]; intros [|i] H; simpl in *; simplify_eq.
  - lia.
  - specialize (IH i H). lia.
Qed.

Lemma sum_list_with_lookup {A} (f : A -> nat) (l : list A) i x :
  l !! i = Some x -> (f x <= sum_list_with f l)%nat.
Proof.
  intros H. apply sum_list_with_in. eapply list_elem_of_lookup_2, H.
Qed.

Lemma live_count_insert ws i w w' :
  ws !! i = Some w ->
  (live_count (<[i:=w']> ws) + (if live w then 1 else 0)
   = live_count ws + (if live w' then 1 else 0))%nat.
Proof. apply sum_list_with_insert. Qed.

Lemma live_count_lookup ws i w :
  ws !! i = Some w -> live w = true -> (1 <= live_count ws)%nat.
Proof.
  intros H Hl.
  pose proof (sum_list_with_lookup (fun w => if live w then 1%nat else 0%nat) ws i w H) as L.
  simpl in L. rewrite Hl in L. exact L.
Qed.

Lemma live_count_exists ws :
  (1 <= live_count ws)%nat -> exists i w, ws !! i = Some w /\ live w = true.
Proof.
  induction ws as [|a ws IH]; unfold live_count; simpl; [lia|].
  destruct (live a) eqn:Ha.
  - intros _. exists 0%nat, a. by split.
  - intros H. destruct IH as (i & w & Hi & Hw); [exact H|].
    exists (S i), w. by split.
Qed.

Lemma chanSize_valid sc : valid_range sc -> 1 <= chanSize sc.
Proof.
  intros (H1 & H2 & H3). unfold chanSize, portCount.
  rewrite wrap64_id.
  - rewrite min_spec. lia.
  - apply in_range_small. change (2 ^ 32) with 4294967296. lia.
Qed.

Lemma Inv_init sc : Inv sc init.
Proof. split; simpl; try done; try (split; [done | intros [|]; done]). Qed.

Lemma probe_next_live dial port : live (probe_next dial port) = true.
Proof. unfold probe_next. destruct (isPortOpen dial) as [[] []]; reflexivity. Qed.

Lemma live_count_snoc ws w :
  live_count (ws ++ [w]) = (live_count ws + (if live w then 1 else 0))%nat.
Proof. unfold live_count. rewrite sum_list_with_app. simpl. lia. Qed.

(** Facts on the worker a step is about, for [lia]. *)
Ltac worker_facts :=
  repeat match goal with
    | H : _ \/ _ |- _ => destruct H as [?|[? ?]]; subst
    end;
  try match goal with
    | H : ?ws !! ?i = Some ?w |- _ =>
        pose proof (live_count_lookup ws i w H eq_refl);
        try match goal with
          | |- context [live_count (<[i:=?w']> ws)] =>
              pose proof (live_count_insert ws i w w' H)
          end
    end;
  try rewrite probe_next_live in *; simpl in *;
  repeat match goal with
    | H : ?P -> _, H' : ?P |- _ => specialize (H H')
    end.

Lemma Inv_step sc s s' :
  valid_range sc -> GoInt.in_range (threads sc) -> Inv sc s -> step sc s s' -> Inv sc s'.
Proof.
  intros Hv Ht HI Hstep.
  pose proof (chanSize_valid sc Hv) as Hsize.
  destruct Hv as (Hv1 & Hv2 & Hv3).
  destruct HI as [Ha Hsp Hb Hf Hfp Hpc Hrc Hd Hwg Hcw Hpost Hprog Hcap].
  destruct Hstep; destruct s as [m0 ws0 f0 b0 p0 w0 pc0 rc0 d0 cx0 op0 pr0 bc0 out0];
    simpl in *; subst; simpl in *.
  (* over a valid range no channel is unbuffered *)
  all: try match goal with
         | H : cap _ = 0 |- _ =>
             exfalso;
             assert (m0 <> MStart)
               by (intros ->; destruct Hf as [Hf' _]; specialize (Hf' eq_refl);
                   discriminate);
             destruct Hcap; [congruence | lia]
         | H : cap _ = 0 |- _ => exfalso; destruct Hcap; [congruence | lia]
         end.
  all: split; simpl; try done; try lia; try tauto;
    try solve [intuition (try congruence; try discriminate; try lia)].
  all: try (intros; simplify_eq; first [lia | done | tauto]).
  all: try solve [intros; simplify_eq; intuition (simplify_eq; try lia; try done)].
  all: try solve [intros; worker_facts; lia].
  - intros ->. done.
  - intros i0 [= <-]. specialize (Hsp i eq_refl).
    rewrite wrap64_id; [lia|]. unfold GoInt.in_range, GoInt.min_int, GoInt.max_int in *. lia.
  - rewrite live_count_snoc. simpl. lia.
  - intros Hp. destruct (Hpost Hp) as [Hc _]. worker_facts. lia.
  - intros p [= <-]. specialize (Hfp port eq_refl).
    rewrite wrap64_id; [lia|]. apply in_range_small. change (2 ^ 32) with 4294967296. lia.
Qed.

Lemma reachable_Inv sc s :
  valid_range sc -> GoInt.in_range (threads sc) -> reachable sc s -> Inv sc s.
Proof.
  intros Hv Ht. apply reachable_ind_step; [apply Inv_init|].
  intros s1 s2 _ HI Hs. by eapply Inv_step.
Qed.

(** ** No deadlock before [Scan] returns *)

(** A step of one of the goroutines, as opposed to the owner of the context
    ending it. *)
Definition goroutine_label (l : Label) : Prop :=
  match l with
  | LCancel _ => False
  | _ => True
  end.

Definition noBanner : BannerIO :=
  mkBannerIO (DialFail (mkNetError false false false false)) None None (inr EmptyString).

Lemma can_step sc s :
  Inv sc s -> ~ returned s ->
  exists l s', goroutine_label l /\ exec sc l s = Some s'.
Proof.
  intros [Ha Hsp Hb Hf Hfp Hpc Hrc Hd Hwg Hcw Hpost Hprog Hcap] Hnr.
  unfold returned in Hnr.
  assert (Hmain : forall s', main_step sc s = Some s' ->
                             exists l s', goroutine_label l /\ exec sc l s = Some s').
  { intros s' E. exists LMain, s'. split; [exact I|].
    unfold exec. destruct (mainpc s); try exact E. congruence. }
  assert (Hother : forall l s', goroutine_label l ->
             match l with LMain => None | _ => exec sc l s end = Some s' ->
             exists l s', goroutine_label l /\ exec sc l s = Some s').
  { intros l s' Hl E. exists l, s'. split; [exact Hl|]. destruct l; try exact E. discriminate. }
  destruct (mainpc s) eqn:Hm; try done.
  - (* MStart *)
    unfold main_step in Hmain. rewrite Hm in Hmain.
    destruct (chanSize sc <? 0); eauto.
  - unfold main_step in Hmain. rewrite Hm in Hmain.
    destruct (i <? threads sc); eauto.
  - unfold main_step in Hmain. rewrite Hm in Hmain. eauto.
  - unfold main_step in Hmain. rewrite Hm in Hmain. eauto.
  - (* MCollect *)
    unfold main_step in Hmain. rewrite Hm in Hmain. unfold chan_recv in Hmain.
    destruct (buf (resultsCh s)) as [|v rest] eqn:Hbuf; [|eauto].
    destruct (closed (resultsCh s)) eqn:Hcl; [eauto|].
    assert (Hbw : barrier s = BWait).
    { simpl in Hb. destruct (barrier s); try done.
      - destruct Hb as [_ Hb]. by specialize (Hb eq_refl).
      - destruct Hrc as [_ Hrc]. by specialize (Hrc (or_introl eq_refl)).
      - destruct Hrc as [_ Hrc]. by specialize (Hrc (or_intror eq_refl)). }
    destruct (Z.eq_dec (wg s) 0) as [Hz|Hnz].
    { eapply (Hother LBarrier); [exact I|]. unfold exec. rewrite Hm, Hbw.
      rewrite Hz. reflexivity. }
    destruct (live_count_exists (workers s)) as (i & w & Hi & Hw); [lia|].
    assert (Hcapr : 1 <= cap (portsCh s) /\ 1 <= cap (resultsCh s))
      by (apply Hcap; congruence).
    destruct w; try discriminate.
    + (* at the outer select *)
      destruct (ctxDone s) eqn:Hcx.
      { eapply (Hother (LWorkerCancel i)); [exact I|]. unfold exec.
        rewrite Hm, Hcx, Hi. reflexivity. }
      destruct (buf (portsCh s)) as [|q qs] eqn:Hq.
      * destruct (closed (portsCh s)) eqn:Hpcl.
        { eapply (Hother (LWorkerRecv i)); [exact I|]. unfold exec, chan_recv.
          rewrite Hm, Hi, Hq, Hpcl. reflexivity. }
        assert (exists p, feeder s = FLoop p) as [p Hp].
        { simpl in Hf. destruct (feeder s); eauto.
          - destruct Hf as [_ Hf]. by specialize (Hf eq_refl).
          - destruct Hpc as [_ Hpc']. by specialize (Hpc' eq_refl). }
        assert (Hroom : (0 <? cap (portsCh s)) = true) by (apply Z.ltb_lt; lia).
        destruct (p <=? endPort sc) eqn:Hle;
          (eapply (Hother LFeederNext); [exact I|]); unfold exec, chan_send;
          rewrite Hm, Hp, Hle; [rewrite Hq; change (Z.of_nat (length (@nil Z))) with 0; rewrite Hroom|]; reflexivity.
      * eapply (Hother (LWorkerRecv i)); [exact I|]. unfold exec, chan_recv.
        rewrite Hm, Hi, Hq. reflexivity.
    + eapply (Hother (LWorkerProbe i DialOK)); [exact I|]. unfold exec.
      rewrite Hm, Hi. reflexivity.
    + assert (Hroom : (0 <? cap (resultsCh s)) = true) by (apply Z.ltb_lt; lia).
      eapply (Hother (LWorkerSend i)); [exact I|]. unfold exec, chan_send.
      rewrite Hm, Hi, Hbuf. change (Z.of_nat (length (@nil Z))) with 0. rewrite Hroom. reflexivity.
  - (* MBanner *)
    eapply (Hother (LGrabBanner noBanner)); [exact I|]. unfold exec. rewrite Hm. reflexivity.
  - (* MWaitDone *)
    destruct (Hpost eq_refl) as [Hcl _].
    destruct (doneClosed s) eqn:Hdc.
    + unfold main_step in Hmain. rewrite Hm, Hdc in Hmain. eauto.
    + destruct Hrc as [Hrc _]. destruct (Hrc Hcl) as [Hbc|Hbe].
      * eapply (Hother LBarrier); [exact I|]. unfold exec. rewrite Hm, Hbc. reflexivity.
      * destruct Hd as [_ Hd]. by specialize (Hd Hbe).
  - (* MStopProgress *)
    unfold main_step in Hmain. rewrite Hm in Hmain.
    destruct (showProgress sc); [|eauto].
    rewrite (Hprog eq_refl eq_refl) in Hmain. eauto.
  - unfold main_step in Hmain. rewrite Hm in Hmain.
    destruct (ctxDone s); eauto.
Qed.

(** ** Every run is finite

    Each port moves forward through the pipeline and each goroutine towards
    its return: [measure] weighs what is left to do, and every step makes it
    smaller. *)

Definition worker_rank (w : WorkerPC) : nat :=
  match w with
  | WExited => 0
  | WSelect => 1
  | WSend _ => 4
  | WProbe _ => 5
  end.

Definition feeder_rank (sc : Scanner) (f : FeederPC) : nat :=
  match f with
  | FNotStarted => 6 * Z.to_nat (endPort sc - startPort sc + 1) + 1
  | FLoop p => 6 * Z.to_nat (endPort sc - p + 1) + 1
  | FExited => 0
  end.

Definition barrier_rank (b : BarrierPC) : nat :=
  match b with
  | BNotStarted | BWait => 2
  | BCloseDone => 1
  | BExited => 0
  end.

Definition main_rank (sc : Scanner) (m : MainPC) : nat :=
  match m with
  | MStart => 9 + 2 * Z.to_nat (threads sc)
  | MSpawnWorkers i => 8 + 2 * Z.to_nat (threads sc - i)
  | MSpawnBarrier => 7
  | MSpawnFeeder => 6
  | MBanner _ => 5
  | MCollect => 4
  | MWaitDone => 3
  | MStopProgress => 2
  | MFinalSelect => 1
  | MReturned _ _ | MPanicked => 0
  end.

Definition measure (sc : Scanner) (s : State) : nat :=
  main_rank sc (mainpc s)
  + sum_list_with worker_rank (workers s)
  + feeder_rank sc (feeder s)
  + barrier_rank (barrier s)
  + 5 * length (buf (portsCh s))
  + 2 * length (buf (resultsCh s))
  + match ctxDone s with Some _ => 0 | None => 1 end.

Lemma probe_next_rank dial port : (worker_rank (probe_next dial port) <= 4)%nat.
Proof. unfold probe_next. destruct (isPortOpen dial) as [[] []]; simpl; lia. Qed.

Lemma measure_step sc s s' :
  valid_range sc -> GoInt.in_range (threads sc) -> Inv sc s -> step sc s s' ->
  (measure sc s' < measure sc s)%nat.
Proof.
  intros (Hv1 & Hv2 & Hv3) Ht HI Hstep.
  destruct HI as [Ha Hsp Hb Hf Hfp Hpc Hrc Hd Hwg Hcw Hpost Hprog Hcap].
  unfold GoInt.in_range, GoInt.min_int, GoInt.max_int in Ht.
  destruct Hstep; destruct s as [m0 ws0 f0 b0 p0 w0 pc0 rc0 d0 cx0 op0 pr0 bc0 out0];
    unfold measure; simpl in *; subst; simpl in *;
    repeat match goal with
      | H : _ \/ _ |- _ => destruct H as [?|[? ?]]; subst
      | H : ?ws !! ?i = Some ?w |- context [sum_list_with worker_rank (<[?i:=?w']> ?ws)] =>
          pose proof (sum_list_with_insert worker_rank ws i w w' H);
          generalize dependent (sum_list_with worker_rank (<[i:=w']> ws)); intros
      end;
    simpl in *;
    try match goal with
      | H : buf _ = _ |- _ => rewrite H
      end;
    rewrite ?length_app, ?sum_list_with_app; simpl;
    try match goal with
      | _ : context [probe_next ?d ?p] |- _ => pose proof (probe_next_rank d p)
      end;
    try match goal with
      | Hs : forall i0, MSpawnWorkers ?i = MSpawnWorkers i0 -> _ |- _ =>
          specialize (Hs i eq_refl)
      end;
    try match goal with
      | Hp : forall p, FLoop ?q = FLoop p -> _ |- _ => specialize (Hp q eq_refl)
      end;
    try (rewrite wrap64_id
          by (unfold GoInt.in_range, GoInt.min_int, GoInt.max_int; lia));
    try lia.
  - destruct Hb as [Hb _]. rewrite (Hb eq_refl). simpl. lia.
  - destruct Hf as [Hf _]. rewrite (Hf eq_refl). simpl. lia.
Qed.

Lemma measure_exec sc l s s' :
  valid_range sc -> GoInt.in_range (threads sc) -> reachable sc s ->
  exec sc l s = Some s' -> (measure sc s' < measure sc s)%nat.
Proof.
  intros Hv Ht Hr He. eapply measure_step; eauto using reachable_Inv, exec_step.
Qed.

(** A run from a reachable state is no longer than the measure of that
    state. *)
Lemma run_bounded sc schedule s s' :
  valid_range sc -> GoInt.in_range (threads sc) -> reachable sc s ->
  run sc schedule s = Some s' ->
  (length schedule + measure sc s' <= measure sc s)%nat.
Proof.
  intros Hv Ht. revert s. induction schedule as [|l rest IH]; intros s Hr H; simpl in H.
  - simplify_eq. simpl. lia.
  - destruct (exec sc l s) as [s1|] eqn:He; [|discriminate].
    pose proof (measure_exec sc l s s1 Hv Ht Hr He).
    specialize (IH s1 (reachable_step sc s l s1 Hr He) H). simpl. lia.
Qed.

(** From every reachable state the goroutines can run on until [Scan]
    returns. *)
Lemma can_return sc s :
  valid_range sc -> GoInt.in_range (threads sc) -> reachable sc s ->
  exists schedule s',
    Forall goroutine_label schedule /\ run sc schedule s = Some s' /\ returned s'.
Proof.
  intros Hv Ht. remember (measure sc s) as n eqn:Hn.
  revert s Hn. induction n as [n IH] using lt_wf_ind. intros s -> Hr.
  pose proof (reachable_Inv sc s Hv Ht Hr) as HI.
  destruct (mainpc s) eqn:Hm.
  10: { exists [], s. split; [constructor|]. split; [reflexivity|].
        unfold returned. by rewrite Hm. }
  10: { by destruct (inv_alive sc s HI). }
  all: assert (Hnr : ~ returned s) by (unfold returned; rewrite Hm; tauto);
    destruct (can_step sc s HI Hnr) as (l & s1 & Hl & He);
    pose proof (measure_exec sc l s s1 Hv Ht Hr He) as Hlt;
    destruct (IH _ Hlt s1 eq_refl (reachable_step sc s l s1 Hr He))
      as (rest & s' & HF & Hrun & Hret);
    exists (l :: rest), s'; split; [by constructor|];
    split; [simpl; by rewrite He | exact Hret].
Qed.

(** ** Where the ports are

    A port number leaves the feeder once, is held by one worker, is probed
    once and is reported at most once: the occurrences of each port are
    counted along the pipeline. *)

Definition occ (p : Z) (l : list Z) : nat :=
  sum_list_with (fun q => if decide (q = p) then 1%nat else 0%nat) l.

Definition holds_probe (p : Z) (w : WorkerPC) : nat :=
  match w with
  | WProbe q => if decide (q = p) then 1 else 0
  | _ => 0
  end.

Definition holds_send (p : Z) (w : WorkerPC) : nat :=
  match w with
  | WSend q => if decide (q = p) then 1 else 0
  | _ => 0
  end.

(** The bound below which the feeder has sent every port. *)
Definition fed (sc : Scanner) (s : State) : Z :=
  match feeder s with
  | FNotStarted => startPort sc
  | FLoop p => p
  | FExited => endPort sc + 1
  end.

(** The times [p] was handed to the workers: probed, held for a probe, or
    waiting in [ports]. *)
Definition scheduled (p : Z) (s : State) : nat :=
  occ p (probed s) + sum_list_with (holds_probe p) (workers s) + occ p (buf (portsCh s)).

(** The times [p] was reported open: collected, waiting in [results], or
    held by a worker about to send it. *)
Definition reported (p : Z) (s : State) : nat :=
  occ p (openPorts s) + occ p (buf (resultsCh s)) + sum_list_with (holds_send p) (workers s).

Record Accounting (sc : Scanner) (s : State) : Prop := mkAccounting {
  acc_not_started : pre_feeder (mainpc s) = true -> feeder s = FNotStarted;
  acc_fed : startPort sc <= fed sc s <= endPort sc + 1;
  acc_once : forall p, (scheduled p s <= 1)%nat;
  acc_range : forall p, (1 <= scheduled p s)%nat -> startPort sc <= p < fed sc s;
  acc_reported : forall p, (reported p s <= occ p (probed s))%nat
}.

Lemma occ_snoc p l x : occ p (l ++ [x]) = (occ p l + if decide (x = p) then 1 else 0)%nat.
Proof. unfold occ. rewrite sum_list_with_app. simpl. lia. Qed.

Lemma occ_cons p l x : occ p (x :: l) = ((if decide (x = p) then 1 else 0) + occ p l)%nat.
Proof. reflexivity. Qed.

Lemma occ_elem_of p l : p ∈ l <-> (1 <= occ p l)%nat.
Proof.
  induction l as [|x l IH].
  - split; [intros H; inversion H | unfold occ; simpl; lia].
  - rewrite occ_cons, elem_of_cons, IH.
    case_decide; subst; split; intros Hx; try lia; try tauto.
    all: try (destruct Hx; [congruence | lia]); try (right; lia).
Qed.

Lemma occ_NoDup l : (forall p, (occ p l <= 1)%nat) -> NoDup l.
Proof.
  induction l as [|x l IH]; intros H; constructor.
  - intros Hin. apply occ_elem_of in Hin. specialize (H x). rewrite occ_cons in H.
    rewrite decide_True in H by done. lia.
  - apply IH. intros p. specialize (H p). rewrite occ_cons in H. lia.
Qed.

Lemma holds_probe_next p dial port : holds_probe p (probe_next dial port) = 0%nat.
Proof. unfold probe_next. destruct (isPortOpen dial) as [[] []]; reflexivity. Qed.

Lemma holds_send_next p dial port :
  (holds_send p (probe_next dial port) <= if decide (port = p) then 1 else 0)%nat.
Proof.
  unfold probe_next. destruct (isPortOpen dial) as [[] []]; simpl; case_decide; lia.
Qed.

Lemma Accounting_init sc : valid_range sc -> Accounting sc init.
Proof.
  intros (H1 & H2 & H3).
  split; unfold scheduled, reported, fed, occ; simpl; intros; first [done | lia].
Qed.

(** The counts of [p] before and after a step on worker [i], for [lia]. *)
Ltac count_facts p :=
  repeat match goal with
    | H : _ \/ _ |- _ => destruct H as [?|[? ?]]; subst
    end;
  repeat match goal with
    | H : ?ws !! ?i = Some ?w |- context [sum_list_with (?f p) (<[?i:=?w']> ?ws)] =>
        pose proof (sum_list_with_insert (f p) ws i w w' H);
        generalize dependent (sum_list_with (f p) (<[i:=w']> ws)); intros
    end;
  rewrite ?sum_list_with_app, ?occ_snoc in *;
  repeat match goal with
    | H : buf _ = _ |- _ => rewrite H in *
    end;
  rewrite ?occ_cons in *;
  try match goal with
    | _ : context [probe_next ?d ?q] |- _ =>
        pose proof (holds_send_next p d q); rewrite ?holds_probe_next in *
    end;
  simpl in *.

Lemma Accounting_step sc s s' :
  valid_range sc -> Accounting sc s -> step sc s s' -> Accounting sc s'.
Proof.
  intros (Hv1 & Hv2 & Hv3) [Hns Hfed Honce Hrange Hrep] Hstep.
  destruct Hstep; destruct s as [m0 ws0 f0 b0 p0 w0 pc0 rc0 d0 cx0 op0 pr0 bc0 out0];
    simpl in *; subst.
  all: split; unfold scheduled, reported, fed, start_step in *; simpl in *;
    try assumption.
  all: try (rewrite wrap64_id
             by (apply in_range_small; change (2 ^ 32) with 4294967296; lia)).
  all: try lia.
  all: try (intros; congruence).
  all: try (intros Hp; specialize (Hns Hp); discriminate).
  all: try (specialize (Hns eq_refl); subst).
  all: try (intros p; specialize (Honce p); specialize (Hrange p); specialize (Hrep p);
         count_facts p; repeat case_decide; subst; try lia).
Qed.

Lemma reachable_Accounting sc s : valid_range sc -> reachable sc s -> Accounting sc s.
Proof.
  intros Hv. apply reachable_ind_step; [by apply Accounting_init|].
  intros s1 s2 _ HA Hs. by eapply Accounting_step.
Qed.

(** A list of distinct numbers between [a] and [b] has at most [b - a + 1]
    entries. *)
Lemma NoDup_range_length (l : list Z) a b :
  NoDup l -> (forall p, p ∈ l -> a <= p <= b) -> Z.of_nat (length l) <= Z.max 0 (b - a + 1).
Proof.
  intros Hnd Hin.
  assert (Hsub : l ⊆+ seqZ a (Z.max 0 (b - a + 1))).
  { apply NoDup_submseteq; [exact Hnd|]. intros p Hp. apply elem_of_seqZ.
    specialize (Hin p Hp). lia. }
  apply submseteq_length in Hsub. rewrite length_seqZ in Hsub. lia.
Qed.

(** ** A scan that is not cancelled probes every port

    As long as the context is not done no port is dropped on the way: every
    port the feeder has sent is probed, held for a probe or waiting in
    [ports], and a worker returns only once the feeder has returned and
    [ports] is empty. *)

Record Complete (sc : Scanner) (s : State) : Prop := mkComplete {
  cmp_workers :
    match mainpc s with
    | MStart => workers s = []
    | MSpawnWorkers i => Z.of_nat (length (workers s)) = i
    | _ => 1 <= threads sc -> workers s <> []
    end;
  cmp_sent :
    ctxDone s = None ->
    forall p, startPort sc <= p < fed sc s -> scheduled p s = 1%nat;
  cmp_exited :
    ctxDone s = None ->
    forall i, workers s !! i = Some WExited ->
              feeder s = FExited /\ buf (portsCh s) = []
}.

Lemma Complete_init sc : Complete sc init.
Proof.
  split; simpl; [reflexivity | |].
  - unfold fed. simpl. intros; lia.
  - intros _ i. by rewrite lookup_nil.
Qed.

Lemma insert_not_nil {A} (l : list A) i x : l <> [] -> <[i:=x]> l <> [].
Proof. destruct l, i; simpl; congruence. Qed.

Lemma lookup_insert_exited (ws : list WorkerPC) (i j : nat) w :
  w <> WExited -> <[i:=w]> ws !! j = Some WExited -> ws !! j = Some WExited.
Proof.
  intros Hw. destruct (decide (i = j)) as [->|Hne].
  - destruct (decide (j < length ws)%nat).
    + rewrite list_lookup_insert_eq by done. congruence.
    + by rewrite list_insert_ge by lia.
  - by rewrite list_lookup_insert_ne.
Qed.

Lemma probe_next_not_exited dial port : probe_next dial port <> WExited.
Proof. unfold probe_next. destruct (isPortOpen dial) as [[] []]; discriminate. Qed.

Lemma Complete_step sc s s' :
  valid_range sc -> GoInt.in_range (threads sc) ->
  Inv sc s -> Accounting sc s -> Complete sc s -> step sc s s' -> Complete sc s'.
Proof.
  intros Hv Ht HI HA [Hw Hsent Hex] Hstep.
  pose proof (chanSize_valid sc Hv) as Hsize. destruct Hv as (Hv1 & Hv2 & Hv3).
  destruct HI as [Ha Hsp Hb Hf Hfp Hpc Hrc Hd Hwg Hcw Hpost Hprog Hcap].
  destruct HA as [Hns Hfed Honce Hrange Hrep].
  unfold GoInt.in_range, GoInt.min_int, GoInt.max_int in Ht.
  destruct Hstep; destruct s as [m0 ws0 f0 b0 p0 w0 pc0 rc0 d0 cx0 op0 pr0 bc0 out0];
    simpl in *; subst; simpl in *; try lia.
  all: try match goal with
         | H : cap _ = 0 |- _ =>
             exfalso;
             assert (m0 <> MStart)
               by (intros ->; destruct Hf as [Hf' _]; specialize (Hf' eq_refl);
                   discriminate);
             destruct Hcap; [congruence | lia]
         | H : cap _ = 0 |- _ => exfalso; destruct Hcap; [congruence | lia]
         end.
  all: try (specialize (Hns eq_refl); subst).
  all: try match goal with
         | H : forall i0, MSpawnWorkers ?i = MSpawnWorkers i0 -> _ |- _ =>
             specialize (H i eq_refl)
         end.
  all: try match goal with
         | H : forall p, FLoop ?q = FLoop p -> _ |- _ => specialize (H q eq_refl)
         end.
  all: split; unfold scheduled, fed, start_step in *; simpl in *.
  all: try (rewrite wrap64_id
             by (unfold GoInt.in_range, GoInt.min_int, GoInt.max_int; lia)).
  (* the workers started so far *)
  all: try assumption.
  all: try (rewrite length_app; simpl; lia).
  all: try (intros Hone; destruct ws0; [simpl in *; lia | discriminate]).
  all: try (destruct m0; simpl in *; subst;
            first [ by rewrite lookup_nil in *
                  | by rewrite length_insert
                  | intros; apply insert_not_nil; auto ]).
  (* a returned worker *)
  all: try (intros Hcx j Hj;
            try (apply lookup_insert_exited in Hj;
                 [|first [discriminate | apply probe_next_not_exited]]);
            destruct (Hex Hcx j Hj) as [Hfe Hbe]; simplify_eq; simpl in *;
            first [done | congruence]).
  all: try (intros; congruence).
  (* the ports sent so far *)
  all: try (intros Hcx p Hp; specialize (Hsent Hcx p);
            specialize (Honce p); specialize (Hrange p);
            count_facts p; repeat case_decide; subst; lia).
  - reflexivity.
  - intros Hcx j Hj. apply lookup_app_Some in Hj as [Hj | [_ Hj]].
    + by destruct (Hex Hcx j Hj).
    + by destruct (j - length ws0)%nat.
  - intros Hcx j Hj. split; [by apply Hpc | assumption].
Qed.

Lemma reachable_Complete sc s :
  valid_range sc -> GoInt.in_range (threads sc) -> reachable sc s -> Complete sc s.
Proof.
  intros Hv Ht. apply reachable_ind_step; [apply Complete_init|].
  intros s1 s2 Hr HC Hs.
  eapply Complete_step; eauto using reachable_Inv, reachable_Accounting.
Qed.

Lemma all_exited_holds_probe p ws :
  live_count ws = 0%nat -> sum_list_with (holds_probe p) ws = 0%nat.
Proof.
  unfold live_count. induction ws as [|w ws IH]; simpl; [reflexivity|].
  destruct w; simpl; intros H; lia.
Qed.

(** Every port of the range is probed once, and nothing else is. *)
Definition full_probe (sc : Scanner) (s : State) : Prop :=
  forall p,
    occ p (probed s) = if decide (startPort sc <= p <= endPort sc) then 1%nat else 0%nat.

(** At the final [select], with a worker started and the context not done,
    every port has been probed. *)
Lemma full_probe_at_final sc s :
  valid_range sc -> 1 <= threads sc ->
  Inv sc s -> Accounting sc s -> Complete sc s ->
  post_collect (mainpc s) = true -> ctxDone s = None -> full_probe sc s.
Proof.
  intros Hv Hone HI HA HC Hm Hcx p.
  destruct (inv_post sc s HI Hm) as [Hcl _].
  pose proof (inv_closed_wg sc s HI Hcl) as Hwg0.
  rewrite (inv_wg sc s HI) in Hwg0.
  assert (Hlive : live_count (workers s) = 0%nat) by lia.
  assert (Hne : workers s <> []).
  { pose proof (cmp_workers sc s HC) as Hw. destruct (mainpc s); try discriminate; auto. }
  destruct (workers s) as [|w ws] eqn:Hws; [done|].
  assert (w = WExited) as ->.
  { unfold live_count in Hlive. simpl in Hlive. destruct w; simpl in Hlive; try lia. done. }
  destruct (cmp_exited sc s HC Hcx 0%nat) as [Hfe Hbuf]; [by rewrite Hws|].
  pose proof (cmp_sent sc s HC Hcx p) as Hsent.
  pose proof (acc_range sc s HA p) as Hrange.
  unfold scheduled, fed in *. rewrite Hfe, Hbuf, Hws in *.
  rewrite (all_exited_holds_probe p (WExited :: ws) Hlive) in *.
  change (occ p []) with 0%nat in *.
  case_decide; [rewrite <- Hsent; lia | lia].
Qed.

Lemma full_probe_returned sc s result :
  valid_range sc -> GoInt.in_range (threads sc) -> 1 <= threads sc ->
  reachable sc s -> mainpc s = MReturned result None -> full_probe sc s.
Proof.
  intros Hv Ht Hone Hr. revert result.
  revert s Hr.
  apply (reachable_ind_step sc
           (fun s => forall result, mainpc s = MReturned result None -> full_probe sc s));
    [discriminate|].
  intros s1 s2 Hr1 IH Hstep result Hm.
  pose proof (reachable_Inv sc s1 Hv Ht Hr1) as HI.
  pose proof (reachable_Accounting sc s1 Hv Hr1) as HA.
  pose proof (reachable_Complete sc s1 Hv Ht Hr1) as HC.
  destruct Hstep; destruct s1 as [m0 ws0 f0 b0 p0 w0 pc0 rc0 d0 cx0 op0 pr0 bc0 out0];
    simpl in *; subst; simpl in *; simplify_eq;
    try (by apply (IH result eq_refl)).
  - (* the return *)
    intros p. by apply (full_probe_at_final sc _ Hv Hone HI HA HC eq_refl eq_refl p).
  - (* no worker is left to probe *)
    exfalso. destruct (inv_post sc _ HI eq_refl) as [Hcl _]. simpl in *.
    pose proof (inv_closed_wg sc _ HI Hcl) as Hwg0. simpl in Hwg0.
    pose proof (inv_wg sc _ HI) as Hwg. simpl in Hwg.
    match goal with
    | H : ws0 !! _ = Some (WProbe _) |- _ => pose proof (live_count_lookup _ _ _ H eq_refl)
    end.
    lia.
Qed.

Lemma full_probe_Permutation sc s :
  full_probe sc s ->
  probed s ≡ₚ seqZ (startPort sc) (endPort sc - startPort sc + 1).
Proof.
  intros H. apply NoDup_Permutation.
  - apply occ_NoDup. intros p. rewrite (H p). case_decide; lia.
  - apply NoDup_seqZ.
  - intros p. rewrite occ_elem_of, (H p), elem_of_seqZ. case_decide; lia.
Qed.

(** ** What [Scan] does with the ports it collects *)

Definition output_port (o : Output) : Z :=
  match o with
  | PortIsOpen port _ _ => port
  end.

(** [grabBanner] has been called, and a line printed, for every collected
    port but the one the collecting loop is at. *)
Definition banner_inv (s : State) : Prop :=
  output_port <$> stdout s = bannerCalls s /\
  match mainpc s with
  | MBanner port => openPorts s = bannerCalls s ++ [port]
  | MReturned result _ => result = openPorts s /\ openPorts s = bannerCalls s
  | _ => openPorts s = bannerCalls s
  end.

Lemma banner_inv_step sc s s' : banner_inv s -> step sc s s' -> banner_inv s'.
Proof.
  intros [Hout Hb] Hstep.
  destruct Hstep; destruct s as [m0 ws0 f0 b0 p0 w0 pc0 rc0 d0 cx0 op0 pr0 bc0 out0];
    unfold banner_inv in *; simpl in *; subst; simpl in *;
    rewrite ?fmap_app; simpl; try done; try (split; congruence).
Qed.

Lemma reachable_banner_inv sc s : reachable sc s -> banner_inv s.
Proof.
  apply reachable_ind_step; [by split|].
  intros s1 s2 _ HB Hs. by eapply banner_inv_step.
Qed.

(** The step on which [Scan] returns. *)
Lemma return_step_inv sc s s' result err :
  step sc s s' -> ~ returned s -> mainpc s' = MReturned result err ->
  result = openPorts s /\ (err <> None <-> ctxDone s <> None).
Proof.
  intros Hstep Hnr Hret. unfold returned in Hnr.
  destruct Hstep; destruct s as [m0 ws0 f0 b0 p0 w0 pc0 rc0 d0 cx0 op0 pr0 bc0 out0];
    simpl in *; subst; simpl in *; simplify_eq; try done;
    try (split; [reflexivity | split; congruence]).
Qed.

(** ** Example scans *)

(** One worker, one port, no progress display. *)
Definition scan22 : Scanner :=
  NewScanner [WithPortRange 22 22; WithThreads 1; WithProgress false].

Definition sshBanner : BannerIO :=
  mkBannerIO DialOK None None (inr ("SSH-2.0-OpenSSH_8.9" +:+ GoString.CRLF)).

(** The port is sent, probed open, reported, collected and its banner
    grabbed: the collecting loop is back at its head. *)
Definition scan22_collecting : list Label :=
  [ LMain; LMain; LMain; LMain; LMain; LFeederNext; LWorkerRecv 0;
    LWorkerProbe 0 DialOK; LWorkerSend 0; LMain; LGrabBanner sshBanner ].

(** Then everybody returns. *)
Definition scan22_complete : list Label :=
  scan22_collecting ++ [ LFeederNext; LWorkerRecv 0; LBarrier; LBarrier;
                         LMain; LMain; LMain; LMain ].

Definition state_after (sc : Scanner) (schedule : list Label) : State :=
  match run sc schedule init with
  | Some s => s
  | None => init
  end.

Lemma state_after_reachable sc schedule :
  run sc schedule init <> None -> reachable sc (state_after sc schedule).
Proof.
  unfold state_after. intros H. destruct (run sc schedule init) as [s|] eqn:E; [|done].
  eapply run_reachable; [apply reachable_init | exact E].
Qed.

Definition scan22_done : State := state_after scan22 scan22_complete.

(** ** The claims on [Scan] *)

(** C6. In every state of a scan over a valid range, and so in what [Scan]
    returns, the collected open ports are pairwise distinct, lie in the
    range and are at most [endPort - startPort + 1]: no port is handed to a
    worker twice, and only probed ports are collected.  When at least one
    worker was started and [Scan] returns without an error, every port of
    the range has been probed exactly once. *)
Theorem Scan_result_bounded_and_distinct sc :
  valid_range sc ->
  (forall result err,
      Scan sc result err ->
      NoDup result
      /\ Z.of_nat (length result) <= endPort sc - startPort sc + 1
      /\ forall p, p ∈ result -> startPort sc <= p <= endPort sc)
  /\ (forall s,
        reachable sc s ->
        NoDup (openPorts s)
        /\ Z.of_nat (length (openPorts s)) <= endPort sc - startPort sc + 1
        /\ (forall p, p ∈ openPorts s -> startPort sc <= p <= endPort sc)
        /\ NoDup (probed s)
        /\ (forall p, p ∈ openPorts s -> p ∈ probed s)
        /\ (forall result err, mainpc s = MReturned result err -> result = openPorts s)
        /\ (GoInt.in_range (threads sc) -> 1 <= threads sc ->
            forall result, mainpc s = MReturned result None ->
            probed s ≡ₚ seqZ (startPort sc) (endPort sc - startPort sc + 1))).
Proof.
  intros Hv.
  assert (Hstate : forall s,
        reachable sc s ->
        NoDup (openPorts s)
        /\ Z.of_nat (length (openPorts s)) <= endPort sc - startPort sc + 1
        /\ (forall p, p ∈ openPorts s -> startPort sc <= p <= endPort sc)
        /\ NoDup (probed s)
        /\ (forall p, p ∈ openPorts s -> p ∈ probed s)
        /\ (forall result err, mainpc s = MReturned result err -> result = openPorts s)
        /\ (GoInt.in_range (threads sc) -> 1 <= threads sc ->
            forall result, mainpc s = MReturned result None ->
            probed s ≡ₚ seqZ (startPort sc) (endPort sc - startPort sc + 1)));
    [|split; [|exact Hstate];
      intros result err (s & Hr & Hm)%Scan_reachable;
      destruct (Hstate s Hr) as (Hnd & Hlen & Hin & _ & _ & Hres & _);
      rewrite (Hres result err Hm); auto].
  intros s Hr.
  destruct (reachable_Accounting sc s Hv Hr) as [_ Hfed Honce Hrange Hrep].
  assert (Hprobed : forall p, (occ p (openPorts s) <= occ p (probed s))%nat).
  { intros p. specialize (Hrep p). unfold reported in Hrep. lia. }
  assert (Hone : forall p, (occ p (probed s) <= 1)%nat).
  { intros p. specialize (Honce p). unfold scheduled in Honce. lia. }
  assert (Hin : forall p, p ∈ openPorts s -> startPort sc <= p <= endPort sc).
  { intros p Hp. apply occ_elem_of in Hp. specialize (Hprobed p).
    specialize (Hrange p). unfold scheduled in Hrange. lia. }
  assert (Hnd : NoDup (openPorts s)).
  { apply occ_NoDup. intros p. specialize (Hprobed p). specialize (Hone p). lia. }
  repeat split; try (by apply Hin).
  - exact Hnd.
  - pose proof (NoDup_range_length _ _ _ Hnd Hin). destruct Hv as (? & ? & ?). lia.
  - by apply occ_NoDup.
  - intros p Hp. apply occ_elem_of. apply occ_elem_of in Hp. specialize (Hprobed p). lia.
  - intros result err Hm. pose proof (reachable_banner_inv sc s Hr) as [_ Hb].
    rewrite Hm in Hb. tauto.
  - intros Ht Hthreads result Hm.
    eapply full_probe_Permutation, full_probe_returned; eauto.
Qed.

Lemma Scan_result_bounded_and_distinct_witness :
  valid_range scan22 /\ Scan scan22 [22] None
  /\ NoDup [22] /\ Z.of_nat (length [22]) <= endPort scan22 - startPort scan22 + 1
  /\ probed scan22_done ≡ₚ seqZ 22 1.
Proof.
  assert (Hv : valid_range scan22) by (unfold valid_range; simpl; lia).
  assert (Hs : Scan scan22 [22] None)
    by (exists scan22_complete, scan22_done; vm_compute; split; reflexivity).
  assert (Hr : reachable scan22 scan22_done)
    by (apply state_after_reachable; vm_compute; discriminate).
  destruct (Scan_result_bounded_and_distinct scan22 Hv) as (Hscan & Hstate).
  destruct (Hscan [22] None Hs) as (Hnd & Hlen & _).
  destruct (Hstate scan22_done Hr) as (_ & _ & _ & _ & _ & _ & Hall).
  split; [exact Hv|]. split; [exact Hs|]. split; [exact Hnd|]. split; [exact Hlen|].
  apply (Hall ltac:(vm_compute; split; discriminate) ltac:(simpl; lia) [22] eq_refl).
Defined.




(** ** A scan without workers *)

(** With [threads <= 0] the loop that starts the workers makes no turn. *)
Record NoWorkers (s : State) : Prop := mkNoWorkers {
  nw_workers : workers s = [];
  nw_wg : wg s = 0;
  nw_probed : probed s = [];
  nw_open : openPorts s = [];
  nw_results : buf (resultsCh s) = [];
  nw_spawn : forall i, mainpc s = MSpawnWorkers i -> i = 0;
  nw_banner : forall port, mainpc s <> MBanner port
}.

Lemma NoWorkers_step sc s s' :
  threads sc <= 0 -> NoWorkers s -> step sc s s' -> NoWorkers s'.
Proof.
  intros Ht [Hw Hwg Hp Ho Hr Hsp Hb] Hstep.
  destruct Hstep; destruct s as [m0 ws0 f0 b0 p0 w0 pc0 rc0 d0 cx0 op0 pr0 bc0 out0];
    simpl in *; subst; simpl in *; try done;
    try (specialize (Hsp _ eq_refl); lia);
    try (by destruct (Hb port));
    split; simpl; try done; try congruence.
Qed.

Lemma reachable_NoWorkers sc s : threads sc <= 0 -> reachable sc s -> NoWorkers s.
Proof.
  intros Ht. apply reachable_ind_step; [by split|].
  intros s1 s2 _ HN Hs. by eapply NoWorkers_step.
Qed.

(** The feeder is at its [select] with a full channel and a context that is
    not done: neither case is ready. *)
Definition feeder_blocked (sc : Scanner) (s : State) : Prop :=
  exists port,
    feeder s = FLoop port /\ port <= endPort sc
    /\ cap (portsCh s) <= Z.of_nat (length (buf (portsCh s)))
    /\ ctxDone s = None.

Lemma feeder_blocked_exec sc s :
  feeder_blocked sc s ->
  exec sc LFeederNext s = None /\ exec sc LFeederCancel s = None.
Proof.
  intros (port & Hf & Hle & Hfull & Hcx). unfold exec, chan_send.
  rewrite Hf, Hcx. apply Z.leb_le in Hle. rewrite Hle.
  destruct (Z.ltb_spec (Z.of_nat (length (buf (portsCh s)))) (cap (portsCh s))); [lia|].
  by destruct (mainpc s).
Qed.

(** Without workers nothing takes a port out of the channel: the feeder
    stays blocked for as long as the context is not done. *)
Lemma feeder_blocked_step sc s s' :
  workers s = [] -> pre_feeder (mainpc s) = false ->
  feeder_blocked sc s -> step sc s s' -> ctxDone s' = None ->
  feeder_blocked sc s'.
Proof.
  intros Hw Hpre (port & Hf & Hle & Hfull & Hcx) Hstep Hcx'.
  destruct Hstep; destruct s as [m0 ws0 f0 b0 p0 w0 pc0 rc0 d0 cx0 op0 pr0 bc0 out0];
    simpl in *; subst; simpl in *; simplify_eq; try done;
    try lia; try (exists port; repeat split; done).
Qed.

(** A range of 1001 ports, more than the channel holds, and no worker. *)
Definition scan0 : Scanner :=
  NewScanner [WithPortRange 1 1001; WithThreads 0; WithProgress false].

(** The feeder fills the channel; the wait group is at zero, so [results]
    and [done] are closed and the caller runs to its return. *)
Definition scan0_schedule : list Label :=
  [LMain; LMain; LMain; LMain] ++ replicate 1000 LFeederNext
  ++ [LBarrier; LBarrier; LMain; LMain; LMain; LMain].

Definition scan0_done : State := state_after scan0 scan0_schedule.

(** C1, as the code has it.  With [threads <= 0] no worker is started and
    nothing is probed; the wait group stays at zero, so the goroutine that
    waits on it can close [results] and [done], and [Scan] returns: from
    every reachable state the goroutines can run on to a return with the
    empty list, no run is infinite, and before the return some goroutine
    can always take a step.  It is the feeder that stays behind: once
    blocked on a full channel it remains blocked for as long as the context
    is not done. *)
Theorem Scan_without_workers_returns_empty sc :
  valid_range sc -> GoInt.in_range (threads sc) -> threads sc <= 0 ->
  (exists err, Scan sc [] err)
  /\ (forall result err, Scan sc result err -> result = [])
  /\ (forall s, reachable sc s ->
        workers s = [] /\ wg s = 0 /\ probed s = [] /\ openPorts s = [])
  /\ (forall s, reachable sc s ->
        exists schedule s' err,
          Forall goroutine_label schedule /\ run sc schedule s = Some s'
          /\ mainpc s' = MReturned [] err)
  /\ (forall schedule s,
        run sc schedule init = Some s -> (length schedule <= measure sc init)%nat)
  /\ (forall s, reachable sc s -> ~ returned s ->
        exists l s', goroutine_label l /\ exec sc l s = Some s')
  /\ (forall s, reachable sc s -> feeder_blocked sc s ->
        exec sc LFeederNext s = None /\ exec sc LFeederCancel s = None
        /\ forall l s', exec sc l s = Some s' -> ctxDone s' = None ->
                        feeder_blocked sc s').
Proof.
  intros Hv Ht H0.
  assert (Hempty : forall s result err,
            reachable sc s -> mainpc s = MReturned result err -> result = []).
  { intros s result err Hr Hm.
    pose proof (reachable_banner_inv sc s Hr) as [_ Hb]. rewrite Hm in Hb.
    destruct Hb as [-> _]. exact (nw_open s (reachable_NoWorkers sc s H0 Hr)). }
  assert (Hcan : forall s, reachable sc s ->
        exists schedule s' err,
          Forall goroutine_label schedule /\ run sc schedule s = Some s'
          /\ mainpc s' = MReturned [] err).
  { intros s Hr. destruct (can_return sc s Hv Ht Hr) as (schedule & s' & HF & Hrun & Hret).
    pose proof (run_reachable sc schedule s s' Hr Hrun) as Hr'.
    unfold returned in Hret. destruct (mainpc s') as [| | | | | | | | |result err|] eqn:Hm;
      try done.
    exists schedule, s', err. split; [exact HF|]. split; [exact Hrun|].
    by rewrite Hm, (Hempty s' result err Hr' Hm). }
  split; [|split; [|split; [|split; [exact Hcan|split; [|split]]]]].
  - destruct (Hcan init (reachable_init sc)) as (schedule & s & err & _ & Hrun & Hm).
    by exists err, schedule, s.
  - intros result err (s & Hr & Hm)%Scan_reachable. by eapply Hempty.
  - intros s Hr. by destruct (reachable_NoWorkers sc s H0 Hr).
  - intros schedule s Hrun.
    pose proof (run_bounded sc schedule init s Hv Ht (reachable_init sc) Hrun). lia.
  - intros s Hr Hnr. apply can_step; [by apply reachable_Inv | exact Hnr].
  - intros s Hr Hb. destruct (feeder_blocked_exec sc s Hb) as [H1 H2].
    split; [exact H1|]. split; [exact H2|]. intros l s' He Hcx.
    eapply feeder_blocked_step; eauto using exec_step.
    + exact (nw_workers s (reachable_NoWorkers sc s H0 Hr)).
    + destruct Hb as (port & Hf & _).
      pose proof (acc_not_started sc s (reachable_Accounting sc s Hv Hr)) as Hns.
      destruct (pre_feeder (mainpc s)); [|reflexivity].
      specialize (Hns eq_refl). congruence.
Qed.

Lemma Scan_without_workers_returns_empty_witness :
  valid_range scan0 /\ GoInt.in_range (threads scan0) /\ threads scan0 <= 0
  /\ (workers scan0_done = [] /\ wg scan0_done = 0
      /\ probed scan0_done = [] /\ openPorts scan0_done = [])
  /\ feeder_blocked scan0 scan0_done
  /\ exec scan0 LFeederNext scan0_done = None.
Proof.
  assert (Hv : valid_range scan0) by (unfold valid_range; simpl; lia).
  assert (Ht : GoInt.in_range (threads scan0)) by (vm_compute; split; discriminate).
  assert (H0 : threads scan0 <= 0) by (simpl; lia).
  assert (Hr : reachable scan0 scan0_done)
    by (apply state_after_reachable; vm_compute; discriminate).
  split; [exact Hv|]. split; [exact Ht|]. split; [exact H0|].
  destruct (Scan_without_workers_returns_empty scan0 Hv Ht H0)
    as (_ & _ & Hnw & _ & _ & _ & Hfb).
  assert (Hb : feeder_blocked scan0 scan0_done).
  { exists 1001. vm_compute. repeat split; intros; discriminate. }
  split; [exact (Hnw scan0_done Hr)|]. split; [exact Hb|].
  exact (proj1 (Hfb scan0_done Hr Hb)).
Defined.

(** C1 as stated fails: here the scan has no worker and the feeder is
    blocked on the full channel, and [Scan] has returned the empty list and
    a nil error. *)
Lemma Scan_zero_threads_deadlock_counterexample :
  threads scan0 = 0
  /\ run scan0 scan0_schedule init = Some scan0_done
  /\ mainpc scan0_done = MReturned [] None
  /\ feeder scan0_done = FLoop 1001
  /\ length (buf (portsCh scan0_done)) = 1000%nat
  /\ cap (portsCh scan0_done) = 1000
  /\ doneClosed scan0_done = true
  /\ exec scan0 LFeederNext scan0_done = None.
Proof. vm_compute. repeat split. Qed.

(** ** [NewScanner] and the options *)

Lemma NewScanner_snoc options option :
  NewScanner (options ++ [option]) = option (NewScanner options).
Proof. unfold NewScanner. by rewrite foldl_app. Qed.

Lemma Background_never_done sc s : ctx sc = Background -> reachable sc s -> ctxDone s = None.
Proof.
  intros Hc. revert s.
  apply (reachable_ind_step sc (fun s => ctxDone s = None)); [reflexivity|].
  intros s1 s2 _ H1 Hstep.
  destruct Hstep; destruct s1; simpl in *; try assumption.
  congruence.
Qed.

(** C10.  Without options [NewScanner] gives the defaults, with the
    background context, which no scan ever sees done.  An option applied
    last sets its own field or fields of the scanner built from the options
    before it, whatever they had set, and leaves the others. *)
Theorem NewScanner_defaults_and_overrides :
  NewScanner [] = mkScanner "localhost" 1 1024 100 1000000000 true Background
  /\ (forall s, reachable (NewScanner []) s -> ctxDone s = None)
  /\ (forall options option,
        NewScanner (options ++ [option]) = option (NewScanner options))
  /\ (forall options v,
        let s := NewScanner options in
        NewScanner (options ++ [WithTarget v])
        = mkScanner v (startPort s) (endPort s) (threads s) (timeout s)
                    (showProgress s) (ctx s))
  /\ (forall options a b,
        let s := NewScanner options in
        NewScanner (options ++ [WithPortRange a b])
        = mkScanner (target s) a b (threads s) (timeout s) (showProgress s) (ctx s))
  /\ (forall options v,
        let s := NewScanner options in
        NewScanner (options ++ [WithThreads v])
        = mkScanner (target s) (startPort s) (endPort s) v (timeout s)
                    (showProgress s) (ctx s))
  /\ (forall options v,
        let s := NewScanner options in
        NewScanner (options ++ [WithTimeout v])
        = mkScanner (target s) (startPort s) (endPort s) (threads s) v
                    (showProgress s) (ctx s))
  /\ (forall options v,
        let s := NewScanner options in
        NewScanner (options ++ [WithProgress v])
        = mkScanner (target s) (startPort s) (endPort s) (threads s) (timeout s)
                    v (ctx s))
  /\ (forall options v,
        let s := NewScanner options in
        NewScanner (options ++ [WithContext v])
        = mkScanner (target s) (startPort s) (endPort s) (threads s) (timeout s)
                    (showProgress s) v).
Proof.
  split; [reflexivity|].
  split; [intros s; by apply Background_never_done|].
  split; [apply NewScanner_snoc|].
  repeat split; intros; apply NewScanner_snoc.
Qed.

Lemma NewScanner_defaults_and_overrides_witness :
  ctxDone (state_after (NewScanner []) [LMain; LMain]) = None
  /\ NewScanner [WithThreads 7; WithTarget "a"; WithThreads 3]
     = mkScanner "a" 1 1024 3 1000000000 true Background.
Proof.
  destruct NewScanner_defaults_and_overrides as (_ & Hbg & _ & _ & _ & Hthreads & _).
  split.
  - apply Hbg. apply state_after_reachable. vm_compute. discriminate.
  - exact (Hthreads [WithThreads 7; WithTarget "a"] 3).
Defined.

(** ** [isPortOpen] *)

(** How [isPortOpen] classifies what the dial gives, test by test.  A
    successful dial gives [(true, nil)].  A failed dial whose error is a
    [net.Error] with [Timeout()] gives [(false, nil)], whatever [errors.Is]
    would say of it; otherwise an error that is [context.Canceled] or
    [context.DeadlineExceeded] for [errors.Is] is returned with [false]; any
    other failure gives [(false, nil)]. *)
Lemma isPortOpen_classification :
  isPortOpen DialOK = (true, None)
  /\ (forall err,
        is_net_error err = true -> net_timeout err = true ->
        isPortOpen (DialFail err) = (false, None))
  /\ (forall err,
        is_net_error err && net_timeout err = false ->
        is_canceled err = true \/ is_deadline_exceeded err = true ->
        isPortOpen (DialFail err) = (false, Some err))
  /\ (forall err,
        is_net_error err && net_timeout err = false ->
        is_canceled err = false -> is_deadline_exceeded err = false ->
        isPortOpen (DialFail err) = (false, None)).
Proof.
  split; [reflexivity|]. unfold isPortOpen.
  split; [|split].
  - intros err -> ->. reflexivity.
  - intros err -> [-> | ->]; [reflexivity|]. by rewrite orb_true_r.
  - intros err -> -> ->. reflexivity.
Qed.

(** A dial stopped by [cancel()]: not a timeout. *)
Definition errCanceled : NetError := mkNetError true false true false.

(** A dial that ran into a deadline, the context's or the dialer's: a
    timeout for [net.Error], and [context.DeadlineExceeded] for
    [errors.Is]. *)
Definition errDeadline : NetError := mkNetError true true false true.

(** Connection refused. *)
Definition errRefused : NetError := mkNetError true false false false.

(** C4.  Where the code departs from the claim.  The dial is ended by the
    deadline of the context: its error is a [net.Error] whose [Timeout()] is
    true, and [errors.Is] matches it with [context.DeadlineExceeded], the
    test [isPortOpen] makes under [// Check for cancellation].  The test of
    [Timeout()] comes first, so the probe answers [(false, nil)], the very
    answer it gives for a refused connection.  A dial ended by [cancel()]
    does come back as [(false, err)]. *)
Theorem isPortOpen_deadline_returns_nil :
  is_net_error errDeadline = true
  /\ net_timeout errDeadline = true
  /\ is_deadline_exceeded errDeadline = true
  /\ isPortOpen (DialFail errDeadline) = (false, None)
  /\ isPortOpen (DialFail errDeadline) <> (false, Some errDeadline)
  /\ isPortOpen (DialFail errDeadline) = isPortOpen (DialFail errRefused)
  /\ isPortOpen (DialFail errCanceled) = (false, Some errCanceled).
Proof. repeat split. discriminate. Qed.

(** ** The checks before a scan *)

Lemma validateAndScan_valid host a b n t sc :
  validateAndScan host a b n t = UIScan sc -> valid_range sc.
Proof.
  unfold validateAndScan, valid_range.
  destruct (Z.ltb_spec a 1), (Z.ltb_spec 65535 a), (Z.ltb_spec b 1),
    (Z.ltb_spec 65535 b), (Z.ltb_spec b a); simpl; intros Hsc; simplify_eq.
  simpl. lia.
Qed.

(** C2, as the code has it.  The port range is checked by the interactive
    caller, [handleUIScanCommand]: with an invalid range it prints a message
    and returns before a scanner is made, so before any probe, and a scanner
    it does make has a valid range.  The thread count and the timeout are
    passed on as they are.  [NewScanner] checks nothing, and neither does
    the range command. *)
Theorem port_range_checked_by_caller :
  (forall host a b n t,
      a < 1 \/ 65535 < a \/ b < 1 \/ 65535 < b \/ b < a ->
      exists message, validateAndScan host a b n t = UIRejected message)
  /\ (forall host a b n t,
        1 <= a -> a <= b -> b <= 65535 ->
        validateAndScan host a b n t
        = UIScan (mkScanner host a b n (GoInt.wrap64 (t * Time.Millisecond)) true
                            (Derived 0)))
  /\ (forall args sc, handleUIScanCommand args = UIScan sc -> valid_range sc)
  /\ (forall a b t,
        let sc := NewScanner [WithPortRange a b; WithTimeout t] in
        startPort sc = a /\ endPort sc = b /\ timeout sc = t)
  /\ (forall args host,
        let sc := rangeCommandScanner args host in
        startPort sc = argOr args 2 1 /\ endPort sc = argOr args 3 100).
Proof.
  split; [|split; [|split; [|split]]].
  - intros host a b n t H. unfold validateAndScan.
    destruct (Z.ltb_spec a 1), (Z.ltb_spec 65535 a), (Z.ltb_spec b 1),
      (Z.ltb_spec 65535 b), (Z.ltb_spec b a); simpl; eauto; lia.
  - intros host a b n t H1 H2 H3. unfold validateAndScan.
    destruct (Z.ltb_spec a 1), (Z.ltb_spec 65535 a), (Z.ltb_spec b 1),
      (Z.ltb_spec 65535 b), (Z.ltb_spec b a); simpl; try lia. reflexivity.
  - intros args sc. unfold handleUIScanCommand.
    destruct (length args <? 2)%nat; [discriminate|]. apply validateAndScan_valid.
  - intros a b t. simpl. done.
  - intros args host. simpl. done.
Qed.

Lemma port_range_checked_by_caller_witness :
  (exists message, validateAndScan "h" 0 10 4 500 = UIRejected message)
  /\ validateAndScan "h" 1 10 0 (-5)
     = UIScan (mkScanner "h" 1 10 0 (-5000000) true (Derived 0))
  /\ valid_range (mkScanner "h" 1 10 4 (-5000000) true (Derived 0)).
Proof.
  destruct port_range_checked_by_caller as (Hrej & Hok & Hui & _ & _).
  split; [|split].
  - apply (Hrej "h" 0 10 4 500). left. lia.
  - apply (Hok "h" 1 10 0 (-5)); lia.
  - apply (Hui ["scan"; "h"; "1"; "10"; "4"; "-5"]). reflexivity.
Defined.

(** The range command with the ports 0 to 0: a port outside 1-65535. *)
Definition scanBad : Scanner :=
  rangeCommandScanner ["range"; "10.0.0.1-10.0.0.1"; "0"; "0"; "1"] "10.0.0.1".

(** The scan command with a timeout of -5 ms. *)
Definition scanNegativeTimeout : Scanner := mkScanner "h" 1 10 1 (-5000000) true (Derived 0).

Definition first_probe : list Label :=
  [LMain; LMain; LMain; LMain; LMain; LFeederNext; LWorkerRecv 0; LWorkerProbe 0 DialOK].

(** C2 as stated fails: [Scan] does not reject a port range with port 0,
    which the range command passes on unchecked, nor a negative timeout,
    which the scan command passes on unchecked: in both scans a port is
    probed. *)
Lemma invalid_configuration_counterexample :
  ~ valid_range scanBad
  /\ probed (state_after scanBad first_probe) = [0]
  /\ handleUIScanCommand ["scan"; "h"; "1"; "10"; "1"; "-5"] = UIScan scanNegativeTimeout
  /\ timeout scanNegativeTimeout <= 0
  /\ probed (state_after scanNegativeTimeout first_probe) = [1].
Proof.
  split; [vm_compute; intros (H & _); by apply H|].
  split; [reflexivity|]. split; [reflexivity|].
  split; [simpl; lia | reflexivity].
Qed.

(** A reversed range of more than one port makes [make(chan int, n)] panic:
    the first step of [Scan] ends the program. *)
Example Scan_reversed_range_panics :
  option_map mainpc (run (NewScanner [WithPortRange 10 5]) [LMain] init) = Some MPanicked.
Proof. reflexivity. Qed.

(** ** [grabBanner] *)

Lemma prefix_LF c t :
  String.prefix (String GoString.LF EmptyString) (String c t) = Ascii.eqb GoString.LF c.
Proof.
  cbn [String.prefix]. destruct (ascii_dec GoString.LF c) as [<-|Hne].
  - rewrite Ascii.eqb_refl. by destruct t.
  - symmetry. by apply Ascii.eqb_neq.
Qed.

Lemma prefix_CRLF c t :
  String.prefix GoString.CRLF (String c t)
  = match t with
    | String d _ => Ascii.eqb GoString.CR c && Ascii.eqb GoString.LF d
    | EmptyString => false
    end.
Proof.
  unfold GoString.CRLF. cbn [String.prefix].
  destruct (ascii_dec GoString.CR c) as [<-|Hne].
  - rewrite Ascii.eqb_refl. destruct t as [|d t']; [reflexivity|].
    rewrite prefix_LF. reflexivity.
  - apply Ascii.eqb_neq in Hne. rewrite Hne. by destruct t.
Qed.

Definition dropCRLF (s : string) : string := GoString.ReplaceAll s GoString.CRLF " ".
Definition dropLF (s : string) : string :=
  GoString.ReplaceAll s (String GoString.LF EmptyString) " ".

Lemma dropLF_cons c t :
  dropLF (String c t) = String (if Ascii.eqb c GoString.LF then " "%char else c) (dropLF t).
Proof.
  unfold dropLF, GoString.ReplaceAll. cbn [GoString.replaceFrom].
  rewrite prefix_LF, (Ascii.eqb_sym GoString.LF c).
  destruct (Ascii.eqb c GoString.LF); reflexivity.
Qed.

Lemma dropCRLF_one c : dropCRLF (String c EmptyString) = String c EmptyString.
Proof.
  unfold dropCRLF, GoString.ReplaceAll. cbn [GoString.replaceFrom].
  rewrite prefix_CRLF. reflexivity.
Qed.

Lemma dropCRLF_two c d t :
  dropCRLF (String c (String d t))
  = if Ascii.eqb c GoString.CR && Ascii.eqb d GoString.LF
    then String " " (dropCRLF t)
    else String c (dropCRLF (String d t)).
Proof.
  unfold dropCRLF, GoString.ReplaceAll.
  change (GoString.replaceFrom GoString.CRLF " " 0 (String c (String d t)))
    with (if String.prefix GoString.CRLF (String c (String d t))
          then " " +:+ GoString.replaceFrom GoString.CRLF " " 0 t
          else String c (GoString.replaceFrom GoString.CRLF " " 0 (String d t))).
  rewrite prefix_CRLF, (Ascii.eqb_sym GoString.CR c), (Ascii.eqb_sym GoString.LF d).
  destruct (Ascii.eqb c GoString.CR && Ascii.eqb d GoString.LF); reflexivity.
Qed.

Lemma lineBreaksToSpaces_one c :
  GoString.lineBreaksToSpaces (String c EmptyString)
  = String (if Ascii.eqb c GoString.LF then " "%char else c) EmptyString.
Proof. cbn [GoString.lineBreaksToSpaces]. destruct (Ascii.eqb c GoString.LF); reflexivity. Qed.

Lemma lineBreaksToSpaces_two c d t :
  GoString.lineBreaksToSpaces (String c (String d t))
  = if Ascii.eqb c GoString.LF
    then String " " (GoString.lineBreaksToSpaces (String d t))
    else if Ascii.eqb c GoString.CR && Ascii.eqb d GoString.LF
         then String " " (GoString.lineBreaksToSpaces t)
         else String c (GoString.lineBreaksToSpaces (String d t)).
Proof. reflexivity. Qed.

(** The two calls of [ReplaceAll] do what the spec says. *)
Lemma ReplaceAll_line_breaks s :
  GoString.ReplaceAll (GoString.ReplaceAll s GoString.CRLF " ")
                      (String GoString.LF EmptyString) " "
  = GoString.lineBreaksToSpaces s.
Proof.
  change (dropLF (dropCRLF s) = GoString.lineBreaksToSpaces s).
  assert (H : forall s,
             dropLF (dropCRLF s) = GoString.lineBreaksToSpaces s
             /\ forall c, dropLF (dropCRLF (String c s))
                          = GoString.lineBreaksToSpaces (String c s)).
  { clear s. induction s as [|d t [IHt IHdt]].
    - split; [reflexivity|]. intros c.
      by rewrite dropCRLF_one, dropLF_cons, lineBreaksToSpaces_one.
    - split; [apply IHdt|]. intros c.
      rewrite dropCRLF_two, lineBreaksToSpaces_two.
      destruct (Ascii.eqb c GoString.LF) eqn:HcLF.
      + apply Ascii.eqb_eq in HcLF. subst c.
        change (Ascii.eqb GoString.LF GoString.CR) with false. cbn [andb].
        rewrite dropLF_cons, Ascii.eqb_refl. f_equal. apply IHdt.
      + destruct (Ascii.eqb c GoString.CR && Ascii.eqb d GoString.LF).
        * rewrite dropLF_cons. change (Ascii.eqb " " GoString.LF) with false.
          f_equal. apply IHt.
        * rewrite dropLF_cons, HcLF. f_equal. apply IHdt. }
  apply H.
Qed.

Lemma lineBreaksToSpaces_no_LF s : ~ GoString.occurs GoString.LF (GoString.lineBreaksToSpaces s).
Proof.
  assert (H : forall s,
             ~ GoString.occurs GoString.LF (GoString.lineBreaksToSpaces s)
             /\ forall c, ~ GoString.occurs GoString.LF
                            (GoString.lineBreaksToSpaces (String c s))).
  { clear s. induction s as [|d t [IHt IHdt]].
    - split; [intros []|]. intros c. rewrite lineBreaksToSpaces_one.
      destruct (Ascii.eqb c GoString.LF) eqn:E; intros [Hc|[]].
      + discriminate Hc.
      + subst c. by rewrite Ascii.eqb_refl in E.
    - split; [apply IHdt|]. intros c. rewrite lineBreaksToSpaces_two.
      destruct (Ascii.eqb c GoString.LF) eqn:E.
      + intros [Hc|Hc]; [discriminate Hc | by apply (IHdt d)].
      + destruct (Ascii.eqb c GoString.CR && Ascii.eqb d GoString.LF).
        * intros [Hc|Hc]; [discriminate Hc | by apply IHt].
        * intros [Hc|Hc]; [subst c; by rewrite Ascii.eqb_refl in E | by apply (IHdt d)]. }
  apply H.
Qed.

Lemma occurs_take c n s : GoString.occurs c (GoString.take n s) -> GoString.occurs c s.
Proof.
  revert s. induction n as [|n IH]; intros [|d t]; simpl; try tauto.
  intros [H|H]; [by left | right; by apply IH].
Qed.

Lemma occurs_append c s1 s2 :
  GoString.occurs c (s1 +:+ s2) <-> GoString.occurs c s1 \/ GoString.occurs c s2.
Proof. induction s1 as [|d t IH]; simpl; [tauto | rewrite IH; tauto]. Qed.

Lemma length_take n s : String.length (GoString.take n s) = Nat.min n (String.length s).
Proof. revert s. induction n as [|n IH]; intros [|d t]; simpl; try reflexivity. by rewrite IH. Qed.

Lemma length_append s1 s2 :
  String.length (s1 +:+ s2) = (String.length s1 + String.length s2)%nat.
Proof. induction s1 as [|d t IH]; simpl; [reflexivity | by rewrite IH]. Qed.

(** C7.  Whatever the network does, the banner [grabBanner] returns holds
    no line feed and at most 103 bytes, and is empty when an error is
    returned.  When there is no error it is the received bytes (at most
    1024) with every line break, CR LF or LF, turned into one space, cut to
    its first 100 bytes and followed by ["..."] exactly when it was longer
    than 100 bytes. *)
Theorem grabBanner_sanitized io port :
  ~ GoString.occurs GoString.LF (fst (grabBanner io port))
  /\ GoString.len (fst (grabBanner io port)) <= 103
  /\ (forall err, snd (grabBanner io port) = Some err -> fst (grabBanner io port) = "")
  /\ (snd (grabBanner io port) = None ->
      exists received,
        bio_read io = inr received
        /\ let cleaned := GoString.lineBreaksToSpaces (GoString.take 1024 received) in
           (GoString.len cleaned <= 100 -> fst (grabBanner io port) = cleaned)
           /\ (100 < GoString.len cleaned ->
               fst (grabBanner io port) = GoString.take 100 cleaned +:+ "..."
               /\ GoString.len (fst (grabBanner io port)) = 103)).
Proof.
  unfold grabBanner.
  assert (Herr : forall (err : NetError) (P : Prop),
             ~ GoString.occurs GoString.LF (fst (EmptyString, Some err))
             /\ GoString.len (fst (EmptyString, Some err)) <= 103
             /\ (forall err', snd (EmptyString, Some err) = Some err' ->
                              fst (EmptyString, Some err) = EmptyString)
             /\ (snd (EmptyString, Some err) = None -> P)).
  { intros err P. simpl. repeat split; [tauto | unfold GoString.len; simpl; lia | discriminate]. }
  destruct (bio_dial io); [|apply Herr].
  destruct (bio_deadline io); [apply Herr|].
  destruct (if (port =? 80) || (port =? 8080) then bio_write io else None);
    [apply Herr|].
  destruct (bio_read io) as [err|received]; [apply Herr|].
  rewrite ReplaceAll_line_breaks.
  set (cleaned := GoString.lineBreaksToSpaces (GoString.take 1024 received)).
  pose proof (lineBreaksToSpaces_no_LF (GoString.take 1024 received)) as HnoLF.
  fold cleaned in HnoLF. unfold GoString.len.
  destruct (Z.ltb_spec 100 (Z.of_nat (String.length cleaned))) as [Hlong|Hshort];
    cbn [fst snd].
  - assert (Hlen : String.length (GoString.take 100 cleaned +:+ "...") = 103%nat).
    { rewrite length_append, length_take.
      change (String.length "...") with 3%nat. lia. }
    repeat split.
    + rewrite occurs_append. intros [H|H].
      * by apply HnoLF, (occurs_take _ 100).
      * simpl in H. destruct H as [H|[H|[H|[]]]]; discriminate H.
    + lia.
    + discriminate.
    + exists received. split; [reflexivity|]. fold cleaned. cbv zeta.
      unfold GoString.len. split; [lia|]. intros _. split; [reflexivity | lia].
  - repeat split.
    + exact HnoLF.
    + lia.
    + discriminate.
    + exists received. split; [reflexivity|]. fold cleaned. cbv zeta.
      unfold GoString.len. split; [reflexivity | lia].
Qed.

Definition longLine : string :=
  "220 mail.example.org ESMTP ready; this server greets at some length, well beyond one hundred bytes, to be cut".

Lemma grabBanner_sanitized_witness :
  fst (grabBanner sshBanner 22) = "SSH-2.0-OpenSSH_8.9 "
  /\ fst (grabBanner (mkBannerIO DialOK None None (inr longLine)) 25)
     = GoString.take 100 longLine +:+ "...".
Proof.
  split.
  - destruct (grabBanner_sanitized sshBanner 22) as (_ & _ & _ & H).
    destruct (H eq_refl) as (received & Hr & Hshort & _).
    injection Hr as <-. apply Hshort. vm_compute. discriminate.
  - destruct (grabBanner_sanitized (mkBannerIO DialOK None None (inr longLine)) 25)
      as (_ & _ & _ & H).
    destruct (H eq_refl) as (received & Hr & _ & Hlong).
    injection Hr as <-. apply Hlong. vm_compute. reflexivity.
Defined.

(** A carriage return that no line feed follows is kept. *)
Example grabBanner_keeps_lone_CR :
  fst (grabBanner (mkBannerIO DialOK None None
                     (inr ("a" +:+ String GoString.CR "b"))) 21)
  = "a" +:+ String GoString.CR "b".
Proof. reflexivity. Qed.

(** ** [expandIPRange] *)

Lemma Atoi_in_range s v : Strconv.Atoi s = Some v -> GoInt.in_range v.
Proof.
  unfold Strconv.Atoi, GoInt.in_range. intros H.
  repeat case_match; simplify_eq;
    match goal with
    | H : _ && _ = true |- _ => apply andb_true_iff in H; destruct H as [?%Z.leb_le ?%Z.leb_le]
    end; lia.
Qed.

(** With [endOctet] the largest [int], [i <= endOctet] holds for every [i]:
    the loop does not end. *)
Lemma ipLoop_max_int fuel baseIP i ips :
  GoInt.in_range i -> ipLoop fuel baseIP i GoInt.max_int ips = None.
Proof.
  revert i ips. induction fuel as [|fuel IH]; intros i ips Hi; simpl; [reflexivity|].
  destruct (Z.leb_spec i GoInt.max_int) as [_|Hgt].
  - apply IH, wrap64_in_range.
  - unfold GoInt.in_range in Hi. lia.
Qed.

Lemma ipLoop_spec fuel baseIP i endOctet ips result :
  GoInt.in_range i -> GoInt.in_range endOctet ->
  ipLoop fuel baseIP i endOctet ips = Some result ->
  result = ips ++ ((fun k => baseIP +:+ Strconv.Itoa k) <$> seqZ i (endOctet - i + 1)).
Proof.
  intros Hi He. destruct (Z.eq_dec endOctet GoInt.max_int) as [->|Hne].
  { by rewrite ipLoop_max_int. }
  assert (Hlt : endOctet < GoInt.max_int) by (unfold GoInt.in_range in He; lia).
  clear He Hne. revert i ips Hi.
  induction fuel as [|fuel IH]; intros i ips Hi; simpl; [discriminate|].
  destruct (Z.leb_spec i endOctet) as [Hle|Hgt].
  - assert (Hw : GoInt.wrap64 (i + 1) = i + 1).
    { apply wrap64_id. unfold GoInt.in_range, GoInt.min_int, GoInt.max_int in *. lia. }
    rewrite Hw. intros H. apply IH in H.
    + rewrite H, <- app_assoc. f_equal.
      rewrite (seqZ_cons i (endOctet - i + 1)) by lia. csimpl. do 3 f_equal. lia.
    + unfold GoInt.in_range, GoInt.min_int, GoInt.max_int in *. lia.
  - intros [= <-]. rewrite seqZ_nil by lia. by rewrite app_nil_r.
Qed.

(** Enough fuel lets the loop end, unless [endOctet] is the largest [int]. *)
Lemma ipLoop_returns baseIP i endOctet ips :
  GoInt.in_range i -> endOctet < GoInt.max_int ->
  exists result, ipLoop (S (Z.to_nat (endOctet - i + 1))) baseIP i endOctet ips = Some result.
Proof.
  intros Hi Hlt.
  remember (Z.to_nat (endOctet - i + 1)) as n eqn:Hn.
  revert i ips Hi Hn. induction n as [|n IH]; intros i ips Hi Hn.
  - simpl. destruct (Z.leb_spec i endOctet); [lia | eauto].
  - cbn [ipLoop]. destruct (Z.leb_spec i endOctet) as [Hle|Hgt]; [|eauto].
    assert (Hw : GoInt.wrap64 (i + 1) = i + 1).
    { apply wrap64_id. unfold GoInt.in_range, GoInt.min_int, GoInt.max_int in *. lia. }
    rewrite Hw. apply IH; [|lia].
    unfold GoInt.in_range, GoInt.min_int, GoInt.max_int in *. lia.
Qed.

(** C9.  When [expandIPRange] succeeds, whatever [TrimSpace] removes, the
    two trimmed addresses have four dot-separated parts each and the same
    first three; the list has [endOctet - startOctet + 1] entries, and the
    entry at index [k] is these three parts followed by the decimal form of
    [startOctet + k].  No octet is compared with 255: the range from
    1.2.3.7 to 1.2.3.999 gives 993 addresses. *)
Theorem expandIPRange_success (TrimSpace : string -> string) :
  (forall fuel ipRange ips,
      expandIPRange TrimSpace fuel ipRange = Some (ips, None) ->
      exists part0 part1 s0 s1 s2 s3 e3 startOctet endOctet,
        GoString.Split ipRange "-" = [part0; part1]
        /\ GoString.Split (TrimSpace part0) "." = [s0; s1; s2; s3]
        /\ GoString.Split (TrimSpace part1) "." = [s0; s1; s2; e3]
        /\ Strconv.Atoi s3 = Some startOctet
        /\ Strconv.Atoi e3 = Some endOctet
        /\ startOctet <= endOctet
        /\ Z.of_nat (length ips) = endOctet - startOctet + 1
        /\ forall k : nat,
             (k < length ips)%nat ->
             ips !! k = Some ((s0 +:+ "." +:+ s1 +:+ "." +:+ s2 +:+ ".")
                              +:+ Strconv.Itoa (startOctet + Z.of_nat k)))
  /\ (exists ips,
        expandIPRange asciiTrimSpace 1000 "1.2.3.7-1.2.3.999" = Some (ips, None)
        /\ length ips = 993%nat
        /\ ips !! 0%nat = Some "1.2.3.7"
        /\ last ips = Some "1.2.3.999").
Proof.
  split.
  - intros fuel ipRange ips H. unfold expandIPRange in H.
    destruct (GoString.Split ipRange "-") as [|part0 [|part1 [|? ?]]] eqn:Hparts;
      try discriminate.
    destruct (GoString.Split (TrimSpace part0) ".") as [|s0 [|s1 [|s2 [|s3 [|? ?]]]]] eqn:Hs;
      try discriminate.
    destruct (GoString.Split (TrimSpace part1) ".") as [|e0 [|e1 [|e2 [|e3 [|? ?]]]]] eqn:He;
      try discriminate.
    destruct (Strconv.Atoi s3) as [startOctet|] eqn:Hso; [|discriminate].
    destruct (Strconv.Atoi e3) as [endOctet|] eqn:Heo; [|discriminate].
    destruct (String.eqb s0 e0) eqn:E0; [|discriminate].
    destruct (String.eqb s1 e1) eqn:E1; [|discriminate].
    destruct (String.eqb s2 e2) eqn:E2; [|discriminate].
    apply String.eqb_eq in E0, E1, E2. subst e0 e1 e2. cbn [negb orb] in H.
    destruct (Z.ltb_spec endOctet startOctet) as [Hlt|Hle]; [discriminate|].
    destruct (ipLoop fuel _ startOctet endOctet []) as [result|] eqn:Hloop; [|discriminate].
    injection H as <-.
    apply ipLoop_spec in Hloop; eauto using Atoi_in_range. simpl in Hloop. subst result.
    exists part0, part1, s0, s1, s2, s3, e3, startOctet, endOctet.
    repeat split; try done.
    + rewrite length_fmap, length_seqZ. lia.
    + intros k Hk. rewrite length_fmap, length_seqZ in Hk.
      by rewrite list_lookup_fmap, lookup_seqZ_lt by lia.
  - eexists. split; [vm_compute; reflexivity|]. vm_compute. repeat split.
Qed.

Lemma expandIPRange_success_witness :
  exists ips,
    expandIPRange asciiTrimSpace 10 " 10.0.0.254 - 10.0.0.256 " = Some (ips, None)
    /\ Z.of_nat (length ips) = 3
    /\ ips !! 2%nat = Some "10.0.0.256".
Proof.
  destruct (expandIPRange asciiTrimSpace 10 " 10.0.0.254 - 10.0.0.256 ")
    as [[ips [err|]]|] eqn:E; try (vm_compute in E; discriminate E).
  exists ips. split; [reflexivity|].
  destruct (proj1 (expandIPRange_success asciiTrimSpace) 10%nat
              " 10.0.0.254 - 10.0.0.256 " ips E)
    as (part0 & part1 & s0 & s1 & s2 & s3 & e3 & startOctet & endOctet
        & Hparts & Hs & He & Hso & Heo & Hle & Hlen & Hnth).
  vm_compute in Hparts. injection Hparts as <- <-.
  vm_compute in Hs. injection Hs as <- <- <- <-.
  vm_compute in He. injection He as <-.
  vm_compute in Hso. injection Hso as <-.
  vm_compute in Heo. injection Heo as <-.
  split; [exact Hlen|].
  assert (Hk : (2 < length ips)%nat) by lia.
  rewrite (Hnth 2%nat Hk). reflexivity.
Defined.

(** * Further properties *)

(** ** [Scan] and the dials

    The dials of a run are read off its schedule; the invariant below ties
    the ports on their way to the caller to the dials that succeeded. *)

(** The dial a step makes: the port the worker holds, with what the network
    answers. *)
Definition dial_of (l : Label) (s : State) : list (Z * DialResult) :=
  match l with
  | LWorkerProbe i dial =>
      match workers s !! i with
      | Some (WProbe port) => [(port, dial)]
      | _ => []
      end
  | _ => []
  end.

(** The dials of a run, in the order they are made. *)
Fixpoint dials (sc : Scanner) (schedule : list Label) (s : State)
  : list (Z * DialResult) :=
  match schedule with
  | [] => []
  | l :: rest =>
      match exec sc l s with
      | Some s' => dial_of l s ++ dials sc rest s'
      | None => []
      end
  end.

(** The ports on which a dial succeeded. *)
Definition answered (log : list (Z * DialResult)) : list Z :=
  omap (fun entry => match entry.2 with
                     | DialOK => Some entry.1
                     | DialFail _ => None
                     end) log.

Lemma dials_app sc l1 l2 s s1 :
  run sc l1 s = Some s1 -> dials sc (l1 ++ l2) s = dials sc l1 s ++ dials sc l2 s1.
Proof.
  revert s. induction l1 as [|l l1 IH]; intros s H; simpl in *.
  - by simplify_eq.
  - destruct (exec sc l s) as [s2|]; [|discriminate].
    by rewrite (IH s2 H), app_assoc.
Qed.

Lemma dials_snoc sc schedule l s s1 :
  run sc schedule s = Some s1 ->
  dials sc (schedule ++ [l]) s
  = dials sc schedule s ++ match exec sc l s1 with
                           | Some _ => dial_of l s1
                           | None => []
                           end.
Proof.
  intros H. rewrite (dials_app sc schedule [l] s s1 H). simpl.
  destruct (exec sc l s1); by rewrite ?app_nil_r.
Qed.

Lemma exec_dial sc l s s' :
  exec sc l s = Some s' ->
  match dial_of l s with
  | [] => probed s' = probed s
  | entry :: _ =>
      exists i, workers s !! i = Some (WProbe entry.1)
                /\ s' = probe_step i entry.2 entry.1 s
                /\ dial_of l s = [entry]
  end.
Proof.
  intros H. destruct l; simpl dial_of.
  all: try (unfold exec, main_step, chan_recv, chan_send, worker_exit, feeder_exit in H;
            repeat case_match; simplify_eq; reflexivity).
  unfold exec in H. destruct (workers s !! i) as [[]|] eqn:Hw.
  all: try (destruct (mainpc s); discriminate).
  exists i. simpl. destruct (mainpc s); simplify_eq; done.
Qed.

Lemma step_ctxDone sc s s' : step sc s s' -> ctxDone s' = None -> ctxDone s = None.
Proof.
  intros Hstep. destruct Hstep; destruct s; simpl in *; subst; simpl; congruence.
Qed.

(** Before the channels are made nothing is in them and no worker runs. *)
Lemma reachable_at_start sc s :
  reachable sc s -> mainpc s = MStart -> workers s = [] /\ buf (resultsCh s) = [].
Proof.
  revert s. apply (reachable_ind_step sc
    (fun s => mainpc s = MStart -> workers s = [] /\ buf (resultsCh s) = [])); [done|].
  intros s s' _ IH Hstep Hm.
  destruct Hstep; destruct s as [m0 ws0 f0 b0 p0 w0 pc0 rc0 d0 cx0 op0 pr0 bc0 out0];
    simpl in *; subst; simpl in *; simplify_eq;
    try (destruct (IH eq_refl) as [-> ->]); try done.
Qed.

(** A step that is not a dial reports no new port, and drops one only when
    the context is done. *)
Lemma reported_step sc s s' p :
  (mainpc s = MStart -> buf (resultsCh s) = []) ->
  step sc s s' -> probed s' = probed s ->
  (reported p s' <= reported p s)%nat
  /\ (ctxDone s' = None -> reported p s' = reported p s).
Proof.
  intros Hstart Hstep Hp.
  destruct Hstep; destruct s as [m0 ws0 f0 b0 p0 w0 pc0 rc0 d0 cx0 op0 pr0 bc0 out0];
    unfold reported, start_step in *; simpl in *; subst; simpl in *.
  all: try (rewrite (Hstart eq_refl)).
  all: try (apply (f_equal length) in Hp; rewrite length_app in Hp; simpl in Hp; lia).
  all: try (split; [lia | intros; lia]).
  all: try (count_facts p; repeat case_decide; subst; split; intros; try congruence; lia).
Qed.

Lemma reported_probe p i dial port s :
  workers s !! i = Some (WProbe port) ->
  reported p (probe_step i dial port s)
  = (reported p s + occ p (answered [(port, dial)]))%nat.
Proof.
  intros Hw.
  pose proof (sum_list_with_insert (holds_send p) (workers s) i (WProbe port)
                (probe_next dial port) Hw) as Hi.
  assert (Hn : holds_send p (probe_next dial port) = occ p (answered [(port, dial)])).
  { unfold probe_next, isPortOpen, answered, occ.
    destruct dial as [|err]; simpl; repeat case_match; simplify_eq; simpl; lia. }
  unfold reported, probe_step. simpl in *. lia.
Qed.

Lemma answered_app log1 log2 : answered (log1 ++ log2) = answered log1 ++ answered log2.
Proof. unfold answered. apply omap_app. Qed.

Lemma occ_app p l1 l2 : occ p (l1 ++ l2) = (occ p l1 + occ p l2)%nat.
Proof. unfold occ. apply sum_list_with_app. Qed.

Lemma all_exited_holds_send p ws :
  live_count ws = 0%nat -> sum_list_with (holds_send p) ws = 0%nat.
Proof.
  unfold live_count. induction ws as [|w ws IH]; simpl; [reflexivity|].
  destruct w; simpl; intros H; lia.
Qed.

(** Once the results are collected no worker is left. *)
Lemma post_collect_no_worker sc s :
  Inv sc s -> post_collect (mainpc s) = true -> live_count (workers s) = 0%nat.
Proof.
  intros HI Hm. destruct (inv_post sc s HI Hm) as [Hcl _].
  pose proof (inv_closed_wg sc s HI Hcl) as Hwg0.
  rewrite (inv_wg sc s HI) in Hwg0. lia.
Qed.

(** What the collected ports have to do with the dials made so far. *)
Record Heard (sc : Scanner) (log : list (Z * DialResult)) (s : State) : Prop := mkHeard {
  heard_probed : probed s = log.*1;
  heard_sound : forall p, (reported p s <= occ p (answered log))%nat;
  heard_exact : ctxDone s = None -> forall p, reported p s = occ p (answered log);
  heard_result :
    forall result, mainpc s = MReturned result None ->
                   forall p, occ p result = occ p (answered log)
}.

Lemma Heard_init sc : Heard sc [] init.
Proof. split; simpl; try done. Qed.

Lemma Heard_exec sc log l s s' :
  Inv sc s -> (mainpc s = MStart -> buf (resultsCh s) = []) ->
  Heard sc log s -> exec sc l s = Some s' ->
  Heard sc (log ++ dial_of l s) s'.
Proof.
  intros HI Hstart [Hpr Hsound Hexact Hres] He.
  pose proof (exec_step sc l s s' He) as Hstep.
  pose proof (exec_dial sc l s s' He) as Hd.
  destruct (dial_of l s) as [|[port dial] rest] eqn:Hdl.
  - rewrite app_nil_r.
    split.
    + congruence.
    + intros p. destruct (reported_step sc s s' p Hstart Hstep Hd) as [Hle _].
      specialize (Hsound p). lia.
    + intros Hcx p. destruct (reported_step sc s s' p Hstart Hstep Hd) as [_ Heq].
      rewrite (Heq Hcx). apply Hexact. by eapply step_ctxDone.
    + intros result Hm p.
      assert (Hret : mainpc s = MReturned result None
                     \/ (ctxDone s = None /\ mainpc s = MFinalSelect
                         /\ result = openPorts s)).
      { clear -Hstep Hm.
        destruct Hstep; destruct s; simpl in *; subst; simpl in *; simplify_eq;
          auto. }
      destruct Hret as [Hm0|Hret]; [by apply Hres|].
      destruct Hret as (Hcx & Hfin & ->).
      rewrite <- (Hexact Hcx p). unfold reported.
      assert (Hpost : post_collect (mainpc s) = true) by (by rewrite Hfin).
      destruct (inv_post sc s HI Hpost) as [_ Hbuf].
      rewrite Hbuf, (all_exited_holds_send p _ (post_collect_no_worker sc s HI Hpost)).
      change (occ p []) with 0%nat. lia.
  - destruct Hd as (i & Hw & -> & Heq). simpl in *. simplify_eq.
    split.
    + simpl. rewrite fmap_app, <- Hpr. reflexivity.
    + intros p. rewrite reported_probe, answered_app, occ_app by done.
      specialize (Hsound p). lia.
    + intros Hcx p. rewrite reported_probe, answered_app, occ_app by done.
      simpl in Hcx. rewrite (Hexact Hcx p). lia.
    + intros result Hm. simpl in Hm. exfalso.
      assert (Hpost : post_collect (mainpc s) = true) by (by rewrite Hm).
      pose proof (post_collect_no_worker sc s HI Hpost) as Hl.
      pose proof (live_count_lookup _ _ _ Hw eq_refl). lia.
Qed.

Lemma run_Heard sc schedule s :
  valid_range sc -> GoInt.in_range (threads sc) ->
  run sc schedule init = Some s -> Heard sc (dials sc schedule init) s.
Proof.
  intros Hv Ht. revert s. induction schedule as [|l schedule IH] using rev_ind; intros s H.
  - simpl in H. simplify_eq. apply Heard_init.
  - rewrite run_app in H. destruct (run sc schedule init) as [s1|] eqn:Hrun; [|discriminate].
    simpl in H. destruct (exec sc l s1) as [s2|] eqn:He; [|discriminate]. simplify_eq.
    rewrite (dials_snoc sc schedule l init s1 Hrun), He.
    assert (Hr : reachable sc s1)
      by (eapply run_reachable; [apply reachable_init|exact Hrun]).
    apply Heard_exec; [by apply reachable_Inv| |by apply IH|exact He].
    intros Hm. by destruct (reachable_at_start sc s1 Hr Hm).
Qed.

Lemma occ_Permutation l1 l2 : (forall p, occ p l1 = occ p l2) -> l1 ≡ₚ l2.
Proof.
  revert l2. induction l1 as [|x l1 IH]; intros l2 H.
  - destruct l2 as [|y l2]; [reflexivity|].
    specialize (H y). rewrite occ_cons, decide_True in H by done.
    change (occ y []) with 0%nat in H. lia.
  - assert (Hx : x ∈ l2).
    { apply occ_elem_of. rewrite <- H, occ_cons, decide_True by done. lia. }
    apply elem_of_Permutation in Hx as [k Hk]. rewrite Hk. constructor.
    apply IH. intros p. specialize (H p).
    assert (Hocc : occ p l2 = occ p (x :: k)).
    { unfold occ. by rewrite Hk. }
    rewrite Hocc, !occ_cons in H. lia.
Qed.

Lemma elem_of_answered p log : p ∈ answered log <-> (p, DialOK) ∈ log.
Proof.
  unfold answered. rewrite list_elem_of_omap. split.
  - intros ([port dial] & Hin & Hd). simpl in Hd. destruct dial; simplify_eq. exact Hin.
  - intros Hin. exists (p, DialOK). by split.
Qed.

(** Two workers, two ports, with the progress display and a context that
    can be cancelled; port 23 answers, port 22 refuses. *)
Definition scanPair : Scanner :=
  NewScanner [WithPortRange 22 23; WithThreads 2; WithContext (Derived 0)].

Definition scanPair_schedule : list Label :=
  [ LMain; LMain; LMain; LMain; LMain; LMain; LFeederNext; LFeederNext;
    LWorkerRecv 0; LWorkerRecv 1; LWorkerProbe 1 DialOK;
    LWorkerProbe 0 (DialFail errRefused); LWorkerSend 1; LMain;
    LGrabBanner noBanner; LFeederNext; LWorkerRecv 0; LWorkerRecv 1;
    LBarrier; LBarrier; LMain; LMain; LMain; LMain ].

Definition scanPair_done : State := state_after scanPair scanPair_schedule.

(** X1.  [Scan] reports no port that did not answer: in every run, cancelled
    or not, each port collected so far, and so each port returned, is a port
    on which a worker's dial succeeded; the ports passed to [isPortOpen] are
    those of the dials, in order. *)
Theorem Scan_collects_only_ports_that_answered sc schedule s :
  valid_range sc -> GoInt.in_range (threads sc) ->
  run sc schedule init = Some s ->
  probed s = (dials sc schedule init).*1
  /\ (forall port, port ∈ openPorts s -> (port, DialOK) ∈ dials sc schedule init)
  /\ (forall result err,
        mainpc s = MReturned result err ->
        forall port, port ∈ result -> (port, DialOK) ∈ dials sc schedule init).
Proof.
  intros Hv Ht Hrun.
  destruct (run_Heard sc schedule s Hv Ht Hrun) as [Hpr Hsound _ _].
  assert (Hopen : forall port,
             port ∈ openPorts s -> (port, DialOK) ∈ dials sc schedule init).
  { intros port Hin. apply elem_of_answered, occ_elem_of.
    apply occ_elem_of in Hin. specialize (Hsound port). unfold reported in Hsound. lia. }
  split; [exact Hpr|]. split; [exact Hopen|].
  intros result err Hm port Hin. apply Hopen.
  assert (Hr : reachable sc s) by (eapply run_reachable; [apply reachable_init|exact Hrun]).
  pose proof (reachable_banner_inv sc s Hr) as [_ Hb]. rewrite Hm in Hb.
  destruct Hb as [<- _]. exact Hin.
Qed.

Lemma Scan_collects_only_ports_that_answered_witness :
  valid_range scanPair /\ GoInt.in_range (threads scanPair)
  /\ run scanPair scanPair_schedule init = Some scanPair_done
  /\ mainpc scanPair_done = MReturned [23] None
  /\ (23, DialOK) ∈ dials scanPair scanPair_schedule init.
Proof.
  assert (Hv : valid_range scanPair) by (unfold valid_range; simpl; lia).
  assert (Ht : GoInt.in_range (threads scanPair)) by (vm_compute; split; discriminate).
  assert (Hrun : run scanPair scanPair_schedule init = Some scanPair_done)
    by (vm_compute; reflexivity).
  assert (Hm : mainpc scanPair_done = MReturned [23] None) by (vm_compute; reflexivity).
  destruct (Scan_collects_only_ports_that_answered scanPair scanPair_schedule
              scanPair_done Hv Ht Hrun) as (_ & _ & Hres).
  split; [exact Hv|]. split; [exact Ht|]. split; [exact Hrun|]. split; [exact Hm|].
  apply (Hres [23] None Hm 23). apply list_elem_of_In. simpl. tauto.
Defined.

(** X2.  A scan that is not cancelled finds every open port: when [Scan]
    returns without an error, what it returns is, up to order, the list of
    the ports on which a dial succeeded; and with at least one worker every
    port of the range was dialled exactly once. *)
Theorem Scan_returns_exactly_the_ports_that_answered sc schedule s result :
  valid_range sc -> GoInt.in_range (threads sc) ->
  run sc schedule init = Some s -> mainpc s = MReturned result None ->
  result ≡ₚ answered (dials sc schedule init)
  /\ (forall port, port ∈ result <-> (port, DialOK) ∈ dials sc schedule init)
  /\ (1 <= threads sc ->
      (dials sc schedule init).*1
      ≡ₚ seqZ (startPort sc) (endPort sc - startPort sc + 1)).
Proof.
  intros Hv Ht Hrun Hm.
  destruct (run_Heard sc schedule s Hv Ht Hrun) as [Hpr _ _ Hres].
  assert (Hperm : result ≡ₚ answered (dials sc schedule init))
    by (apply occ_Permutation, (Hres result Hm)).
  split; [exact Hperm|]. split.
  - intros port. by rewrite Hperm, elem_of_answered.
  - intros Hone. rewrite <- Hpr.
    assert (Hr : reachable sc s)
      by (eapply run_reachable; [apply reachable_init|exact Hrun]).
    eapply full_probe_Permutation, full_probe_returned; eauto.
Qed.

Lemma Scan_returns_exactly_the_ports_that_answered_witness :
  valid_range scanPair /\ GoInt.in_range (threads scanPair)
  /\ run scanPair scanPair_schedule init = Some scanPair_done
  /\ mainpc scanPair_done = MReturned [23] None
  /\ [23] ≡ₚ answered (dials scanPair scanPair_schedule init)
  /\ (dials scanPair scanPair_schedule init).*1 ≡ₚ seqZ 22 2.
Proof.
  assert (Hv : valid_range scanPair) by (unfold valid_range; simpl; lia).
  assert (Ht : GoInt.in_range (threads scanPair)) by (vm_compute; split; discriminate).
  assert (Hrun : run scanPair scanPair_schedule init = Some scanPair_done)
    by (vm_compute; reflexivity).
  assert (Hm : mainpc scanPair_done = MReturned [23] None) by (vm_compute; reflexivity).
  destruct (Scan_returns_exactly_the_ports_that_answered scanPair scanPair_schedule
              scanPair_done [23] Hv Ht Hrun Hm) as (Hperm & _ & Hall).
  split; [exact Hv|]. split; [exact Ht|]. split; [exact Hrun|]. split; [exact Hm|].
  split; [exact Hperm|]. apply Hall. simpl. lia.
Defined.

Lemma closed_cases (ch : Chan) (P : Prop) :
  (closed ch = true -> P) -> closed ch = false \/ P.
Proof. destruct (closed ch); auto. Qed.

(** X3.  Over a valid port range [Scan] hits none of the run-time panics
    of channels and wait groups.  In every state of a scan over a valid
    range: [make] was given a size of at least 1 and the caller has not
    panicked; a worker that has not returned, and so may still send, finds
    [results] open; the feeder in its loop finds [ports] open, which it
    alone closes, on its return; [results] and [done] are open when the
    goroutine that closes them gets there; and the wait-group counter is the
    number of workers that have not returned, so no [wg.Done()] makes it
    negative. *)
Theorem Scan_never_misuses_channels_or_wait_group sc s :
  valid_range sc -> GoInt.in_range (threads sc) -> reachable sc s ->
  (forall i w, workers s !! i = Some w -> w <> WExited -> closed (resultsCh s) = false)
  /\ (forall port, feeder s = FLoop port -> closed (portsCh s) = false)
  /\ (barrier s = BWait -> closed (resultsCh s) = false)
  /\ (barrier s = BWait \/ barrier s = BCloseDone -> doneClosed s = false)
  /\ wg s = Z.of_nat (live_count (workers s))
  /\ (forall i w, workers s !! i = Some w -> w <> WExited -> 1 <= wg s)
  /\ 1 <= chanSize sc
  /\ mainpc s <> MPanicked.
Proof.
  intros Hv Ht Hr. pose proof (reachable_Inv sc s Hv Ht Hr) as HI.
  assert (Hlive : forall i w, workers s !! i = Some w -> w <> WExited -> 1 <= wg s).
  { intros i w Hw Hne. rewrite (inv_wg sc s HI).
    assert (live w = true) by (by destruct w).
    pose proof (live_count_lookup _ _ _ Hw H). lia. }
  split; [|split; [|split; [|split; [|split; [exact (inv_wg sc s HI) |
    split; [exact Hlive | split; [by apply chanSize_valid | exact (inv_alive sc s HI)]]]]]]].
  - intros i w Hw Hne. specialize (Hlive i w Hw Hne).
    destruct (closed (resultsCh s)) eqn:Hc; [|reflexivity].
    pose proof (inv_closed_wg sc s HI Hc). lia.
  - intros port Hf. destruct (closed (portsCh s)) eqn:Hc; [|reflexivity].
    apply (inv_ports_closed sc s HI) in Hc. congruence.
  - intros Hb. destruct (closed (resultsCh s)) eqn:Hc; [|reflexivity].
    apply (inv_results_closed sc s HI) in Hc. destruct Hc; congruence.
  - intros Hb. destruct (doneClosed s) eqn:Hd; [|reflexivity].
    apply (inv_done sc s HI) in Hd. destruct Hb; congruence.
Qed.

(** The worker of [scanPair] that holds port 23, about to send it. *)
Definition scanPair_sending : State := state_after scanPair (take 12 scanPair_schedule).

Lemma Scan_never_misuses_channels_or_wait_group_witness :
  valid_range scanPair /\ GoInt.in_range (threads scanPair)
  /\ reachable scanPair scanPair_sending
  /\ workers scanPair_sending !! 1%nat = Some (WSend 23)
  /\ closed (resultsCh scanPair_sending) = false
  /\ wg scanPair_sending = 2.
Proof.
  assert (Hv : valid_range scanPair) by (unfold valid_range; simpl; lia).
  assert (Ht : GoInt.in_range (threads scanPair)) by (vm_compute; split; discriminate).
  assert (Hr : reachable scanPair scanPair_sending)
    by (apply state_after_reachable; vm_compute; discriminate).
  assert (Hw : workers scanPair_sending !! 1%nat = Some (WSend 23))
    by (vm_compute; reflexivity).
  destruct (Scan_never_misuses_channels_or_wait_group scanPair scanPair_sending Hv Ht Hr)
    as (Hopen & _ & _ & _ & Hwg & _).
  split; [exact Hv|]. split; [exact Ht|]. split; [exact Hr|]. split; [exact Hw|].
  split; [exact (Hopen 1%nat (WSend 23) Hw ltac:(discriminate))|].
  rewrite Hwg. vm_compute. reflexivity.
Defined.

(** ** What a scan holds at any time *)

(** The worker is inside [isPortOpen], which dials. *)
Definition probing (w : WorkerPC) : bool :=
  match w with
  | WProbe _ => true
  | _ => false
  end.

(** The caller is in the body of its collecting loop, where [grabBanner]
    dials. *)
Definition grabbing (m : MainPC) : bool :=
  match m with
  | MBanner _ => true
  | _ => false
  end.

(** The dials of the workers that are under way. *)
Definition probes_under_way (s : State) : nat :=
  length (filter (fun w => probing w = true) (workers s)).

(** All the dials of [Scan] that are under way: those of the workers and
    the one of the caller. *)
Definition dials_under_way (s : State) : nat :=
  (probes_under_way s + if grabbing (mainpc s) then 1 else 0)%nat.

Record Bounded (sc : Scanner) (s : State) : Prop := mkBounded {
  bnd_workers :
    match mainpc s with
    | MStart => workers s = []
    | MSpawnWorkers i => Z.of_nat (length (workers s)) = i /\ i <= Z.max 0 (threads sc)
    | _ => Z.of_nat (length (workers s)) <= Z.max 0 (threads sc)
    end;
  bnd_ports : Z.of_nat (length (buf (portsCh s))) <= cap (portsCh s);
  bnd_results : Z.of_nat (length (buf (resultsCh s))) <= cap (resultsCh s);
  bnd_cap : cap (portsCh s) <= chanSize sc /\ cap (resultsCh s) <= chanSize sc
}.

Lemma Bounded_step sc s s' :
  valid_range sc -> GoInt.in_range (threads sc) ->
  Bounded sc s -> step sc s s' -> Bounded sc s'.
Proof.
  intros Hv Ht [Hw Hp Hr Hc] Hstep.
  pose proof (chanSize_valid sc Hv) as Hsize.
  unfold GoInt.in_range, GoInt.min_int, GoInt.max_int in Ht.
  destruct Hstep; destruct s as [m0 ws0 f0 b0 p0 w0 pc0 rc0 d0 cx0 op0 pr0 bc0 out0];
    simpl in *; subst; simpl in *; try lia.
  all: split; unfold start_step in *; simpl in *; try assumption; try lia.
  all: try (rewrite wrap64_id
             by (unfold GoInt.in_range, GoInt.min_int, GoInt.max_int; lia)).
  all: try (rewrite length_app; simpl; lia).
  all: try (destruct m0; simpl in *; rewrite ?length_insert; subst; simpl in *;
            first [lia | done | by rewrite lookup_nil in *]).
  all: try match goal with
         | H : buf _ = _ :: _ |- _ => rewrite H in *; simpl in *; lia
         end.
  - subst. simpl. lia.
  - rewrite length_insert. lia.
Qed.

Lemma reachable_Bounded sc s :
  valid_range sc -> GoInt.in_range (threads sc) -> reachable sc s -> Bounded sc s.
Proof.
  intros Hv Ht. apply reachable_ind_step.
  - split; simpl; try done; try lia. pose proof (chanSize_valid sc Hv). lia.
  - intros s1 s2 _ HB Hs. by eapply Bounded_step.
Qed.

(** X4.  The concurrency limit and the bounded queues.  At any time of a scan
    over a valid range there are at most [threads] workers, and so at most
    [threads] dials of [isPortOpen] under way.  The caller dials too, in
    [grabBanner], while the workers go on: with it at most [threads + 1]
    dials are under way, and none when [threads <= 0].  The work queue and
    the result queue hold at most [min(portCount, 1000)] ports each. *)
Theorem Scan_respects_thread_limit_and_queue_bounds sc s :
  valid_range sc -> GoInt.in_range (threads sc) -> reachable sc s ->
  Z.of_nat (length (workers s)) <= Z.max 0 (threads sc)
  /\ Z.of_nat (probes_under_way s) <= Z.max 0 (threads sc)
  /\ Z.of_nat (dials_under_way s) <= Z.max 0 (threads sc) + 1
  /\ (threads sc <= 0 -> dials_under_way s = 0%nat)
  /\ Z.of_nat (length (buf (portsCh s))) <= Z.min (endPort sc - startPort sc + 1) 1000
  /\ Z.of_nat (length (buf (resultsCh s))) <= Z.min (endPort sc - startPort sc + 1) 1000.
Proof.
  intros Hv Ht Hr. destruct (reachable_Bounded sc s Hv Ht Hr) as [Hw Hp Hres [Hc1 Hc2]].
  assert (Hsize : chanSize sc = Z.min (endPort sc - startPort sc + 1) 1000).
  { destruct Hv as (H1 & H2 & H3). unfold chanSize, portCount.
    rewrite wrap64_id, min_spec; [reflexivity|].
    apply in_range_small. change (2 ^ 32) with 4294967296. lia. }
  assert (Hlen : Z.of_nat (length (workers s)) <= Z.max 0 (threads sc)).
  { destruct (mainpc s); try lia. rewrite Hw. simpl. lia. }
  assert (Hpr : (probes_under_way s <= length (workers s))%nat)
    by apply length_filter.
  split; [exact Hlen|]. split; [lia|]. split; [|split; [|lia]].
  - unfold dials_under_way. destruct (grabbing (mainpc s)); lia.
  - intros H0. destruct (reachable_NoWorkers sc s H0 Hr) as [Hnw _ _ _ _ _ Hnb].
    unfold dials_under_way, probes_under_way. rewrite Hnw. simpl.
    destruct (mainpc s) eqn:Hm; try reflexivity. by destruct (Hnb port).
Qed.

(** Two workers and three ports. *)
Definition scanTrio : Scanner :=
  NewScanner [WithPortRange 22 24; WithThreads 2; WithProgress false].

(** Port 22 has answered and the caller is about to grab its banner, while
    both workers are about to dial the next two ports. *)
Definition scanTrio_schedule : list Label :=
  [ LMain; LMain; LMain; LMain; LMain; LMain; LFeederNext; LWorkerRecv 0;
    LWorkerProbe 0 DialOK; LWorkerSend 0; LMain; LFeederNext; LFeederNext;
    LWorkerRecv 0; LWorkerRecv 1 ].

Definition scanTrio_dialling : State := state_after scanTrio scanTrio_schedule.

Lemma Scan_respects_thread_limit_and_queue_bounds_witness :
  valid_range scanTrio /\ GoInt.in_range (threads scanTrio)
  /\ reachable scanTrio scanTrio_dialling
  /\ mainpc scanTrio_dialling = MBanner 22
  /\ workers scanTrio_dialling = [WProbe 23; WProbe 24]
  /\ dials_under_way scanTrio_dialling = 3%nat
  /\ Z.of_nat (dials_under_way scanTrio_dialling) <= threads scanTrio + 1
  /\ Z.of_nat (length (buf (portsCh scanTrio_dialling))) <= 3.
Proof.
  assert (Hv : valid_range scanTrio) by (unfold valid_range; simpl; lia).
  assert (Ht : GoInt.in_range (threads scanTrio)) by (vm_compute; split; discriminate).
  assert (Hr : reachable scanTrio scanTrio_dialling)
    by (apply state_after_reachable; vm_compute; discriminate).
  destruct (Scan_respects_thread_limit_and_queue_bounds scanTrio scanTrio_dialling
              Hv Ht Hr) as (_ & _ & Hd & _ & Hp & _).
  split; [exact Hv|]. split; [exact Ht|]. split; [exact Hr|].
  split; [vm_compute; reflexivity|]. split; [vm_compute; reflexivity|].
  split; [vm_compute; reflexivity|]. split; [exact Hd | exact Hp].
Defined.

(** ** What is left when [Scan] returns *)











(** ** With one worker the ports come out in order *)

(** The port a worker holds. *)
Definition held (w : WorkerPC) : list Z :=
  match w with
  | WProbe port | WSend port => [port]
  | _ => []
  end.

(** The ports on their way, from the collected ones back to the feeder's
    next port. *)
Definition pipeline (sc : Scanner) (s : State) : list Z :=
  openPorts s ++ buf (resultsCh s) ++ flat_map held (workers s)
  ++ buf (portsCh s) ++ [fed sc s].

Definition increasing (l : list Z) : Prop := StronglySorted Z.lt l.

Lemma increasing_sublist l1 l2 : sublist l1 l2 -> increasing l2 -> increasing l1.
Proof.
  unfold increasing. intros Hsub. induction Hsub as [|x l1 l2 Hsub IH|x l1 l2 Hsub IH];
    intros H.
  - constructor.
  - apply StronglySorted_inv in H as [H1 H2]. constructor; [by apply IH|].
    rewrite Forall_forall in *. intros y Hy. apply H2.
    by eapply elem_of_sublist.
  - apply StronglySorted_inv in H as [H1 _]. by apply IH.
Qed.

Lemma increasing_snoc l p q : increasing (l ++ [p]) -> p < q -> increasing (l ++ [p; q]).
Proof.
  unfold increasing. induction l as [|x l IH]; simpl; intros H Hpq.
  - repeat constructor. exact Hpq.
  - apply StronglySorted_inv in H as [H1 H2]. constructor; [by apply IH|].
    rewrite Forall_forall in *. intros y Hy.
    apply elem_of_app in Hy as [Hy|Hy].
    + apply H2. apply elem_of_app. by left.
    + assert (x < p) by (apply H2, elem_of_app; right; by apply list_elem_of_singleton).
      apply elem_of_cons in Hy as [->|Hy]; [done|].
      apply list_elem_of_singleton in Hy as ->. lia.
Qed.

Lemma increasing_raise l p q : increasing (l ++ [p]) -> p <= q -> increasing (l ++ [q]).
Proof.
  unfold increasing. induction l as [|x l IH]; simpl; intros H Hpq.
  - repeat constructor.
  - apply StronglySorted_inv in H as [H1 H2]. constructor; [by apply IH|].
    rewrite Forall_forall in *. intros y Hy.
    apply elem_of_app in Hy as [Hy|Hy].
    + apply H2. apply elem_of_app. by left.
    + assert (x < p) by (apply H2, elem_of_app; right; by apply list_elem_of_singleton).
      apply list_elem_of_singleton in Hy as ->. lia.
Qed.

Record Ordered (sc : Scanner) (s : State) : Prop := mkOrdered {
  ord_pipeline : increasing (pipeline sc s)
}.

Ltac solve_sublist :=
  first [ reflexivity
        | apply sublist_nil_l
        | apply sublist_skip; solve_sublist
        | apply sublist_app; [reflexivity | solve_sublist]
        | apply sublist_inserts_l; solve_sublist
        | apply sublist_cons; solve_sublist ].

Lemma held_probe_next dial port :
  held (probe_next dial port) = [port] \/ held (probe_next dial port) = [].
Proof.
  unfold probe_next. destruct (isPortOpen dial) as [[] []]; simpl; auto.
Qed.

Lemma Ordered_step sc s s' :
  valid_range sc -> threads sc = 1 ->
  Inv sc s -> Bounded sc s -> Ordered sc s -> step sc s s' -> Ordered sc s'.
Proof.
  intros Hv Hone HI HB [Hord] Hstep.
  pose proof (chanSize_valid sc Hv) as Hsize. destruct Hv as (Hv1 & Hv2 & Hv3).
  assert (Hlen : (length (workers s) <= 1)%nat).
  { pose proof (bnd_workers sc s HB) as Hw. rewrite Hone in Hw.
    destruct (mainpc s); try lia. rewrite Hw. simpl. lia. }
  pose proof (inv_feeder_pos sc s HI) as Hfp.
  pose proof (inv_cap sc s HI) as Hcap.
  pose proof (inv_feeder sc s HI) as Hf.
  pose proof (bnd_workers sc s HB) as Hbw.
  clear HI HB.
  split. unfold pipeline, fed in *.
  destruct Hstep; destruct s as [m0 ws0 f0 b0 p0 w0 pc0 rc0 d0 cx0 op0 pr0 bc0 out0];
    simpl in *; subst; simpl in *.
  (* over a valid range no channel is unbuffered *)
  all: try match goal with
         | H : cap _ = 0 |- _ =>
             exfalso;
             assert (m0 <> MStart)
               by (intros ->; destruct Hf as [Hf' _]; specialize (Hf' eq_refl);
                   discriminate);
             destruct Hcap; [congruence | lia]
         | H : cap _ = 0 |- _ => exfalso; destruct Hcap; [congruence | lia]
         end.
  all: try assumption.
  (* the one worker *)
  all: try match goal with
         | H : ?ws !! ?i = Some _ |- _ =>
             destruct ws as [|w1 [|w2 ws]];
             [by rewrite lookup_nil in H | | simpl in Hlen; lia];
             destruct i as [|i]; [|by rewrite lookup_cons, lookup_nil in H];
             simpl in H; simplify_eq
         end.
  all: repeat match goal with
         | H : _ \/ _ |- _ => destruct H as [?|[? ?]]; subst
         end.
  all: repeat match goal with
         | H : buf _ = _ |- _ => rewrite H in *
         end.
  all: try match goal with
         | |- context [probe_next ?d ?q] =>
             destruct (held_probe_next d q) as [Hh|Hh]; simpl; rewrite Hh
         end.
  all: simpl in *; rewrite ?app_nil_r in *; rewrite <- ?app_assoc in *; simpl in *.
  all: try assumption.
  all: try (eapply increasing_sublist; [|exact Hord]; solve_sublist).
  - rewrite flat_map_app. simpl. by rewrite app_nil_r.
  - destruct Hf as [Hf _]. by rewrite (Hf eq_refl) in Hord.
  - specialize (Hfp port eq_refl). rewrite !app_assoc in *.
    eapply increasing_raise; [exact Hord | lia].
  - specialize (Hfp port eq_refl).
    rewrite wrap64_id by (apply in_range_small; change (2 ^ 32) with 4294967296; lia).
    rewrite !app_assoc in *.
    apply increasing_snoc; [exact Hord | lia].
  - specialize (Hfp port eq_refl). rewrite !app_assoc in *.
    eapply increasing_raise; [exact Hord | lia].
Qed.

Lemma reachable_Ordered sc s :
  valid_range sc -> threads sc = 1 -> reachable sc s -> Ordered sc s.
Proof.
  intros Hv Hone.
  assert (Ht : GoInt.in_range (threads sc)) by (rewrite Hone; by apply in_range_small).
  apply reachable_ind_step.
  - split. unfold pipeline, fed. simpl. repeat constructor.
  - intros s1 s2 Hr HO Hs.
    eapply Ordered_step; eauto using reachable_Inv, reachable_Bounded.
Qed.

(** X6.  With one worker the ports stay in the order the feeder sends them:
    the open ports collected so far, and so the result of [Scan], are in
    strictly increasing order.  (With more workers the order is that of the
    workers' reports.) *)
Theorem Scan_with_one_worker_returns_ports_in_order sc :
  valid_range sc -> threads sc = 1 ->
  (forall s, reachable sc s -> StronglySorted Z.lt (openPorts s))
  /\ (forall result err, Scan sc result err -> StronglySorted Z.lt result).
Proof.
  intros Hv Hone.
  assert (Hopen : forall s, reachable sc s -> StronglySorted Z.lt (openPorts s)).
  { intros s Hr. destruct (reachable_Ordered sc s Hv Hone Hr) as [Hord].
    eapply increasing_sublist; [|exact Hord]. unfold pipeline.
    apply sublist_inserts_r. reflexivity. }
  split; [exact Hopen|].
  intros result err (s & Hr & Hm)%Scan_reachable.
  pose proof (reachable_banner_inv sc s Hr) as [_ Hb]. rewrite Hm in Hb.
  destruct Hb as [-> _]. by apply Hopen.
Qed.

(** One worker, two ports, both open. *)
Definition scanOne : Scanner :=
  NewScanner [WithPortRange 22 23; WithThreads 1; WithProgress false].

Definition scanOne_schedule : list Label :=
  [ LMain; LMain; LMain; LMain; LMain; LFeederNext; LFeederNext;
    LWorkerRecv 0; LWorkerProbe 0 DialOK; LWorkerSend 0;
    LWorkerRecv 0; LWorkerProbe 0 DialOK; LWorkerSend 0;
    LMain; LGrabBanner noBanner; LMain; LGrabBanner noBanner;
    LFeederNext; LWorkerRecv 0; LBarrier; LBarrier; LMain; LMain; LMain; LMain ].

Lemma Scan_with_one_worker_returns_ports_in_order_witness :
  valid_range scanOne /\ threads scanOne = 1
  /\ Scan scanOne [22; 23] None /\ StronglySorted Z.lt [22; 23].
Proof.
  assert (Hv : valid_range scanOne) by (unfold valid_range; simpl; lia).
  assert (Hs : Scan scanOne [22; 23] None).
  { exists scanOne_schedule, (state_after scanOne scanOne_schedule).
    vm_compute. split; reflexivity. }
  split; [exact Hv|]. split; [reflexivity|]. split; [exact Hs|].
  exact (proj2 (Scan_with_one_worker_returns_ports_in_order scanOne Hv eq_refl)
           [22; 23] None Hs).
Defined.

(** ** A scan over a reversed range *)

Record Stillborn (s : State) : Prop := mkStillborn {
  sb_main : mainpc s = MStart \/ mainpc s = MPanicked;
  sb_workers : workers s = [];
  sb_feeder : feeder s = FNotStarted;
  sb_barrier : barrier s = BNotStarted;
  sb_probed : probed s = [];
  sb_open : openPorts s = []
}.

Lemma Stillborn_step sc s s' :
  chanSize sc < 0 -> Stillborn s -> step sc s s' -> Stillborn s'.
Proof.
  intros Hneg [Hm Hw Hf Hb Hp Ho] Hstep.
  destruct Hstep; destruct s as [m0 ws0 f0 b0 p0 w0 pc0 rc0 d0 cx0 op0 pr0 bc0 out0];
    simpl in *; subst; simpl in *;
    try (destruct Hm; discriminate); try lia; try discriminate;
    try (by rewrite lookup_nil in *).
  all: split; simpl; auto.
Qed.

Lemma reachable_Stillborn sc s : chanSize sc < 0 -> reachable sc s -> Stillborn s.
Proof.
  intros Hneg. apply reachable_ind_step; [by split; auto|].
  intros s1 s2 _ HS Hs. by eapply Stillborn_step.
Qed.

(** X7.  With [endPort - startPort + 1] negative, a reversed range of two
    ports or more, [Scan] panics in [make(chan int, n)] before anything else:
    no worker is started, no port is probed, and [Scan] does not return.  The
    range command, which passes its ports on unchecked, can start such a
    scan. *)
Theorem Scan_panics_on_negative_port_count sc :
  portCount sc < 0 ->
  exec sc LMain init = Some (set_mainpc MPanicked init)
  /\ (forall s, reachable sc s ->
        (mainpc s = MStart \/ mainpc s = MPanicked)
        /\ workers s = [] /\ probed s = [] /\ openPorts s = [])
  /\ (forall s, reachable sc s -> mainpc s = MStart ->
                exec sc LMain s = Some (set_mainpc MPanicked s))
  /\ (forall result err, ~ Scan sc result err).
Proof.
  intros Hneg.
  assert (Hsize : chanSize sc < 0).
  { unfold chanSize. rewrite min_spec. lia. }
  assert (Hpanic : forall s, mainpc s = MStart ->
                             exec sc LMain s = Some (set_mainpc MPanicked s)).
  { intros s Hm. unfold exec, main_step. rewrite Hm.
    by destruct (Z.ltb_spec (chanSize sc) 0); [|lia]. }
  assert (Hsb : forall s, reachable sc s -> Stillborn s).
  { apply reachable_ind_step; [by split; auto|].
    intros s1 s2 _ HS Hs. by eapply Stillborn_step. }
  split; [by apply Hpanic|]. split; [|split].
  - intros s Hr. by destruct (Hsb s Hr).
  - intros s _ Hm. by apply Hpanic.
  - intros result err (s & Hr & Hm)%Scan_reachable.
    destruct (Hsb s Hr) as [[H|H] _ _ _ _ _]; congruence.
Qed.

(** The range command with the ports 10 to 5. *)
Definition scanReversed : Scanner :=
  rangeCommandScanner ["range"; "10.0.0.1-10.0.0.9"; "10"; "5"] "10.0.0.1".

Lemma Scan_panics_on_negative_port_count_witness :
  portCount scanReversed < 0
  /\ option_map mainpc (run scanReversed [LMain] init) = Some MPanicked
  /\ ~ Scan scanReversed [] None.
Proof.
  assert (H : portCount scanReversed < 0) by (vm_compute; reflexivity).
  destruct (Scan_panics_on_negative_port_count scanReversed H) as (Hp & _ & _ & Hnever).
  split; [exact H|]. split; [|apply Hnever].
  unfold run. rewrite Hp. reflexivity.
Defined.

(** ** What [Scan] returns *)

(** C5, as the code has it.  Over a valid range, [Scan] returns: it has a
    run to its return, from every reachable state the goroutines can run on
    to the return, no run is longer than the measure of the initial state,
    and before the return some goroutine can always take a step; [Scan]
    never panics.  On the step where it returns, the result is the list of
    open ports collected so far and the error is non-nil exactly when the
    context is done.  Whatever the error, each returned port is one on which
    a dial of this run succeeded: the partial result.  Without an error the
    result is, up to order, the list of the ports on which a dial succeeded,
    and with at least one worker every port of the range was dialled exactly
    once: the full result.  Without a worker no port is dialled and the
    result is empty. *)
Theorem Scan_returns_collected_ports_error_iff_cancelled sc :
  valid_range sc -> GoInt.in_range (threads sc) ->
  (exists result err, Scan sc result err)
  /\ (forall s, reachable sc s ->
     exists schedule s',
       Forall goroutine_label schedule /\ run sc schedule s = Some s' /\ returned s')
  /\ (forall schedule s,
        run sc schedule init = Some s -> (length schedule <= measure sc init)%nat)
  /\ (forall s, reachable sc s -> ~ returned s ->
        exists l s', goroutine_label l /\ exec sc l s = Some s')
  /\ (forall s, reachable sc s -> mainpc s <> MPanicked)
  /\ (forall s l s' result err,
        reachable sc s -> ~ returned s -> exec sc l s = Some s' ->
        mainpc s' = MReturned result err ->
        result = openPorts s /\ (err <> None <-> ctxDone s <> None))
  /\ (forall s result err,
        reachable sc s -> mainpc s = MReturned result err -> result = openPorts s)
  /\ (forall schedule s result err,
        run sc schedule init = Some s -> mainpc s = MReturned result err ->
        forall port, port ∈ result -> (port, DialOK) ∈ dials sc schedule init)
  /\ (forall schedule s result,
        run sc schedule init = Some s -> mainpc s = MReturned result None ->
        result ≡ₚ answered (dials sc schedule init)
        /\ (forall port, port ∈ result <-> (port, DialOK) ∈ dials sc schedule init)
        /\ (1 <= threads sc ->
            (dials sc schedule init).*1
            ≡ₚ seqZ (startPort sc) (endPort sc - startPort sc + 1)))
  /\ (threads sc <= 0 ->
      forall schedule s result err,
        run sc schedule init = Some s -> mainpc s = MReturned result err ->
        result = [] /\ dials sc schedule init = []).
Proof.
  intros Hv Ht.
  assert (Hres : forall s result err,
            reachable sc s -> mainpc s = MReturned result err -> result = openPorts s).
  { intros s result err Hr Hm. pose proof (reachable_banner_inv sc s Hr) as [_ Hb].
    rewrite Hm in Hb. tauto. }
  assert (Hrr : forall schedule s, run sc schedule init = Some s -> reachable sc s).
  { intros schedule s Hrun. eapply run_reachable; [apply reachable_init|exact Hrun]. }
  split.
  { destruct (can_return sc init Hv Ht (reachable_init sc))
      as (schedule & s & _ & Hrun & Hret).
    unfold returned in Hret.
    destruct (mainpc s) as [| | | | | | | | |result err|] eqn:Hm; try done.
    by exists result, err, schedule, s. }
  split; [intros s Hr; by apply can_return|].
  split.
  { intros schedule s Hrun.
    pose proof (run_bounded sc schedule init s Hv Ht (reachable_init sc) Hrun). lia. }
  split; [intros s Hr Hnr; apply can_step; [by apply reachable_Inv | exact Hnr]|].
  split; [intros s Hr; apply (inv_alive sc s); by apply reachable_Inv|].
  split.
  { intros s l s' result err Hr Hnr He Hm.
    eapply return_step_inv; eauto using exec_step. }
  split; [exact Hres|].
  split; [|split].
  - intros schedule s result err Hrun Hm port Hin.
    destruct (run_Heard sc schedule s Hv Ht Hrun) as [_ Hsound _ _].
    rewrite (Hres s result err (Hrr schedule s Hrun) Hm) in Hin.
    apply elem_of_answered, occ_elem_of. apply occ_elem_of in Hin.
    specialize (Hsound port). unfold reported in Hsound. lia.
  - intros schedule s result Hrun Hm.
    destruct (run_Heard sc schedule s Hv Ht Hrun) as [Hpr _ _ Hexact].
    assert (Hperm : result ≡ₚ answered (dials sc schedule init))
      by (apply occ_Permutation, (Hexact result Hm)).
    split; [exact Hperm|]. split.
    + intros port. by rewrite Hperm, elem_of_answered.
    + intros Hone. rewrite <- Hpr.
      eapply full_probe_Permutation, full_probe_returned; eauto.
  - intros H0 schedule s result err Hrun Hm.
    pose proof (Hrr schedule s Hrun) as Hr.
    destruct (reachable_NoWorkers sc s H0 Hr) as [_ _ Hp Ho _ _ _].
    split; [by rewrite (Hres s result err Hr Hm)|].
    destruct (run_Heard sc schedule s Hv Ht Hrun) as [Hpr _ _ _].
    rewrite Hp in Hpr. symmetry in Hpr. by apply fmap_nil_inv in Hpr.
Qed.

Lemma Scan_returns_collected_ports_error_iff_cancelled_witness :
  valid_range scanPair /\ GoInt.in_range (threads scanPair)
  /\ (exists schedule s',
        Forall goroutine_label schedule
        /\ run scanPair schedule scanPair_sending = Some s' /\ returned s')
  /\ mainpc scanPair_sending <> MPanicked
  /\ run scanPair scanPair_schedule init = Some scanPair_done
  /\ mainpc scanPair_done = MReturned [23] None
  /\ [23] ≡ₚ answered (dials scanPair scanPair_schedule init)
  /\ (dials scanPair scanPair_schedule init).*1 ≡ₚ seqZ 22 2.
Proof.
  assert (Hv : valid_range scanPair) by (unfold valid_range; simpl; lia).
  assert (Ht : GoInt.in_range (threads scanPair)) by (vm_compute; split; discriminate).
  assert (Hr : reachable scanPair scanPair_sending)
    by (apply state_after_reachable; vm_compute; discriminate).
  assert (Hrun : run scanPair scanPair_schedule init = Some scanPair_done)
    by (vm_compute; reflexivity).
  assert (Hm : mainpc scanPair_done = MReturned [23] None) by (vm_compute; reflexivity).
  destruct (Scan_returns_collected_ports_error_iff_cancelled scanPair Hv Ht)
    as (_ & Hcan & _ & _ & Hlive & _ & _ & _ & Hfull & _).
  destruct (Hfull scanPair_schedule scanPair_done [23] Hrun Hm) as (Hperm & _ & Hall).
  split; [exact Hv|]. split; [exact Ht|].
  split; [exact (Hcan scanPair_sending Hr)|].
  split; [exact (Hlive scanPair_sending Hr)|].
  split; [exact Hrun|]. split; [exact Hm|]. split; [exact Hperm|].
  apply Hall. simpl. lia.
Defined.

(** The scan command with no worker: ports 1 to 10, [threads] 0. *)
Definition scanIdle : Scanner :=
  mkScanner "h" 1 10 0 500000000 true (Derived 0).

Definition scanIdle_schedule : list Label :=
  [LMain; LMain; LMain; LMain] ++ replicate 10 LFeederNext
  ++ [LFeederNext; LBarrier; LBarrier; LMain; LMain; LMain; LMain].

(** C5 as stated fails.  [Scan] does not always return: on the reversed
    range 10 to 5, which the range command passes on, it panics on its first
    step and no run returns anything.  And a result without an error is not
    always the full one: the scan command starts this scan of the ports 1 to
    10 without a worker, and [Scan] returns the empty list and a nil error
    after a run in which no port was dialled. *)
Lemma Scan_panic_and_undialled_result_counterexample :
  run scanReversed [LMain] init = Some (set_mainpc MPanicked init)
  /\ (forall result err, ~ Scan scanReversed result err)
  /\ handleUIScanCommand ["scan"; "h"; "1"; "10"; "0"] = UIScan scanIdle
  /\ valid_range scanIdle
  /\ Scan scanIdle [] None
  /\ option_map mainpc (run scanIdle scanIdle_schedule init) = Some (MReturned [] None)
  /\ dials scanIdle scanIdle_schedule init = [].
Proof.
  split; [reflexivity|]. split.
  { intros result err (s & Hr & Hm)%Scan_reachable.
    assert (Hneg : chanSize scanReversed < 0) by (vm_compute; reflexivity).
    destruct (reachable_Stillborn scanReversed s Hneg Hr) as [[H|H] _ _ _ _ _];
      congruence. }
  split; [reflexivity|].
  split; [unfold valid_range; simpl; lia|].
  split.
  { exists scanIdle_schedule, (state_after scanIdle scanIdle_schedule).
    vm_compute. split; reflexivity. }
  split; vm_compute; reflexivity.
Qed.

(** The goroutine holds the flag [scanInProgress]: it has set it and has
    not reset it yet. *)
Definition holds_flag (pc : WebPC) : bool :=
  match pc with
  | HParse _ | GScan _ | GReset => true
  | _ => false
  end.

Definition holders (sv : Server) : nat :=
  sum_list_with (fun pc => if holds_flag pc then 1%nat else 0%nat) (goroutines sv).

(** ** The web front end *)

Lemma webStartPort_range r : 1 <= webStartPort r <= 65535.
Proof.
  unfold webStartPort. destruct (Strconv.Atoi (FormValue r "start")) as [a|]; [|lia].
  destruct (Z.ltb_spec a 1), (Z.ltb_spec 65535 a); simpl; lia.
Qed.

Lemma webEndPort_range r : webStartPort r <= webEndPort r <= 65535.
Proof.
  pose proof (webStartPort_range r) as Hs. unfold webEndPort. cbv zeta.
  rewrite (wrap64_id (webStartPort r + 1000))
    by (apply in_range_small; change (2 ^ 32) with 4294967296; lia).
  assert (Hfb : webStartPort r
                <= (if 65535 <? webStartPort r + 1000 then 65535
                    else webStartPort r + 1000) <= 65535).
  { destruct (Z.ltb_spec 65535 (webStartPort r + 1000)); lia. }
  destruct (Strconv.Atoi (FormValue r "end")) as [b|]; [|exact Hfb].
  destruct (Z.ltb_spec b 1), (Z.ltb_spec 65535 b), (Z.ltb_spec b (webStartPort r));
    simpl; first [exact Hfb | lia].
Qed.

Lemma webScanner_valid r : valid_range (webScanner r).
Proof.
  unfold valid_range. simpl.
  pose proof (webStartPort_range r). pose proof (webEndPort_range r). lia.
Qed.

Lemma webThreads_range r : 10 <= webThreads r <= 500.
Proof.
  unfold webThreads. destruct (Strconv.Atoi (FormValue r "threads")) as [a|]; [|lia].
  destruct (Z.ltb_spec a 10), (Z.ltb_spec 500 a); simpl; lia.
Qed.

Lemma webTimeout_range r : 100 <= webTimeout r <= 10000.
Proof.
  unfold webTimeout. destruct (Strconv.Atoi (FormValue r "timeout")) as [a|]; [|lia].
  destruct (Z.ltb_spec a 100), (Z.ltb_spec 10000 a); simpl; lia.
Qed.

(** X8.  Whatever the form holds, the scanner the web handler makes can be
    scanned with: its port range is valid, it has between 10 and 500 threads,
    a timeout between 100 ms and 10 s and no progress display.  A number of
    the form that parses and is within its bounds is used as it is. *)
Theorem web_handler_makes_a_valid_scanner (r : Request) :
  let sc := webScanner r in
  valid_range sc
  /\ 10 <= threads sc <= 500
  /\ 100 * Time.Millisecond <= timeout sc <= 10000 * Time.Millisecond
  /\ showProgress sc = false
  /\ target sc = FormValue r "host"
  /\ (forall a, Strconv.Atoi (FormValue r "start") = Some a -> 1 <= a <= 65535 ->
                startPort sc = a)
  /\ (forall b, Strconv.Atoi (FormValue r "end") = Some b ->
                startPort sc <= b <= 65535 -> endPort sc = b)
  /\ (forall n, Strconv.Atoi (FormValue r "threads") = Some n -> 10 <= n <= 500 ->
                threads sc = n)
  /\ (forall t, Strconv.Atoi (FormValue r "timeout") = Some t -> 100 <= t <= 10000 ->
                timeout sc = t * Time.Millisecond).
Proof.
  cbv zeta. split; [apply webScanner_valid|]. simpl.
  pose proof (webStartPort_range r) as Hs. pose proof (webThreads_range r) as Hn.
  pose proof (webTimeout_range r) as Ht.
  assert (Hw : GoInt.wrap64 (webTimeout r * Time.Millisecond)
               = webTimeout r * Time.Millisecond).
  { apply wrap64_id. unfold Time.Millisecond. unfold GoInt.in_range, GoInt.min_int,
      GoInt.max_int. change (2 ^ 63) with 9223372036854775808. lia. }
  rewrite Hw. unfold Time.Millisecond.
  split; [exact Hn|]. split; [lia|]. split; [reflexivity|]. split; [reflexivity|].
  split; [|split; [|split]].
  - intros a Ha Hr. unfold webStartPort. rewrite Ha.
    destruct (Z.ltb_spec a 1), (Z.ltb_spec 65535 a); simpl; lia.
  - intros b Hb Hr. unfold webEndPort. cbv zeta. rewrite Hb.
    destruct (Z.ltb_spec b 1), (Z.ltb_spec 65535 b), (Z.ltb_spec b (webStartPort r));
      simpl; lia.
  - intros n Hn' Hr. unfold webThreads. rewrite Hn'.
    destruct (Z.ltb_spec n 10), (Z.ltb_spec 500 n); simpl; lia.
  - intros t Ht' Hr. unfold webTimeout. rewrite Ht'.
    destruct (Z.ltb_spec t 100), (Z.ltb_spec 10000 t); simpl; lia.
Qed.

(** A form with a reversed range, too many threads and no timeout. *)
Definition oddRequest : Request :=
  mkRequest "POST" false
    (list_to_map [("host", "10.0.0.1"); ("start", "65000"); ("end", "80");
                  ("threads", "100000")]).

Lemma web_handler_makes_a_valid_scanner_witness :
  valid_range (webScanner oddRequest)
  /\ webScanner oddRequest
     = mkScanner "10.0.0.1" 65000 65535 100 500000000 false (Derived 0).
Proof.
  destruct (web_handler_makes_a_valid_scanner oddRequest) as (Hv & _ & _ & _ & _ & Hs & _).
  split; [exact Hv|].
  pose proof (Hs 65000 ltac:(vm_compute; reflexivity) ltac:(lia)) as Hstart.
  vm_compute. reflexivity.
Defined.

(** *** One scan at a time *)

Lemma holders_insert sv i pc pc' :
  goroutines sv !! i = Some pc ->
  (sum_list_with (fun pc => if holds_flag pc then 1%nat else 0%nat)
     (<[i:=pc']> (goroutines sv))
   + (if holds_flag pc then 1 else 0)
   = holders sv + (if holds_flag pc' then 1 else 0))%nat.
Proof. apply sum_list_with_insert. Qed.

Lemma reachable_holders sv :
  webReachable sv -> holders sv = (if scanInProgress sv then 1%nat else 0%nat).
Proof.
  intros Hr.
  induction Hr as [|sv l sv' _ IH He]; [reflexivity|].
  unfold holders in *.
  destruct l as [r|i|i schedule io now elapsed|i|]; simpl in He.
  - simplify_eq. simpl. rewrite sum_list_with_app. simpl. lia.
  - destruct (goroutines sv !! i) as [[r|r|status|r| |]|] eqn:Hi; try discriminate.
    + pose proof (holders_insert sv i _ (HResponded StatusMethodNotAllowed) Hi) as H1.
      pose proof (holders_insert sv i _ (HResponded StatusConflict) Hi) as H2.
      pose proof (holders_insert sv i _ (HParse r) Hi) as H3.
      unfold holders in *.
      destruct (negb (Method r =? "POST")%string), (scanInProgress sv) eqn:Hf;
        simplify_eq; simpl in *; rewrite ?Hf; lia.
    + pose proof (holders_insert sv i _ (HResponded StatusBadRequest) Hi) as H1.
      pose proof (holders_insert sv i _ (HResponded StatusAccepted) Hi) as H2.
      unfold holders in *.
      destruct (parseFails r), (FormValue r "host" =? "")%string,
        (scanInProgress sv) eqn:Hf;
        simplify_eq; simpl in *; rewrite ?Hf, ?sum_list_with_app; simpl; lia.
  - destruct (goroutines sv !! i) as [[r|r|status|r| |]|] eqn:Hi; try discriminate.
    pose proof (holders_insert sv i _ GReset Hi) as H1. unfold holders in *.
    destruct (run (webScanner r) schedule init) as [s|]; [|discriminate].
    destruct (mainpc s); simplify_eq. simpl in *.
    destruct (scanInProgress sv); lia.
  - destruct (goroutines sv !! i) as [[r|r|status|r| |]|] eqn:Hi; try discriminate.
    pose proof (holders_insert sv i _ GDone Hi) as H1. unfold holders in *.
    simplify_eq. simpl in *. destruct (scanInProgress sv); lia.
  - simplify_eq. exact IH.
Qed.

(** X9.  [scanInProgress] is set exactly while one goroutine is between
    setting it and resetting it; so at most one goroutine of the server runs
    a scan at any time, and none when the flag is not set. *)
Theorem web_server_runs_one_scan_at_a_time sv :
  webReachable sv ->
  holders sv = (if scanInProgress sv then 1%nat else 0%nat)
  /\ (forall i j r r',
        goroutines sv !! i = Some (GScan r) -> goroutines sv !! j = Some (GScan r') ->
        i = j)
  /\ (forall i r, goroutines sv !! i = Some (GScan r) -> scanInProgress sv = true).
Proof.
  intros Hr.
  pose proof (reachable_holders sv Hr) as Hinv.
  split; [exact Hinv|]. split.
  - intros i j r r' Hi Hj. destruct (decide (i = j)) as [|Hne]; [done|exfalso].
    pose proof (holders_insert sv i _ GDone Hi) as H1. simpl in H1.
    assert (Hj' : <[i:=GDone]> (goroutines sv) !! j = Some (GScan r'))
      by (by rewrite list_lookup_insert_ne).
    pose proof (sum_list_with_lookup
                  (fun pc => if holds_flag pc then 1%nat else 0%nat) _ _ _ Hj') as H2.
    simpl in H2. destruct (scanInProgress sv); lia.
  - intros i r Hi.
    pose proof (sum_list_with_lookup
                  (fun pc => if holds_flag pc then 1%nat else 0%nat) _ _ _ Hi) as H2.
    simpl in H2. unfold holders in Hinv. destruct (scanInProgress sv); [reflexivity|lia].
Qed.

Fixpoint webRun (labels : list WebLabel) (sv : Server) : option Server :=
  match labels with
  | [] => Some sv
  | l :: rest =>
      match webExec l sv with
      | Some sv' => webRun rest sv'
      | None => None
      end
  end.

Lemma webRun_reachable labels sv sv' :
  webReachable sv -> webRun labels sv = Some sv' -> webReachable sv'.
Proof.
  revert sv. induction labels as [|l labels IH]; intros sv Hr H; simpl in H.
  - by simplify_eq.
  - destruct (webExec l sv) as [sv1|] eqn:He; [|discriminate].
    eapply IH; [|exact H]. by eapply webReachable_step.
Qed.

Definition scanRequest : Request :=
  mkRequest "POST" false (list_to_map [("host", "10.0.0.1"); ("start", "22"); ("end", "22")]).

(** Two requests arrive; the first is accepted and its scan started, the
    second is refused. *)
Definition twoRequests : list WebLabel :=
  [WArrive scanRequest; WArrive scanRequest; WHandler 0; WHandler 0; WHandler 1].

Definition busyServer : Server :=
  mkServer true [] [HResponded StatusAccepted; HResponded StatusConflict; GScan scanRequest].

Lemma web_server_runs_one_scan_at_a_time_witness :
  webReachable busyServer /\ holders busyServer = 1%nat.
Proof.
  assert (Hr : webReachable busyServer).
  { apply (webRun_reachable twoRequests server0); [constructor|]. vm_compute. reflexivity. }
  split; [exact Hr|].
  exact (proj1 (web_server_runs_one_scan_at_a_time busyServer Hr)).
Defined.

(** *** What the server stores *)

(** The ports collected by a scan over a valid range are distinct and lie
    in the range. *)
Lemma collected_distinct_in_range sc s :
  valid_range sc -> reachable sc s ->
  NoDup (openPorts s) /\ forall p, p ∈ openPorts s -> startPort sc <= p <= endPort sc.
Proof.
  intros Hv Hr.
  destruct (reachable_Accounting sc s Hv Hr) as [_ Hfed Honce Hrange Hrep].
  assert (Hprobed : forall p, (occ p (openPorts s) <= occ p (probed s))%nat).
  { intros p. specialize (Hrep p). unfold reported in Hrep. lia. }
  split.
  - apply occ_NoDup. intros p. specialize (Hprobed p). specialize (Honce p).
    unfold scheduled in Honce. lia.
  - intros p Hp. apply occ_elem_of in Hp. specialize (Hprobed p).
    specialize (Hrange p). unfold scheduled in Hrange. lia.
Qed.

Definition stored_ok (res : ScanResult) : Prop :=
  Host res <> ""
  /\ NoDup (Port <$> Ports res)
  /\ forall info, info ∈ Ports res ->
                  1 <= Port info <= 65535 /\ Service info = getServiceName (Port info).

Lemma webPortInfos_ports io openPorts err :
  Port <$> webPortInfos io openPorts err = match err with
                                           | None => openPorts
                                           | Some _ => []
                                           end.
Proof.
  unfold webPortInfos. destruct err; [reflexivity|].
  rewrite <- list_fmap_compose. apply list_fmap_id.
Qed.

Ltac other_goroutine :=
  match goal with
  | Hj : <[?i:=_]> _ !! ?j = Some _ |- _ =>
      destruct (decide (i = j)) as [->|?];
      [ apply list_lookup_insert_Some in Hj as [[_ [? _]]|[? _]]; done
      | rewrite list_lookup_insert_ne in Hj by done; eauto ]
  end.

(** A scan is started for a request that names a host only. *)
Lemma scanning_names_host sv i r :
  webReachable sv -> goroutines sv !! i = Some (GScan r) -> FormValue r "host" <> "".
Proof.
  intros Hr. revert i r.
  induction Hr as [|sv l sv' _ IH He]; [intros i r; simpl; by rewrite lookup_nil|].
  intros j r' Hj.
  destruct l as [r|i|i schedule io now elapsed|i|]; simpl in He.
  - simplify_eq. simpl in Hj. apply lookup_app_Some in Hj as [Hj|[_ Hj]]; [eauto|].
    destruct (j - length (goroutines sv))%nat as [|[|]]; discriminate.
  - destruct (goroutines sv !! i) as [[r|r|status|r| |]|] eqn:Hi; try discriminate.
    + destruct (negb (Method r =? "POST")%string), (scanInProgress sv);
        simplify_eq; simpl in Hj; other_goroutine.
    + destruct (parseFails r), (String.eqb_spec (FormValue r "host") "");
        simplify_eq; simpl in Hj.
      4: { apply lookup_app_Some in Hj as [Hj|[_ Hj]]; [other_goroutine|].
           destruct (j - _)%nat as [|[|]]; simpl in Hj; simplify_eq. done. }
      all: other_goroutine.
  - destruct (goroutines sv !! i) as [[r|r|status|r| |]|] eqn:Hi; try discriminate.
    destruct (run (webScanner r) schedule init) as [s|]; [|discriminate].
    destruct (mainpc s); simplify_eq. simpl in Hj. other_goroutine.
  - destruct (goroutines sv !! i) as [[r|r|status|r| |]|] eqn:Hi; try discriminate.
    simplify_eq. simpl in Hj. other_goroutine.
  - simplify_eq. eauto.
Qed.

(** X10.  Every result the server stores names a host, and lists distinct
    ports between 1 and 65535, each with the service name of the table; a
    scan that ended with an error, the deadline of two minutes included, is
    stored without any port. *)
Theorem web_server_stores_checked_results sv :
  webReachable sv ->
  (forall res, res ∈ scanResults sv -> stored_ok res)
  /\ (forall i r, goroutines sv !! i = Some (GScan r) -> FormValue r "host" <> "")
  /\ (forall io openPorts cause,
        webPortInfos io openPorts (Some cause) = []).
Proof.
  intros Hr. split; [|split; [|reflexivity]].
  2: { intros i r. by apply scanning_names_host. }
  induction Hr as [|sv l sv' Hr IH He]; [intros res Hin; by apply elem_of_nil in Hin|].
  intros res Hin.
  destruct l as [r|i|i schedule io now elapsed|i|]; simpl in He.
  - simplify_eq. eauto.
  - destruct (goroutines sv !! i) as [[r|r|status|r| |]|] eqn:Hi; try discriminate;
      repeat case_match; simplify_eq; eauto.
  - destruct (goroutines sv !! i) as [[r|r|status|r| |]|] eqn:Hi; try discriminate.
    destruct (run (webScanner r) schedule init) as [s|] eqn:Hrun; [|discriminate].
    destruct (mainpc s) as [| | | | | | | | |openPorts err|] eqn:Hm; simplify_eq.
    simpl in Hin. apply elem_of_cons in Hin as [->|Hin]; [|eauto].
    pose proof (scanning_names_host sv i r Hr Hi) as Hhost.
    assert (Hs : reachable (webScanner r) s)
      by (eapply run_reachable; [apply reachable_init|exact Hrun]).
    destruct (collected_distinct_in_range _ s (webScanner_valid r) Hs) as [Hnd Hin].
    pose proof (reachable_banner_inv _ s Hs) as [_ Hb]. rewrite Hm in Hb.
    destruct Hb as [-> _].
    split; [exact Hhost|]. simpl. rewrite webPortInfos_ports. split.
    + destruct err; [constructor | exact Hnd].
    + intros info Hinfo. unfold webPortInfos in Hinfo.
      destruct err; [by apply elem_of_nil in Hinfo|].
      apply list_elem_of_fmap in Hinfo as (p & -> & Hp). simpl.
      split; [|reflexivity].
      specialize (Hin p Hp). simpl in Hin.
      pose proof (webStartPort_range r). pose proof (webEndPort_range r). lia.
  - destruct (goroutines sv !! i) as [[r|r|status|r| |]|] eqn:Hi; try discriminate.
    simplify_eq. eauto.
  - simplify_eq. by apply elem_of_nil in Hin.
Qed.

(** The scan of the accepted request: ten workers, port 22 answers. *)
Definition tenThreads : Request :=
  mkRequest "POST" false
    (list_to_map [("host", "10.0.0.1"); ("start", "22"); ("end", "22"); ("threads", "10")]).

Definition tenThreads_schedule : list Label :=
  replicate 14 LMain
  ++ [LFeederNext; LWorkerRecv 0; LWorkerProbe 0 DialOK; LWorkerSend 0; LMain;
      LGrabBanner sshBanner; LFeederNext]
  ++ (LWorkerRecv <$> seq 0 10)
  ++ [LBarrier; LBarrier; LMain; LMain; LMain; LMain].

Definition storedResult : ScanResult :=
  mkScanResult "10.0.0.1" [mkPortInfo 22 "SSH" "SSH-2.0-OpenSSH_8.9 "] 1700000000 3.

Definition storedServer : Server :=
  mkServer false [storedResult] [HResponded StatusAccepted; GDone].

Lemma web_server_stores_checked_results_witness :
  webReachable storedServer /\ stored_ok storedResult.
Proof.
  assert (Hr : webReachable storedServer).
  { apply (webRun_reachable
             [WArrive tenThreads; WHandler 0; WHandler 0;
              WScanned 1 tenThreads_schedule (fun _ => sshBanner) 1700000000 3;
              WReset 1] server0); [constructor|].
    vm_compute. reflexivity. }
  split; [exact Hr|].
  apply (proj1 (web_server_stores_checked_results storedServer Hr)).
  apply list_elem_of_In. simpl. tauto.
Defined.

(** *** The flag is always reset *)

Lemma holder_exists ws :
  (1 <= sum_list_with (fun pc => if holds_flag pc then 1%nat else 0%nat) ws)%nat ->
  exists i pc, ws !! i = Some pc /\ holds_flag pc = true.
Proof.
  induction ws as [|a ws IH]; simpl; [lia|].
  destruct (holds_flag a) eqn:Ha.
  - intros _. exists 0%nat, a. by split.
  - intros H. destruct IH as (i & pc & Hi & Hpc); [exact H|].
    exists (S i), pc. by split.
Qed.

(** The goroutine of a scan can finish it and reset the flag. *)
Lemma scan_goroutine_finishes sv i r :
  goroutines sv !! i = Some (GScan r) ->
  exists labels sv', webRun labels sv = Some sv' /\ scanInProgress sv' = false.
Proof.
  intros Hi.
  pose proof (webScanner_valid r) as Hv.
  assert (Ht : GoInt.in_range (threads (webScanner r))).
  { apply in_range_small. pose proof (webThreads_range r) as H. simpl.
    change (2 ^ 32) with 4294967296. lia. }
  destruct (can_return (webScanner r) init Hv Ht (reachable_init _))
    as (schedule & s & _ & Hrun & Hret).
  unfold returned in Hret.
  destruct (mainpc s) as [| | | | | | | | |openPorts err|] eqn:Hm; try done.
  exists [WScanned i schedule (fun _ => noBanner) 0 0; WReset i]. eexists.
  simpl. rewrite Hi, Hrun, Hm. simpl.
  rewrite list_lookup_insert_eq by (by eapply lookup_lt_Some).
  split; reflexivity.
Qed.

Lemma webRun_cons l labels sv sv1 sv' :
  webExec l sv = Some sv1 -> webRun labels sv1 = Some sv' ->
  webRun (l :: labels) sv = Some sv'.
Proof. intros H1 H2. simpl. by rewrite H1. Qed.

(** X11.  The server does not stay busy.  Whatever has happened, the
    goroutine that holds [scanInProgress] can run on to its reset: a handler
    that finds a bad form resets it, and a scan, whose scanner is valid,
    returns, is stored and is followed by the deferred reset.  So from every
    state of the server a state with the flag not set can be reached. *)
Theorem web_server_can_always_become_idle sv :
  webReachable sv ->
  exists labels sv', webRun labels sv = Some sv' /\ scanInProgress sv' = false.
Proof.
  intros Hr.
  destruct (scanInProgress sv) eqn:Hflag; [|by exists [], sv].
  pose proof (reachable_holders sv Hr) as Hh.
  rewrite Hflag in Hh. unfold holders in Hh.
  destruct (holder_exists (goroutines sv) ltac:(lia)) as (i & pc & Hi & Hpc).
  destruct pc as [r|r|status|r| |]; try discriminate.
  - (* the handler that has set the flag *)
    destruct (parseFails r) eqn:Hp.
    { exists [WHandler i]. eexists. simpl. rewrite Hi, Hp. split; reflexivity. }
    destruct (String.eqb (FormValue r "host") "") eqn:Hhost.
    { exists [WHandler i]. eexists. simpl. rewrite Hi, Hp, Hhost. split; reflexivity. }
    set (sv1 := mkServer (scanInProgress sv) (scanResults sv)
                  (<[i:=HResponded StatusAccepted]> (goroutines sv) ++ [GScan r])).
    assert (H1 : webExec (WHandler i) sv = Some sv1)
      by (simpl; by rewrite Hi, Hp, Hhost).
    destruct (scan_goroutine_finishes sv1 (length (goroutines sv)) r)
      as (labels & sv' & Hrun & Hidle).
    { simpl. rewrite lookup_app_r by (by rewrite length_insert).
      by rewrite length_insert, Nat.sub_diag. }
    exists (WHandler i :: labels), sv'. split; [|exact Hidle].
    by eapply webRun_cons.
  - by eapply scan_goroutine_finishes.
  - exists [WReset i]. eexists. simpl. rewrite Hi. split; reflexivity.
Qed.

Lemma web_server_can_always_become_idle_witness :
  webReachable busyServer
  /\ exists labels sv', webRun labels busyServer = Some sv' /\ scanInProgress sv' = false.
Proof.
  assert (Hr : webReachable busyServer).
  { apply (webRun_reachable twoRequests server0); [constructor|]. vm_compute. reflexivity. }
  split; [exact Hr|]. exact (web_server_can_always_become_idle busyServer Hr).
Defined.

(** ** [isHostAlive] *)

(** X12.  [isHostAlive] answers from the dials on 80, 443, 22 and 3389 alone:
    the host is alive exactly when one of the four succeeds.  A failed dial
    is a closed port whatever its error, the cancellation of the context
    included: a cancelled check says the host is down. *)
Theorem isHostAlive_iff_one_of_four_ports_answers :
  (forall dial,
      isHostAlive dial = true
      <-> dial 80 = DialOK \/ dial 443 = DialOK \/ dial 22 = DialOK \/ dial 3389 = DialOK)
  /\ (forall dial dial',
        (forall port, port ∈ [80; 443; 22; 3389] -> dial port = dial' port) ->
        isHostAlive dial = isHostAlive dial')
  /\ (forall dial,
        (forall port, exists err, dial port = DialFail err) -> isHostAlive dial = false).
Proof.
  assert (Hopen : forall d, fst (isPortOpen d) = true <-> d = DialOK).
  { intros [|err]; simpl; [tauto|]. split; [|discriminate].
    by destruct (is_net_error err && net_timeout err),
         (is_canceled err || is_deadline_exceeded err). }
  assert (Hiff : forall dial,
      isHostAlive dial = true
      <-> dial 80 = DialOK \/ dial 443 = DialOK \/ dial 22 = DialOK \/ dial 3389 = DialOK).
  { intros dial. unfold isHostAlive. cbn [existsb].
    rewrite !orb_true_iff, !Hopen. intuition discriminate. }
  split; [exact Hiff|]. split.
  - intros dial dial' Heq. unfold isHostAlive. cbn [existsb].
    rewrite !Heq by (apply list_elem_of_In; simpl; tauto). reflexivity.
  - intros dial Hfail. apply not_true_is_false. rewrite Hiff.
    intros [H|[H|[H|H]]];
      match type of H with dial ?p = _ => destruct (Hfail p) as [err He] end; congruence.
Qed.

Lemma isHostAlive_iff_one_of_four_ports_answers_witness :
  isHostAlive (fun port => if port =? 22 then DialOK else DialFail errRefused) = true
  /\ isHostAlive (fun port => if port =? 8080 then DialOK else DialFail errRefused) = false
  /\ isHostAlive (fun _ => DialFail errCanceled) = false.
Proof.
  destruct isHostAlive_iff_one_of_four_ports_answers as (Hiff & Hsame & Hdown).
  split; [|split].
  - apply Hiff. right; right; left. reflexivity.
  - rewrite (Hsame _ (fun _ => DialFail errRefused)).
    + apply Hdown. intros port. by exists errRefused.
    + intros port Hp. apply list_elem_of_In in Hp. simpl in Hp.
      destruct Hp as [<-|[<-|[<-|[<-|[]]]]]; reflexivity.
  - apply Hdown. intros port. by exists errCanceled.
Defined.

(** ** [guessOS], the other answers *)

(** X13.  The three answers between ["Likely Windows"] and ["Unknown OS"], by
    the ports present.  The tests [!hasPort445] of the code change nothing:
    they are reached only when 445 is absent. *)
Theorem guessOS_unix_and_device_answers (openPorts : list Z) :
  let windows := 445 ∈ openPorts \/ 3389 ∈ openPorts \/ 135 ∈ openPorts in
  (guessOS openPorts = "Likely Linux/Unix"
   <-> ~ windows /\ 22 ∈ openPorts /\ 111 ∈ openPorts)
  /\ (guessOS openPorts = "Likely Linux/Unix or Network Device"
      <-> ~ windows /\ 22 ∈ openPorts /\ (111 ∉ openPorts))
  /\ (guessOS openPorts = "Likely Network Device or Appliance"
      <-> ~ windows /\ (22 ∉ openPorts) /\ (80 ∈ openPorts \/ 443 ∈ openPorts)).
Proof.
  cbv zeta. unfold guessOS. rewrite <- !contains_elem_of.
  destruct (contains openPorts 445), (contains openPorts 3389),
    (contains openPorts 135), (contains openPorts 22), (contains openPorts 111),
    (contains openPorts 80), (contains openPorts 443); simpl;
    repeat split; intros; try discriminate; intuition discriminate.
Qed.

(** X14.  [guessOS] looks at the ports present only: two lists with the same
    ports, in any order and with any repetitions, get the same answer.  So
    the answer does not depend on the order in which [Scan] collected its
    result. *)
Theorem guessOS_depends_on_the_ports_present (l1 l2 : list Z) :
  (forall port, port ∈ l1 <-> port ∈ l2) -> guessOS l1 = guessOS l2.
Proof.
  intros H.
  assert (Hc : forall port, contains l1 port = contains l2 port).
  { intros port. destruct (contains l1 port) eqn:H1, (contains l2 port) eqn:H2;
      try reflexivity.
    - apply contains_elem_of, H, contains_elem_of in H1. congruence.
    - apply contains_elem_of, H, contains_elem_of in H2. congruence. }
  unfold guessOS. by rewrite !Hc.
Qed.

Lemma guessOS_depends_on_the_ports_present_witness :
  guessOS [80; 22; 80; 111] = guessOS [111; 22; 80].
Proof.
  apply guessOS_depends_on_the_ports_present. intros port.
  rewrite <- !contains_elem_of. cbn [contains].
  destruct (80 =? port), (22 =? port), (111 =? port);
    split; intros; first [reflexivity | assumption].
Defined.

(** ** The detectors *)

Lemma append_String c (t s : string) : String c t +:+ s = String c (t +:+ s).
Proof. reflexivity. Qed.

Lemma append_assoc (s1 s2 s3 : string) : (s1 +:+ s2) +:+ s3 = s1 +:+ (s2 +:+ s3).
Proof.
  induction s1 as [|c t IH]; [reflexivity|]. by rewrite !append_String, IH.
Qed.

Lemma append_nil_r (s : string) : s +:+ "" = s.
Proof. induction s as [|c t IH]; [reflexivity|]. by rewrite append_String, IH. Qed.

Lemma prefix_append s t : String.prefix s (s +:+ t) = true.
Proof.
  induction s as [|c s IH]; [by destruct t|].
  rewrite append_String. cbn [String.prefix].
  destruct (ascii_dec c c); [exact IH | done].
Qed.

Lemma stringsContains_append s t : stringsContains (s +:+ t) s = true.
Proof.
  destruct (s +:+ t) eqn:E; cbn [stringsContains]; rewrite <- E, prefix_append; reflexivity.
Qed.

Lemma lineBreaksToSpaces_plain c t :
  Ascii.eqb c GoString.LF = false -> Ascii.eqb c GoString.CR = false ->
  GoString.lineBreaksToSpaces (String c t) = String c (GoString.lineBreaksToSpaces t).
Proof.
  intros H1 H2. destruct t as [|d t].
  - rewrite lineBreaksToSpaces_one, H1. reflexivity.
  - rewrite lineBreaksToSpaces_two, H1, H2. reflexivity.
Qed.

(** A byte that is neither CR nor LF. *)
Definition plain (c : ascii) : bool :=
  negb (Ascii.eqb c GoString.LF) && negb (Ascii.eqb c GoString.CR).

Fixpoint all_plain (s : string) : bool :=
  match s with
  | EmptyString => true
  | String c t => plain c && all_plain t
  end.

Lemma lineBreaksToSpaces_append s t :
  all_plain s = true ->
  GoString.lineBreaksToSpaces (s +:+ t) = s +:+ GoString.lineBreaksToSpaces t.
Proof.
  induction s as [|c s IH]; [reflexivity|]. cbn [all_plain]. unfold plain.
  intros (Hc & Hs)%andb_true_iff. apply andb_true_iff in Hc as [H1 H2].
  apply negb_true_iff in H1, H2.
  rewrite !append_String, lineBreaksToSpaces_plain, IH by done. reflexivity.
Qed.

Lemma take_append s t n :
  (String.length s <= n)%nat ->
  GoString.take n (s +:+ t) = s +:+ GoString.take (n - String.length s) t.
Proof.
  revert n. induction s as [|c s IH]; intros n Hn.
  - simpl. by rewrite Nat.sub_0_r.
  - destruct n as [|n]; [simpl in Hn; lia|].
    rewrite !append_String. cbn [GoString.take String.length].
    rewrite IH by (simpl in Hn; lia). reflexivity.
Qed.

(** The banner of a response that starts with [name], a short name without
    line breaks: it starts with [name] too. *)
Lemma grabBanner_leading name io port rest :
  all_plain name = true -> (String.length name <= 100)%nat ->
  bio_dial io = DialOK -> bio_deadline io = None ->
  (port = 80 \/ port = 8080 -> bio_write io = None) ->
  bio_read io = inr (name +:+ rest) ->
  exists rest', grabBanner io port = (name +:+ rest', None).
Proof.
  intros Hp Hlen Hd Hdl Hw Hr. unfold grabBanner. rewrite Hd, Hdl.
  assert ((if (port =? 80) || (port =? 8080) then bio_write io else None) = None) as ->.
  { destruct (Z.eqb_spec port 80); [apply Hw; by left|].
    destruct (Z.eqb_spec port 8080); [apply Hw; by right|]. reflexivity. }
  rewrite Hr, ReplaceAll_line_breaks, take_append by lia.
  rewrite lineBreaksToSpaces_append by done.
  set (tl := GoString.lineBreaksToSpaces _).
  destruct (100 <? GoString.len (name +:+ tl)).
  - rewrite take_append by lia. rewrite append_assoc. eauto.
  - eauto.
Qed.

(** X15.  The two detectors.  On its own port a detector answers without the
    network: 80 is HTTP, 443 is HTTPS, 22 is SSH.  On any other port it
    answers from the banner: a failed [grabBanner] is no detection, and a
    server whose response starts with the protocol name, as an HTTP status
    line and an SSH identification string do, is detected.  A detection
    always comes with a name, and no detection with the empty name. *)
Theorem detectors_recognise_leading_protocol_name :
  (forall io,
      HTTPDetector_Detect io 80 = ("HTTP", true)
      /\ HTTPDetector_Detect io 443 = ("HTTPS", true)
      /\ SSHDetector_Detect io 22 = ("SSH", true))
  /\ (forall io port err,
        grabBanner io port = ("", Some err) ->
        (port <> 80 -> port <> 443 -> HTTPDetector_Detect io port = ("", false))
        /\ (port <> 22 -> SSHDetector_Detect io port = ("", false)))
  /\ (forall io port rest,
        bio_dial io = DialOK -> bio_deadline io = None ->
        (port = 8080 -> bio_write io = None) ->
        bio_read io = inr ("HTTP" +:+ rest) ->
        port <> 443 -> HTTPDetector_Detect io port = ("HTTP", true))
  /\ (forall io port rest,
        bio_dial io = DialOK -> bio_deadline io = None ->
        (port = 80 \/ port = 8080 -> bio_write io = None) ->
        bio_read io = inr ("SSH" +:+ rest) ->
        SSHDetector_Detect io port = ("SSH", true))
  /\ (forall io port,
        HTTPDetector_Detect io port ∈ [("HTTP", true); ("HTTPS", true); ("", false)]
        /\ SSHDetector_Detect io port ∈ [("SSH", true); ("", false)]).
Proof.
  split; [by intros io|]. split; [|split; [|split]].
  - intros io port err Hg. unfold HTTPDetector_Detect, SSHDetector_Detect. rewrite Hg.
    split.
    + intros H1 H2. by destruct (Z.eqb_spec port 80), (Z.eqb_spec port 443).
    + intros H1. by destruct (Z.eqb_spec port 22).
  - intros io port rest Hd Hdl Hw Hr Hne. unfold HTTPDetector_Detect.
    destruct (Z.eqb_spec port 80) as [->|H80]; [reflexivity|].
    destruct (Z.eqb_spec port 443); [done|].
    destruct (grabBanner_leading "HTTP" io port rest eq_refl ltac:(simpl; lia) Hd Hdl
                ltac:(intros [?|?]; [done | by apply Hw]) Hr) as (rest' & ->).
    by rewrite stringsContains_append.
  - intros io port rest Hd Hdl Hw Hr. unfold SSHDetector_Detect.
    destruct (Z.eqb_spec port 22) as [->|H22]; [reflexivity|].
    destruct (grabBanner_leading "SSH" io port rest eq_refl ltac:(simpl; lia) Hd Hdl
                Hw Hr) as (rest' & ->).
    by rewrite stringsContains_append.
  - intros io port. unfold HTTPDetector_Detect, SSHDetector_Detect.
    destruct (port =? 80), (port =? 443), (port =? 22),
      (grabBanner io port) as [banner [err|]];
      try destruct (stringsContains banner "HTTP");
      try destruct (stringsContains banner "SSH");
      split; apply list_elem_of_In; simpl; tauto.
Qed.

(** A web server on port 8000 and an SSH server on port 2222. *)
Definition httpOn8000 : BannerIO :=
  mkBannerIO DialOK None None (inr ("HTTP/1.0 400 Bad Request" +:+ GoString.CRLF)).

Lemma detectors_recognise_leading_protocol_name_witness :
  HTTPDetector_Detect httpOn8000 8000 = ("HTTP", true)
  /\ SSHDetector_Detect sshBanner 2222 = ("SSH", true)
  /\ HTTPDetector_Detect (mkBannerIO (DialFail errRefused) None None (inr "")) 8000
     = ("", false).
Proof.
  destruct detectors_recognise_leading_protocol_name as (_ & Hfail & Hhttp & Hssh & _).
  split; [|split].
  - apply (Hhttp httpOn8000 8000 ("/1.0 400 Bad Request" +:+ GoString.CRLF));
      first [reflexivity | discriminate].
  - apply (Hssh sshBanner 2222 ("-2.0-OpenSSH_8.9" +:+ GoString.CRLF));
      first [reflexivity | intros [?|?]; discriminate].
  - apply (Hfail (mkBannerIO (DialFail errRefused) None None (inr "")) 8000 errRefused);
      first [reflexivity | discriminate].
Defined.

(** ** [grabBanner], what it leaves alone *)

Lemma lineBreaksToSpaces_no_line_feed s :
  ~ GoString.occurs GoString.LF s -> GoString.lineBreaksToSpaces s = s.
Proof.
  assert (H : forall s,
             (~ GoString.occurs GoString.LF s -> GoString.lineBreaksToSpaces s = s)
             /\ forall c, ~ GoString.occurs GoString.LF (String c s) ->
                          GoString.lineBreaksToSpaces (String c s) = String c s).
  { clear s. induction s as [|d t [IHt IHdt]].
    - split; [reflexivity|]. intros c Hc. rewrite lineBreaksToSpaces_one.
      destruct (Ascii.eqb c GoString.LF) eqn:E; [|reflexivity].
      apply Ascii.eqb_eq in E. subst c. exfalso. apply Hc. by left.
    - split; [apply IHdt|]. intros c Hc. rewrite lineBreaksToSpaces_two.
      destruct (Ascii.eqb c GoString.LF) eqn:E.
      { apply Ascii.eqb_eq in E. subst c. exfalso. apply Hc. by left. }
      destruct (Ascii.eqb d GoString.LF) eqn:E'.
      { apply Ascii.eqb_eq in E'. subst d. exfalso. apply Hc. right. by left. }
      rewrite andb_false_r. f_equal. apply IHdt. intros Hd. apply Hc. by right. }
  apply H.
Qed.

Lemma take_all n s : (String.length s <= n)%nat -> GoString.take n s = s.
Proof.
  revert n. induction s as [|c t IH]; intros [|n] Hn; simpl in *; try reflexivity; try lia.
  f_equal. apply IH. lia.
Qed.

(** X16.  [grabBanner] gives back a short response as it is: when the
    connection works, a response of at most 100 bytes with no line feed in it
    is the banner, unchanged (a carriage return alone is kept).  And it
    writes to the connection on ports 80 and 8080 only: on any other port the
    result does not depend on what a write would do. *)
Theorem grabBanner_keeps_short_plain_responses :
  (forall io port received,
      bio_dial io = DialOK -> bio_deadline io = None ->
      (port = 80 \/ port = 8080 -> bio_write io = None) ->
      bio_read io = inr received ->
      ~ GoString.occurs GoString.LF received -> (String.length received <= 100)%nat ->
      grabBanner io port = (received, None))
  /\ (forall dial deadline write write' read port,
        port <> 80 -> port <> 8080 ->
        grabBanner (mkBannerIO dial deadline write read) port
        = grabBanner (mkBannerIO dial deadline write' read) port).
Proof.
  split.
  - intros io port received Hd Hdl Hw Hr Hlf Hlen. unfold grabBanner. rewrite Hd, Hdl.
    assert ((if (port =? 80) || (port =? 8080) then bio_write io else None) = None) as ->.
    { destruct (Z.eqb_spec port 80); [apply Hw; by left|].
      destruct (Z.eqb_spec port 8080); [apply Hw; by right|]. reflexivity. }
    rewrite Hr, ReplaceAll_line_breaks, take_all by lia.
    rewrite lineBreaksToSpaces_no_line_feed by done.
    unfold GoString.len.
    destruct (Z.ltb_spec 100 (Z.of_nat (String.length received))); [lia|reflexivity].
  - intros dial deadline write write' read port H80 H8080. unfold grabBanner. simpl.
    destruct (Z.eqb_spec port 80); [done|]. destruct (Z.eqb_spec port 8080); [done|].
    reflexivity.
Qed.

Lemma grabBanner_keeps_short_plain_responses_witness :
  grabBanner (mkBannerIO DialOK None None (inr "220 ProFTPD Server ready.")) 21
  = ("220 ProFTPD Server ready.", None)
  /\ grabBanner (mkBannerIO DialOK None (Some errRefused) (inr "+OK")) 110
     = grabBanner (mkBannerIO DialOK None None (inr "+OK")) 110.
Proof.
  destruct grabBanner_keeps_short_plain_responses as [Hid Hw]. split.
  - apply (Hid (mkBannerIO DialOK None None (inr "220 ProFTPD Server ready.")) 21
              "220 ProFTPD Server ready."); try reflexivity.
    + clear. vm_compute. intuition discriminate.
    + vm_compute. lia.
  - apply Hw; discriminate.
Defined.

(** ** [formatDuration] *)

(** The duration in whole seconds, a half second counting as one. *)
Definition rounded_seconds (d : Z) : Z := (d + 500000000) / 1000000000.

Lemma Round_nonneg d :
  0 <= d <= GoInt.max_int - Time.Second ->
  Duration.Round d Time.Second = rounded_seconds d * 1000000000.
Proof.
  unfold Duration.Round, Duration.lessThanHalf, rounded_seconds, Time.Second,
    GoInt.max_int.
  intros H. change (2 ^ 63) with 9223372036854775808 in *.
  change (2 ^ 64) with 18446744073709551616.
  change (1000000000 <=? 0) with false. cbv iota.
  destruct (Z.ltb_spec d 0) as [?|_]; [lia|].
  rewrite Z.rem_mod_nonneg by lia.
  pose proof (Z.mod_pos_bound d 1000000000 ltac:(lia)) as Hr.
  pose proof (Z.div_mod d 1000000000 ltac:(lia)) as Hd.
  set (r := d mod 1000000000) in *. set (q := d / 1000000000) in *.
  rewrite (Z.mod_small r), (Z.mod_small (r + r)), (Z.mod_small 1000000000) by lia.
  assert (Hq : 0 <= q) by (apply Z.div_pos; lia).
  destruct (Z.ltb_spec (r + r) 1000000000) as [Hlt|Hge].
  - rewrite wrap64_id
      by (unfold GoInt.in_range, GoInt.min_int, GoInt.max_int;
          change (2 ^ 63) with 9223372036854775808; lia).
    assert ((d + 500000000) / 1000000000 = q) as ->; [|lia].
    symmetry. apply (Z.div_unique _ _ q (r + 500000000)); lia.
  - cbv zeta. rewrite wrap64_id
      by (unfold GoInt.in_range, GoInt.min_int, GoInt.max_int;
          change (2 ^ 63) with 9223372036854775808; lia).
    destruct (Z.ltb_spec d (d + 1000000000 - r)); [|lia].
    assert ((d + 500000000) / 1000000000 = q + 1) as ->; [|lia].
    symmetry. apply (Z.div_unique _ _ (q + 1) (r - 500000000)); lia.
Qed.

Ltac in_range_tac :=
  unfold GoInt.in_range, GoInt.min_int, GoInt.max_int;
  change (2 ^ 63) with 9223372036854775808; lia.

(** The parts [formatDuration] computes from a whole number [t] of seconds
    of either sign: Go's division truncates. *)
Lemma formatDuration_parts t :
  - 9223372036 <= t <= 9223372036 ->
  let d0 := t * 1000000000 in
  let h := Z.quot d0 Duration.Hour in
  let d1 := GoInt.wrap64 (d0 - GoInt.wrap64 (h * Duration.Hour)) in
  let m := Z.quot d1 Duration.Minute in
  let d2 := GoInt.wrap64 (d1 - GoInt.wrap64 (m * Duration.Minute)) in
  let s := Z.quot d2 Time.Second in
  h = Z.quot t 3600 /\ m = Z.quot (Z.rem t 3600) 60 /\ s = Z.rem t 60.
Proof.
  intros Ht. unfold Duration.Hour, Duration.Minute, Time.Second. cbv zeta.
  change (60 * (60 * 1000000000)) with (3600 * 1000000000).
  change (60 * 1000000000) with (60 * 1000000000).
  assert (Hh : Z.quot (t * 1000000000) (3600 * 1000000000) = Z.quot t 3600).
  { rewrite Z.quot_mul_cancel_r by lia. reflexivity. }
  rewrite Hh.
  pose proof (Z.quot_rem' t 3600) as Hqr.
  pose proof (Z.rem_bound_abs t 3600 ltac:(lia)) as Hrb.
  assert (Hra : -3600 < Z.rem t 3600 < 3600) by lia.
  assert (Hqa : Z.abs (Z.quot t 3600 * 3600) <= Z.abs t).
  { pose proof (Z.mul_quot_le t 3600) as H1. pose proof (Z.mul_quot_ge t 3600) as H2.
    destruct (Z.le_gt_cases 0 t); [specialize (H1 ltac:(lia) ltac:(lia)) | 
                                    specialize (H2 ltac:(lia) ltac:(lia))]; lia. }
  rewrite (wrap64_id (Z.quot t 3600 * (3600 * 1000000000))) by in_range_tac.
  assert (Hd1 : t * 1000000000 - Z.quot t 3600 * (3600 * 1000000000)
                = Z.rem t 3600 * 1000000000) by lia.
  rewrite Hd1. rewrite (wrap64_id (Z.rem t 3600 * 1000000000)) by in_range_tac.
  set (u := Z.rem t 3600) in *.
  assert (Hm : Z.quot (u * 1000000000) (60 * 1000000000) = Z.quot u 60).
  { rewrite Z.quot_mul_cancel_r by lia. reflexivity. }
  rewrite Hm.
  pose proof (Z.quot_rem' u 60) as Hqr2.
  pose proof (Z.rem_bound_abs u 60 ltac:(lia)) as Hrb2.
  assert (Hqa2 : Z.abs (Z.quot u 60 * 60) <= Z.abs u).
  { pose proof (Z.mul_quot_le u 60) as H1. pose proof (Z.mul_quot_ge u 60) as H2.
    destruct (Z.le_gt_cases 0 u); [specialize (H1 ltac:(lia) ltac:(lia)) | 
                                    specialize (H2 ltac:(lia) ltac:(lia))]; lia. }
  rewrite (wrap64_id (Z.quot u 60 * (60 * 1000000000))) by in_range_tac.
  assert (Hd2 : u * 1000000000 - Z.quot u 60 * (60 * 1000000000)
                = Z.rem u 60 * 1000000000) by lia.
  rewrite Hd2. rewrite (wrap64_id (Z.rem u 60 * 1000000000)) by in_range_tac.
  rewrite Z.quot_mul by lia.
  split; [reflexivity|]. split; [reflexivity|].
  (* rem (rem t 3600) 60 = rem t 60 *)
  subst u. 
  rewrite (Z.rem_eq t 3600), (Z.rem_eq _ 60), (Z.rem_eq t 60) by lia.
  assert (Z.quot (t - 3600 * Z.quot t 3600) 60 = Z.quot t 60 - 60 * Z.quot t 3600) as ->;
    [|lia].
  destruct (Z.le_gt_cases 0 t) as [Hp|Hn].
  - rewrite (Z.quot_div_nonneg t 3600), (Z.quot_div_nonneg t 60) by lia.
    pose proof (Z.mul_div_le t 3600 ltac:(lia)).
    rewrite Z.quot_div_nonneg by lia.
    replace (t - 3600 * (t / 3600)) with (t + (- (60 * (t / 3600))) * 60) by lia.
    rewrite Z.div_add by lia. lia.
  - replace t with (- (- t)) by lia. set (v := - t) in *. assert (0 < v) by lia.
    rewrite (Z.quot_opp_l v 3600), (Z.quot_opp_l v 60) by lia.
    rewrite (Z.quot_div_nonneg v 3600), (Z.quot_div_nonneg v 60) by lia.
    replace (- v - 3600 * - (v / 3600)) with (- (v - 3600 * (v / 3600))) by lia.
    pose proof (Z.mul_div_le v 3600 ltac:(lia)).
    rewrite Z.quot_opp_l by lia. rewrite Z.quot_div_nonneg by lia.
    replace (v - 3600 * (v / 3600)) with (v + (- (60 * (v / 3600))) * 60) by lia.
    rewrite Z.div_add by lia. lia.
Qed.

Lemma Round_neg d :
  GoInt.min_int + Time.Second <= d < 0 ->
  Duration.Round d Time.Second = - rounded_seconds (- d) * 1000000000.
Proof.
  unfold Duration.Round, Duration.lessThanHalf, rounded_seconds, Time.Second,
    GoInt.min_int.
  intros H. change (2 ^ 63) with 9223372036854775808 in *.
  change (2 ^ 64) with 18446744073709551616.
  change (1000000000 <=? 0) with false. cbv iota.
  destruct (Z.ltb_spec d 0) as [_|?]; [|lia].
  remember (- d) as v eqn:Ev. assert (Edv : d = - v) by lia. clear Ev. subst d.
  assert (Hv : 0 < v) by lia.
  rewrite Z.rem_opp_l by lia. rewrite Z.rem_mod_nonneg by lia.
  pose proof (Z.mod_pos_bound v 1000000000 ltac:(lia)) as Hr.
  pose proof (Z.div_mod v 1000000000 ltac:(lia)) as Hd.
  set (r := v mod 1000000000) in *. set (q := v / 1000000000) in *.
  rewrite Z.opp_involutive. cbv zeta.
  rewrite (wrap64_id r) by in_range_tac.
  rewrite (Z.mod_small r), (Z.mod_small (r + r)), (Z.mod_small 1000000000) by lia.
  assert (Hq : 0 <= q) by (apply Z.div_pos; lia).
  destruct (Z.ltb_spec (r + r) 1000000000) as [Hlt|Hge].
  - rewrite wrap64_id by in_range_tac.
    assert ((v + 500000000) / 1000000000 = q) as ->; [|lia].
    symmetry. apply (Z.div_unique _ _ q (r + 500000000)); lia.
  - rewrite wrap64_id by in_range_tac.
    destruct (Z.ltb_spec (- v - 1000000000 + r) (- v)); [|lia].
    assert ((v + 500000000) / 1000000000 = q + 1) as ->; [|lia].
    symmetry. apply (Z.div_unique _ _ (q + 1) (r - 500000000)); lia.
Qed.

Lemma rounded_seconds_bound d :
  0 <= d <= 2 ^ 63 - 500000000 -> 0 <= rounded_seconds d <= 9223372036.
Proof.
  unfold rounded_seconds. change (2 ^ 63) with 9223372036854775808.
  intros H. split; [apply Z.div_pos; lia|].
  assert ((d + 500000000) / 1000000000 < 9223372037); [|lia].
  apply Z.div_lt_upper_bound; lia.
Qed.

(** X17.  [formatDuration] of a duration that is not negative: the duration
    is rounded to whole seconds, a half second going up, and shown as hours,
    minutes below 60 and seconds below 60; the hours, and then the minutes,
    are left out while they are zero. *)
Theorem formatDuration_hours_minutes_seconds d :
  0 <= d <= GoInt.max_int - Time.Second ->
  formatDuration d =
    let t := rounded_seconds d in
    if 3600 <=? t
    then Strconv.Itoa (t / 3600) +:+ "h " +:+ Strconv.Itoa (t mod 3600 / 60) +:+ "m "
         +:+ Strconv.Itoa (t mod 60) +:+ "s"
    else if 60 <=? t
    then Strconv.Itoa (t / 60) +:+ "m " +:+ Strconv.Itoa (t mod 60) +:+ "s"
    else Strconv.Itoa t +:+ "s".
Proof.
  intros H. unfold formatDuration. rewrite (Round_nonneg d H).
  assert (Hd : 0 <= d <= 2 ^ 63 - 500000000)
    by (unfold Time.Second, GoInt.max_int in H; lia).
  pose proof (rounded_seconds_bound d Hd) as Ht.
  destruct (formatDuration_parts (rounded_seconds d) ltac:(lia)) as (Hh & Hm & Hs).
  cbv zeta in Hh, Hm, Hs. cbv zeta. rewrite Hs, Hm, Hh.
  set (t := rounded_seconds d) in *.
  pose proof (Z.mod_pos_bound t 3600 ltac:(lia)) as Hb.
  rewrite (Z.quot_div_nonneg t 3600), (Z.rem_mod_nonneg t 3600),
    (Z.rem_mod_nonneg t 60) by lia.
  rewrite (Z.quot_div_nonneg (t mod 3600) 60) by lia.
  destruct (Z.leb_spec 3600 t) as [Hge|Hlt].
  - assert (0 < t / 3600) by (apply Z.div_str_pos; lia).
    destruct (Z.ltb_spec 0 (t / 3600)); [reflexivity|lia].
  - rewrite (Z.div_small t 3600), (Z.mod_small t 3600) by lia.
    change (0 <? 0) with false. cbv iota.
    destruct (Z.leb_spec 60 t) as [Hge|Hlt'].
    + assert (0 < t / 60) by (apply Z.div_str_pos; lia).
      destruct (Z.ltb_spec 0 (t / 60)); [reflexivity|lia].
    + rewrite (Z.div_small t 60), (Z.mod_small t 60) by lia. reflexivity.
Qed.

Lemma formatDuration_hours_minutes_seconds_witness :
  0 <= 3725500000000 <= GoInt.max_int - Time.Second
  /\ formatDuration 3725500000000 = "1h 2m 6s".
Proof.
  assert (H : 0 <= 3725500000000 <= GoInt.max_int - Time.Second)
    by (vm_compute; split; discriminate).
  split; [exact H|].
  rewrite (formatDuration_hours_minutes_seconds 3725500000000 H). vm_compute. reflexivity.
Defined.

(** X18.  [formatDuration] of a negative duration shows its seconds only: the
    tests [h > 0] and [m > 0] fail, so the hours and the minutes are dropped,
    and what is printed is the seconds part, between -59 and 0. *)
Theorem formatDuration_negative_drops_hours_and_minutes d :
  GoInt.min_int + Time.Second <= d < 0 ->
  formatDuration d = Strconv.Itoa (- (rounded_seconds (- d) mod 60)) +:+ "s"
  /\ -59 <= - (rounded_seconds (- d) mod 60) <= 0.
Proof.
  intros H. unfold formatDuration. rewrite (Round_neg d H).
  assert (Hd : 0 <= - d <= 2 ^ 63 - 500000000)
    by (unfold Time.Second, GoInt.min_int in H; lia).
  pose proof (rounded_seconds_bound (- d) Hd) as Ht.
  set (t := rounded_seconds (- d)) in *.
  destruct (formatDuration_parts (- t) ltac:(lia)) as (Hh & Hm & Hs).
  cbv zeta in Hh, Hm, Hs. cbv zeta. rewrite Hs, Hm, Hh.
  pose proof (Z.mod_pos_bound t 3600 ltac:(lia)) as Hb.
  pose proof (Z.mod_pos_bound t 60 ltac:(lia)) as Hb'.
  rewrite (Z.quot_opp_l t 3600), (Z.rem_opp_l t 3600), (Z.rem_opp_l t 60) by lia.
  rewrite (Z.quot_div_nonneg t 3600), (Z.rem_mod_nonneg t 3600),
    (Z.rem_mod_nonneg t 60) by lia.
  rewrite (Z.quot_opp_l (t mod 3600) 60) by lia.
  rewrite (Z.quot_div_nonneg (t mod 3600) 60) by lia.
  assert (0 <= t / 3600) by (apply Z.div_pos; lia).
  assert (0 <= t mod 3600 / 60) by (apply Z.div_pos; lia).
  destruct (Z.ltb_spec 0 (- (t / 3600))); [lia|].
  destruct (Z.ltb_spec 0 (- (t mod 3600 / 60))); [lia|].
  split; [reflexivity | lia].
Qed.

Lemma formatDuration_negative_drops_hours_and_minutes_witness :
  GoInt.min_int + Time.Second <= - 3725000000000 < 0
  /\ formatDuration (- 3725000000000) = "-5s"
  /\ formatDuration (- 3600000000000) = "0s".
Proof.
  assert (H : GoInt.min_int + Time.Second <= - 3725000000000 < 0)
    by (vm_compute; split; [discriminate | reflexivity]).
  split; [exact H|]. split.
  - rewrite (proj1 (formatDuration_negative_drops_hours_and_minutes _ H)).
    vm_compute. reflexivity.
  - vm_compute. reflexivity.
Defined.

(** ** [formatResultSummary] *)

(** The entries after the first, each behind its separator. *)
Definition moreEntries (ports : list Z) : string :=
  foldr (fun port acc => ", " +:+ portEntry port +:+ acc) "" ports.

Lemma summaryAll_more i ports summary :
  summaryAll (S i) ports summary = summary +:+ moreEntries ports.
Proof.
  revert i summary. induction ports as [|p ports IH]; intros i summary; simpl.
  - by rewrite append_nil_r.
  - rewrite IH. by rewrite !append_assoc.
Qed.

Lemma concat_entries p ports :
  String.concat ", " (portEntry <$> (p :: ports)) = portEntry p +:+ moreEntries ports.
Proof.
  revert p. induction ports as [|q ports IH]; intros p.
  - simpl. by rewrite append_nil_r.
  - change (String.concat ", " (portEntry <$> p :: q :: ports))
      with (portEntry p +:+ ", " +:+ String.concat ", " (portEntry <$> (q :: ports))).
    rewrite IH. reflexivity.
Qed.

Lemma summaryAll_concat ports summary :
  summaryAll 0 ports summary = summary +:+ String.concat ", " (portEntry <$> ports).
Proof.
  destruct ports as [|p ports].
  - simpl. by rewrite append_nil_r.
  - rewrite concat_entries. simpl. rewrite summaryAll_more. by rewrite append_assoc.
Qed.

Lemma summaryFirst_take n i ports summary :
  (i + n <= length ports)%nat ->
  summaryFirst n i ports summary = Some (summaryAll i (take n (drop i ports)) summary).
Proof.
  revert i summary. induction n as [|n IH]; intros i summary Hlen; simpl.
  - reflexivity.
  - destruct (ports !! i) as [p|] eqn:Hp.
    + rewrite IH by lia.
      rewrite (drop_S ports p i Hp). reflexivity.
    + apply lookup_ge_None in Hp. lia.
Qed.

(** X19.  [formatResultSummary] never indexes out of range.  With no port it
    names the host only; with at most ten ports it lists every port with its
    service, separated by commas; with more than ten it gives the count and
    lists the first five only, followed by [", ..."]. *)
Theorem formatResultSummary_lists_all_or_first_five host openPorts :
  formatResultSummary host openPorts
  = Some
      (let n := length openPorts in
       if (n =? 0)%nat then "No open ports found on " +:+ host
       else if (n <=? 10)%nat
       then Strconv.Itoa (Z.of_nat n) +:+ " open ports on " +:+ host +:+ ": "
            +:+ String.concat ", " (portEntry <$> openPorts)
       else Strconv.Itoa (Z.of_nat n) +:+ " open ports on " +:+ host +:+ " including: "
            +:+ String.concat ", " (portEntry <$> take 5 openPorts) +:+ ", ...").
Proof.
  unfold formatResultSummary. cbv zeta.
  destruct (Nat.eqb_spec (length openPorts) 0) as [|Hne]; [reflexivity|].
  destruct (Nat.leb_spec (length openPorts) 10) as [Hle|Hgt].
  - rewrite summaryAll_concat. by rewrite !append_assoc.
  - rewrite summaryFirst_take by (simpl; lia). rewrite drop_0, summaryAll_concat.
    by rewrite !append_assoc.
Qed.

(** ** [saveToCSV], what it writes *)

(** The file in full: the header, then a row for each port of each host. *)
Definition csvRows (timestamp : string) (results : list (string * list Z))
  : list (list string) :=
  flat_map (fun entry => csvRow entry.1 timestamp <$> entry.2) results.

Definition csvFile (timestamp : string) (results : list (string * list Z))
  : list (list string) :=
  csvHeader :: csvRows timestamp results.

(** The calls of [Write] before the first that fails, at most [n]. *)
Fixpoint writesBeforeFailure (io : CSVIO) (from n : nat) : nat :=
  match n with
  | O => O
  | S n' => if writeFails io from then O else S (writesBeforeFailure io (S from) n')
  end.

Lemma writePorts_spec io host timestamp ports written :
  let rows := csvRow host timestamp <$> ports in
  let k := writesBeforeFailure io (length written) (length rows) in
  writePorts io host timestamp ports written
  = (written ++ take k rows,
     if (k <? length rows)%nat then Some "error writing CSV row" else None).
Proof.
  cbv zeta. revert written. induction ports as [|port ports IH]; intros written; simpl.
  - by rewrite app_nil_r.
  - destruct (writeFails io (length written)) eqn:Hw.
    + simpl. by rewrite app_nil_r.
    + rewrite IH. rewrite length_app. simpl.
      replace (length written + 1)%nat with (S (length written)) by lia.
      rewrite <- app_assoc. simpl. reflexivity.
Qed.

Lemma writesBeforeFailure_le io from n : (writesBeforeFailure io from n <= n)%nat.
Proof.
  revert from. induction n as [|n IH]; intros from; simpl; [lia|].
  destruct (writeFails io from); [lia|]. specialize (IH (S from)). lia.
Qed.

Lemma writesBeforeFailure_app io from n m :
  writesBeforeFailure io from (n + m)
  = if (writesBeforeFailure io from n <? n)%nat
    then writesBeforeFailure io from n
    else (n + writesBeforeFailure io (from + n) m)%nat.
Proof.
  revert from. induction n as [|n IH]; intros from; simpl.
  - by rewrite Nat.add_0_r.
  - destruct (writeFails io from); [reflexivity|].
    rewrite IH. replace (S from + n)%nat with (from + S n)%nat by lia.
    change (S ?a <? S ?b)%nat with (a <? b)%nat.
    destruct (writesBeforeFailure io (S from) n <? n)%nat; reflexivity.
Qed.

Lemma writeHosts_spec io timestamp results written :
  let rows := csvRows timestamp results in
  let k := writesBeforeFailure io (length written) (length rows) in
  writeHosts io timestamp results written
  = (written ++ take k rows,
     if (k <? length rows)%nat then Some "error writing CSV row" else None).
Proof.
  cbv zeta. revert written.
  induction results as [|[host ports] results IH]; intros written.
  - simpl. by rewrite app_nil_r.
  - change (csvRows timestamp ((host, ports) :: results))
      with ((csvRow host timestamp <$> ports) ++ csvRows timestamp results).
    cbn [writeHosts]. rewrite writePorts_spec. cbv zeta.
    set (rows := csvRow host timestamp <$> ports).
    set (rest := csvRows timestamp results) in *.
    rewrite length_app, writesBeforeFailure_app.
    pose proof (writesBeforeFailure_le io (length written) (length rows)) as Hle.
    set (k1 := writesBeforeFailure io (length written) (length rows)) in *.
    destruct (Nat.ltb_spec k1 (length rows)) as [Hlt|Hge].
    + rewrite take_app_le by lia.
      destruct (Nat.ltb_spec k1 (length rows + length rest)); [reflexivity|lia].
    + assert (Hk : k1 = length rows) by lia. rewrite Hk, firstn_all, IH.
      rewrite length_app, <- app_assoc, take_app_ge by lia.
      replace (length rows + writesBeforeFailure io (length written + length rows)
                               (length rest) - length rows)%nat
        with (writesBeforeFailure io (length written + length rows) (length rest))
        by lia.
      set (k2 := writesBeforeFailure io (length written + length rows) (length rest)).
      f_equal.
      destruct (Nat.ltb_spec k2 (length rest)),
        (Nat.ltb_spec (length rows + k2) (length rows + length rest));
        first [reflexivity | lia].
Qed.

(** X20.  [saveToCSV] writes the header and then one record of four fields
    for each port of each host, in the order of the iteration, all with the
    same time stamp, and returns no error; when a call of [Write] fails it
    stops at once and returns the error: what it has written is the records
    before the failing one, and nothing at all when the file cannot be
    created. *)
Theorem saveToCSV_writes_a_row_per_port io timestamp results :
  let file := csvFile timestamp results in
  let k := writesBeforeFailure io 0 (length file) in
  (createFails io = true ->
   saveToCSV io timestamp results = ([], Some "error creating CSV file"))
  /\ (createFails io = false ->
      fst (saveToCSV io timestamp results) = take k file
      /\ (snd (saveToCSV io timestamp results) = None <-> k = length file))
  /\ length file = S (sum_list_with (fun entry => length entry.2) results)
  /\ Forall (fun record => length record = 4%nat) file.
Proof.
  cbv zeta. split; [|split; [|split]].
  - intros Hc. unfold saveToCSV. by rewrite Hc.
  - intros Hc. unfold saveToCSV, csvFile. rewrite Hc. cbn [length writesBeforeFailure].
    destruct (writeFails io 0) eqn:Hw; [by split|].
    rewrite writeHosts_spec. cbv zeta. cbn [length fst snd].
    pose proof (writesBeforeFailure_le io 1 (length (csvRows timestamp results))) as Hle.
    split; [reflexivity|].
    destruct (Nat.ltb_spec (writesBeforeFailure io 1 (length (csvRows timestamp results)))
                (length (csvRows timestamp results))); split; intros; try done; lia.
  - unfold csvFile, csvRows. cbn [length]. f_equal.
    induction results as [|[host ports] results IH]; [reflexivity|].
    simpl. rewrite length_app, length_fmap, IH. reflexivity.
  - unfold csvFile, csvRows. constructor; [reflexivity|].
    apply Forall_flat_map, Forall_forall. intros [host ports] _.
    apply Forall_fmap, Forall_forall. by intros port _.
Qed.

(** Two hosts, three ports; the fourth call of [Write] fails. *)
Definition twoHosts : list (string * list Z) :=
  [("10.0.0.1", [22; 80]); ("10.0.0.2", [443])].

Lemma saveToCSV_writes_a_row_per_port_witness :
  saveToCSV (mkCSVIO false (fun _ => false)) "2024-05-01T10:00:00Z" twoHosts
  = ([ ["Host"; "Port"; "Service"; "Timestamp"];
       ["10.0.0.1"; "22"; "SSH"; "2024-05-01T10:00:00Z"];
       ["10.0.0.1"; "80"; "HTTP"; "2024-05-01T10:00:00Z"];
       ["10.0.0.2"; "443"; "HTTPS"; "2024-05-01T10:00:00Z"] ], None)
  /\ fst (saveToCSV (mkCSVIO false (fun n => bool_decide (n = 3%nat)))
                    "2024-05-01T10:00:00Z" twoHosts)
     = take 3 (csvFile "2024-05-01T10:00:00Z" twoHosts).
Proof.
  split; [vm_compute; reflexivity|].
  destruct (saveToCSV_writes_a_row_per_port
              (mkCSVIO false (fun n => bool_decide (n = 3%nat)))
              "2024-05-01T10:00:00Z" twoHosts) as (_ & Hw & _).
  destruct (Hw eq_refl) as [Hfst _]. rewrite Hfst. vm_compute. reflexivity.
Defined.

(** ** [generateScanReport], its totals *)

(** The number of ports of all hosts. *)
Definition totalPorts (results : list (string * list Z)) : nat :=
  sum_list_with (fun entry => length entry.2) results.

Lemma wrap64_add_l a b : GoInt.wrap64 (GoInt.wrap64 a + b) = GoInt.wrap64 (a + b).
Proof.
  unfold GoInt.wrap64. f_equal.
  replace ((a + 2 ^ 63) mod 2 ^ 64 - 2 ^ 63 + b + 2 ^ 63)
    with ((a + 2 ^ 63) mod 2 ^ 64 + b) by lia.
  rewrite Zplus_mod_idemp_l. f_equal. lia.
Qed.

Lemma count_ports results acc :
  foldl (fun portCount entry =>
           GoInt.wrap64 (portCount + Z.of_nat (length entry.2))) (GoInt.wrap64 acc)
        results
  = GoInt.wrap64 (acc + Z.of_nat (totalPorts results)).
Proof.
  revert acc. induction results as [|[host ports] results IH]; intros acc; simpl.
  - f_equal. unfold totalPorts. simpl. lia.
  - rewrite wrap64_add_l, IH. f_equal. unfold totalPorts. simpl. lia.
Qed.

(** X21.  The header of the report does not depend on the order in which the
    map is gone through: whatever the orders of the two loops, the report
    gives as [Hosts scanned] the number of hosts and as [Open ports found]
    the number of ports of the hosts it lists below; only the order of the
    host sections varies. *)
Theorem generateScanReport_totals_match_the_details now duration counted listed :
  counted ≡ₚ listed ->
  generateScanReport now duration counted listed
  = generateScanReport now duration listed listed
  /\ (Z.of_nat (totalPorts listed) <= GoInt.max_int ->
      generateScanReport now duration counted listed
      = foldl hostBlock
          ("PORT SCANNER REPORT" +:+ newline
           +:+ ("=================" +:+ newline +:+ newline)
           +:+ ("Scan completed at: " +:+ now +:+ newline)
           +:+ ("Duration: " +:+ formatDuration duration +:+ newline)
           +:+ ("Hosts scanned: " +:+ Strconv.Itoa (Z.of_nat (length listed)) +:+ newline)
           +:+ ("Open ports found: " +:+ Strconv.Itoa (Z.of_nat (totalPorts listed))
                +:+ newline +:+ newline)
           +:+ ("DETAILED RESULTS" +:+ newline)
           +:+ ("----------------" +:+ newline +:+ newline))
          listed
        +:+ ("Scan completed successfully" +:+ newline)).
Proof.
  intros Hperm.
  assert (Hcount : forall results,
             foldl (fun portCount entry =>
                      GoInt.wrap64 (portCount + Z.of_nat (length entry.2))) 0 results
             = GoInt.wrap64 (Z.of_nat (totalPorts results))).
  { intros results. change 0 with (GoInt.wrap64 0) at 1. by rewrite count_ports. }
  assert (Htotal : totalPorts counted = totalPorts listed).
  { unfold totalPorts. by rewrite Hperm. }
  unfold generateScanReport. cbv zeta. rewrite !Hcount, Htotal, (Permutation_length Hperm).
  split; [reflexivity|]. intros Hfit.
  rewrite wrap64_id
    by (unfold GoInt.in_range, GoInt.min_int, GoInt.max_int in *; lia).
  by rewrite !append_assoc.
Qed.

Lemma generateScanReport_totals_match_the_details_witness :
  generateScanReport "Wed, 01 May 2024 10:00:00 UTC" 61000000000
    [("10.0.0.2", [443]); ("10.0.0.1", [22; 80])]
    [("10.0.0.1", [22; 80]); ("10.0.0.2", [443])]
  = generateScanReport "Wed, 01 May 2024 10:00:00 UTC" 61000000000
      [("10.0.0.1", [22; 80]); ("10.0.0.2", [443])]
      [("10.0.0.1", [22; 80]); ("10.0.0.2", [443])].
Proof.
  apply (proj1 (generateScanReport_totals_match_the_details _ _ _ _
                  (Permutation_swap _ _ _))).
Defined.
